(** * ndnSIM consumer: retransmission bookkeeping of [ndn::Consumer]

    A shallow embedding of [src/ndnSIM/apps/ndn-consumer.cpp]: the ledgers
    the consumer keeps per sequence number, the handlers that mutate them
    ([SendPacket], [WaitBeforeSendOutInterest], [OnData], [OnTimeout],
    [CheckRetxTimeout]) and the event loop that dispatches them.

    Conventions.
    - [uint32_t] values are [N] with the wrap-around of [++] written out
      ([wrap32]); [ns3::Time] values (64-bit, taken not to overflow) and hop
      counts are [Z].
    - [Simulator::Now()] is an argument [now] of every handler that reads it.
    - The collaborators that are not part of the consumer (RTT estimator,
      scheduler, face, trace sources) are not modelled; every call into one
      of them is recorded, in program order, as an [Event]. *)

From Stdlib Require Import ZArith NArith Lia.
From stdpp Require Import base tactics option list sorting gmap sets fin_maps fin_sets.

#[local] Set Warnings "-clear-no-such-hyp".

Local Open Scope N_scope.

(** ** Machine integers *)

(** [std::numeric_limits<uint32_t>::max()]. *)
Definition uint32_max : N := 4294967295.

Definition wrap32 (n : N) : N := n mod 4294967296.

(** The value of the 32-bit two's-complement [int] that an integer is
    narrowed to. *)
Definition to_int (z : Z) : Z := ((z + 2147483648) mod 4294967296 - 2147483648)%Z.

(** ** The multi-index ledger [SeqTimeoutsContainer] *)

(** Modelled from the spec: the declarations of [SeqTimeout] and
    [SeqTimeoutsContainer] ([ndn-consumer.hpp]) are not among the sources.
    The spec describes entries "{sequenceNumber, sendTime}", "keyed uniquely
    by sequenceNumber" and "ordered by sendTime ascending"; the code uses
    one container type for [m_seqTimeouts], [m_seqLastDelay] and
    [m_seqFullDelay], reaches the time order through [get<i_timestamp>()]
    and relies on [insert] keeping an existing entry (line 368 records the
    first send only, line 370 erases before it re-inserts).  A container is
    the list of its entries in the order of the time index; entries with
    equal times stay in insertion order. *)
Record SeqTimeout : Type := mkSeqTimeout { seq : N; time : Z }.

#[global] Instance SeqTimeout_eq_dec : EqDecision SeqTimeout.
Proof. solve_decision. Defined.

(** The operations of [SeqTimeoutsContainer] that the consumer uses. *)
Module Ledger.

Definition keys (l : list SeqTimeout) : gset N := list_to_set (seq <$> l).

(** [find(seq)] on the sequence index. *)
Fixpoint find (s : N) (l : list SeqTimeout) : option SeqTimeout :=
  match l with
  | [] => None
  | e :: l' => if decide (seq e = s) then Some e else find s l'
  end.

(** [erase(seq)] on the sequence index; an absent key erases nothing. *)
Definition erase (s : N) (l : list SeqTimeout) : list SeqTimeout :=
  filter (λ e, seq e ≠ s) l.

(** Position of a new entry in the time index: behind every entry that is
    not younger. *)
Fixpoint place (e : SeqTimeout) (l : list SeqTimeout) : list SeqTimeout :=
  match l with
  | [] => [e]
  | x :: l' => if decide (time x ≤ time e)%Z then x :: place e l' else e :: x :: l'
  end.

(** [insert(SeqTimeout(seq, time))]: refused when the key is present. *)
Definition insert (e : SeqTimeout) (l : list SeqTimeout) : list SeqTimeout :=
  match find (seq e) l with
  | Some _ => l
  | None => place e l
  end.

(** Unique sequence index. *)
Definition unique (l : list SeqTimeout) : Prop := NoDup (seq <$> l).

(** Time index in ascending order. *)
Fixpoint ascending (l : list SeqTimeout) : Prop :=
  match l with
  | [] => True
  | x :: l' => Forall (λ y, (time x ≤ time y)%Z) l' ∧ ascending l'
  end.

End Ledger.

#[global] Arguments Ledger.keys : simpl never.
#[global] Arguments Ledger.erase : simpl never.
#[global] Arguments Ledger.insert : simpl never.
#[global] Arguments Ledger.unique : simpl never.

(** ** The retransmission set [m_retxSeqs] *)

(** Modelled from the spec: the declaration of [m_retxSeqs]
    ([ndn-consumer.hpp]) is not among the sources.  The spec has a
    deduplicated "set of sequenceNumber values awaiting forced resend" whose
    first element is popped in a deterministic order; the code uses
    [size()], [begin()], [insert(seq)], [erase(iterator)] and [erase(seq)],
    the interface of [std::set<uint32_t>], which iterates in ascending
    order.  The set is a [gset N]; its first element is the least one. *)
Module RetxSet.

(** Smallest element of a list of sequence numbers. *)
Fixpoint least (l : list N) : option N :=
  match l with
  | [] => None
  | x :: l' => match least l' with
               | None => Some x
               | Some y => Some (N.min x y)
               end
  end.

(** [*m_retxSeqs.begin()]: a [std::set] iterates in ascending order. *)
Definition begin (s : gset N) : option N := least (elements s).

End RetxSet.

(** ** The retransmit counters [m_seqRetxCounts] *)

(** Modelled from the spec: the declaration of [m_seqRetxCounts]
    ([ndn-consumer.hpp]) is not among the sources.  The spec has a "mapping
    sequenceNumber -> count of sends so far"; the code uses [m[seq]],
    [m[seq]++] and [erase(seq)], the interface of
    [std::map<uint32_t, uint32_t>], whose [operator[]] creates an absent key
    with the value 0. *)
Module Counts.

(** [m[seq]] as an rvalue: an absent key reads as the default [0]. *)
Definition get (s : N) (m : gmap N N) : N := default 0 (m !! s).

(** [m[seq]] as a statement: [operator[]] creates the absent key. *)
Definition touch (s : N) (m : gmap N N) : gmap N N := <[s := get s m]> m.

(** [m[seq]++]. *)
Definition incr (s : N) (m : gmap N N) : gmap N N := <[s := wrap32 (get s m + 1)]> m.

End Counts.

#[global] Arguments Counts.get : simpl never.
#[global] Arguments Counts.touch : simpl never.
#[global] Arguments Counts.incr : simpl never.

(** ** Consumer state *)

Record Consumer : Type := mkConsumer {
  m_active : bool;
  m_seq : N;
  m_seqMax : N;
  m_retxNum : N;
  m_retxTimer : Z;
  m_retxSeqs : gset N;
  m_seqTimeouts : list SeqTimeout;
  m_seqLastDelay : list SeqTimeout;
  m_seqFullDelay : list SeqTimeout;
  m_seqRetxCounts : gmap N N
}.

Definition set_active (b : bool) (c : Consumer) : Consumer :=
  mkConsumer b (m_seq c) (m_seqMax c) (m_retxNum c) (m_retxTimer c) (m_retxSeqs c)
    (m_seqTimeouts c) (m_seqLastDelay c) (m_seqFullDelay c) (m_seqRetxCounts c).

Definition set_seq (n : N) (c : Consumer) : Consumer :=
  mkConsumer (m_active c) n (m_seqMax c) (m_retxNum c) (m_retxTimer c) (m_retxSeqs c)
    (m_seqTimeouts c) (m_seqLastDelay c) (m_seqFullDelay c) (m_seqRetxCounts c).

Definition set_retxNum (n : N) (c : Consumer) : Consumer :=
  mkConsumer (m_active c) (m_seq c) (m_seqMax c) n (m_retxTimer c) (m_retxSeqs c)
    (m_seqTimeouts c) (m_seqLastDelay c) (m_seqFullDelay c) (m_seqRetxCounts c).

Definition set_retxSeqs (s : gset N) (c : Consumer) : Consumer :=
  mkConsumer (m_active c) (m_seq c) (m_seqMax c) (m_retxNum c) (m_retxTimer c) s
    (m_seqTimeouts c) (m_seqLastDelay c) (m_seqFullDelay c) (m_seqRetxCounts c).

Definition set_seqTimeouts (l : list SeqTimeout) (c : Consumer) : Consumer :=
  mkConsumer (m_active c) (m_seq c) (m_seqMax c) (m_retxNum c) (m_retxTimer c) (m_retxSeqs c)
    l (m_seqLastDelay c) (m_seqFullDelay c) (m_seqRetxCounts c).

Definition set_seqLastDelay (l : list SeqTimeout) (c : Consumer) : Consumer :=
  mkConsumer (m_active c) (m_seq c) (m_seqMax c) (m_retxNum c) (m_retxTimer c) (m_retxSeqs c)
    (m_seqTimeouts c) l (m_seqFullDelay c) (m_seqRetxCounts c).

Definition set_seqFullDelay (l : list SeqTimeout) (c : Consumer) : Consumer :=
  mkConsumer (m_active c) (m_seq c) (m_seqMax c) (m_retxNum c) (m_retxTimer c) (m_retxSeqs c)
    (m_seqTimeouts c) (m_seqLastDelay c) l (m_seqRetxCounts c).

Definition set_seqRetxCounts (m : gmap N N) (c : Consumer) : Consumer :=
  mkConsumer (m_active c) (m_seq c) (m_seqMax c) (m_retxNum c) (m_retxTimer c) (m_retxSeqs c)
    (m_seqTimeouts c) (m_seqLastDelay c) (m_seqFullDelay c) m.

Definition set_retxTimer (t : Z) (c : Consumer) : Consumer :=
  mkConsumer (m_active c) (m_seq c) (m_seqMax c) (m_retxNum c) t (m_retxSeqs c)
    (m_seqTimeouts c) (m_seqLastDelay c) (m_seqFullDelay c) (m_seqRetxCounts c).

(** ** Calls into the collaborators *)

Inductive Event : Type :=
  | RttIncreaseMultiplier                      (* m_rtt->IncreaseMultiplier() *)
  | RttSentSeq (s : N) (size : N)              (* m_rtt->SentSeq(seq, size) *)
  | RttSetInterestInfo (s : N) (size : N)      (* m_rtt->SetInterestInfo(name, seq, size) *)
  | RttDiscardInterestBySeq (s : N)            (* m_rtt->DiscardInterestBySeq(seq) *)
  | RttAckSeq (s : N)                          (* m_rtt->AckSeq(name, seq) *)
  | ScheduleNextPacket                         (* the scheduling tick of the subclass *)
  | ScheduleRetx (delay : Z)                   (* Simulator::Schedule(m_retxTimer, CheckRetxTimeout) *)
  | CancelSend                                 (* Simulator::Cancel(m_sendEvent) *)
  | TransmitInterest (s : N)                   (* m_transmittedInterests, m_face->onReceiveInterest *)
  | AppOnData (s : N)                          (* App::OnData(data) *)
  | LastRetransmittedInterestDataDelay (s : N) (delay : Z) (hopCount : Z)
  | FirstInterestDataDelay (s : N) (delay : Z) (retxCount : N) (hopCount : Z).

#[global] Instance Event_eq_dec : EqDecision Event.
Proof. solve_decision. Defined.

(** ** A state monad with an event log *)

Definition M (A : Type) : Type := Consumer → A * Consumer * list Event.

Definition ret {A} (a : A) : M A := λ c, (a, c, []).

Definition bind {A B} (m : M A) (f : A → M B) : M B :=
  λ c, let '(a, c1, e1) := m c in
       let '(b, c2, e2) := f a c1 in
       (b, c2, e1 ++ e2).

Definition gets {A} (f : Consumer → A) : M A := λ c, (f c, c, []).
Definition modify (f : Consumer → Consumer) : M unit := λ c, (tt, f c, []).
Definition emit (e : Event) : M unit := λ c, (tt, c, [e]).

(** State and log after running a handler. *)
Definition exec {A} (m : M A) (c : Consumer) : Consumer * list Event :=
  ((m c).1.2, (m c).2).

#[global] Arguments exec : simpl never.

#[global] Instance M_ret : MRet M := @ret.
#[global] Instance M_bind : MBind M := λ A B f m, bind m f.

(** ** The handlers of [ndn-consumer.cpp] *)

Definition GetRetxNumber : M N := gets m_retxNum.

Definition SetRetxNumber (num : N) : M unit := modify (set_retxNum num).

(** [Consumer::GetRetxTimer] (lines 106-110). *)
Definition GetRetxTimer : M Z := gets m_retxTimer.

(** What [SetRetxTimer] asks of the simulator for the retransmission event. *)
Inductive TimerCall : Type :=
  | SimulatorRemove                    (* Simulator::Remove(m_retxEvent) *)
  | SimulatorSchedule (delay : Z).     (* Simulator::Schedule(m_retxTimer, CheckRetxTimeout) *)

#[global] Instance TimerCall_eq_dec : EqDecision TimerCall.
Proof. solve_decision. Defined.

(** [Consumer::SetRetxTimer] (lines 92-104); [running] is the value of
    [m_retxEvent.IsRunning()] when it is called. *)
Definition SetRetxTimer (running : bool) (retxTimer : Z) (c : Consumer) :
    Consumer * list TimerCall :=
  let c := set_retxTimer retxTimer c in
  (c, (if running then [SimulatorRemove] else []) ++ [SimulatorSchedule (m_retxTimer c)]).

(** [Consumer::WaitBeforeSendOutInterest] (lines 360-377). *)
Definition WaitBeforeSendOutInterest (now : Z) (sequenceNumber : N) : M unit :=
  modify (λ c, set_seqTimeouts
                 (Ledger.insert (mkSeqTimeout sequenceNumber now) (m_seqTimeouts c)) c) ;;
  modify (λ c, set_seqFullDelay
                 (Ledger.insert (mkSeqTimeout sequenceNumber now) (m_seqFullDelay c)) c) ;;
  modify (λ c, set_seqLastDelay (Ledger.erase sequenceNumber (m_seqLastDelay c)) c) ;;
  modify (λ c, set_seqLastDelay
                 (Ledger.insert (mkSeqTimeout sequenceNumber now) (m_seqLastDelay c)) c) ;;
  modify (λ c, set_seqRetxCounts (Counts.incr sequenceNumber (m_seqRetxCounts c)) c) ;;
  emit (RttSetInterestInfo sequenceNumber 1).

(** [Consumer::WillSendOutInterest] (lines 340-356), the variant that
    [SendPacket] no longer calls (line 216). *)
Definition WillSendOutInterest (now : Z) (sequenceNumber : N) : M unit :=
  modify (λ c, set_seqTimeouts
                 (Ledger.insert (mkSeqTimeout sequenceNumber now) (m_seqTimeouts c)) c) ;;
  modify (λ c, set_seqFullDelay
                 (Ledger.insert (mkSeqTimeout sequenceNumber now) (m_seqFullDelay c)) c) ;;
  modify (λ c, set_seqLastDelay (Ledger.erase sequenceNumber (m_seqLastDelay c)) c) ;;
  modify (λ c, set_seqLastDelay
                 (Ledger.insert (mkSeqTimeout sequenceNumber now) (m_seqLastDelay c)) c) ;;
  modify (λ c, set_seqRetxCounts (Counts.incr sequenceNumber (m_seqRetxCounts c)) c) ;;
  emit (RttSentSeq sequenceNumber 1).

(** Which path of lines 173-197 chose the sequence to send. *)
Inductive Selection : Type :=
  | Resend (s : N)      (* taken from [m_retxSeqs] (line 179) *)
  | Mint (s : N)        (* [m_seq++] (line 196) *)
  | Finished.           (* the early [return] of line 193 *)

Definition selected (sel : Selection) : option N :=
  match sel with
  | Resend s | Mint s => Some s
  | Finished => None
  end.

(** The choice of the sequence to send (lines 173-197).  [seq0] is the local
    [seq] after the [while] of line 177, which runs at most one round. *)
Definition SelectSeq : M Selection :=
  retx ← gets m_retxSeqs;
  seq0 ← match RetxSet.begin retx with
          | Some s => (modify (set_retxSeqs (retx ∖ {[s]})) ;; ret s)
          | None => ret uint32_max
          end;
  if decide (seq0 = uint32_max) then
    seqMax ← gets m_seqMax;
    next ← gets m_seq;
    if decide (seqMax ≠ uint32_max ∧ seqMax ≤ next) then ret Finished
    else (modify (set_seq (wrap32 (next + 1))) ;; ret (Mint next))
  else ret (Resend seq0).

(** [Consumer::SendPacket] (lines 164-242). *)
Definition SendPacket (now : Z) : M unit :=
  active ← gets m_active;
  if negb active then ret tt
  else
    sel ← SelectSeq;
    match selected sel with
    | None => ret tt
    | Some s =>
        WaitBeforeSendOutInterest now s ;;
        emit (TransmitInterest s) ;;
        emit ScheduleNextPacket
    end.

(** The erasures that resolve a sequence (lines 289-294). *)
Definition EraseResolved (s : N) (c : Consumer) : Consumer :=
  let c := set_seqRetxCounts (delete s (m_seqRetxCounts c)) c in
  let c := set_seqTimeouts (Ledger.erase s (m_seqTimeouts c)) c in
  let c := set_retxSeqs (m_retxSeqs c ∖ {[s]}) c in
  let c := set_seqFullDelay (Ledger.erase s (m_seqFullDelay c)) c in
  set_seqLastDelay (Ledger.erase s (m_seqLastDelay c)) c.

(** [Consumer::OnData] (lines 248-307).  [name] is the sequence number that
    the last component of the Data name carries, which line 261 narrows to
    the [uint32_t seq]; [tag] is the hop count of the packet tag (0 without
    one), which lines 264-272 keep in the [int hopCount].  The base class is
    handed the packet as it came. *)
Definition OnData (now : Z) (tag : Z) (name : N) : M unit :=
  active ← gets m_active;
  if negb active then ret tt
  else
    emit (AppOnData name) ;;
    let s := wrap32 name in
    let hopCount := to_int tag in
    last ← gets (λ c, Ledger.find s (m_seqLastDelay c));
    match last with
    | Some entry => emit (LastRetransmittedInterestDataDelay s (now - time entry) hopCount)
    | None => ret tt
    end ;;
    full ← gets (λ c, Ledger.find s (m_seqFullDelay c));
    match full with
    | Some entry =>
        modify (λ c, set_seqRetxCounts (Counts.touch s (m_seqRetxCounts c)) c) ;;
        n ← gets (λ c, Counts.get s (m_seqRetxCounts c));
        emit (FirstInterestDataDelay s (now - time entry) n hopCount)
    | None => ret tt
    end ;;
    modify (EraseResolved s) ;;
    emit (RttAckSeq s).

(** [Consumer::OnTimeout] (lines 309-338). *)
Definition OnTimeout (sequenceNumber : N) : M unit :=
  emit RttIncreaseMultiplier ;;
  modify (λ c, set_seqRetxCounts (Counts.touch sequenceNumber (m_seqRetxCounts c)) c) ;;
  n ← gets (λ c, Counts.get sequenceNumber (m_seqRetxCounts c));
  budget ← GetRetxNumber;
  if decide (n < budget) then
    emit (RttSentSeq sequenceNumber 1) ;;
    modify (λ c, set_retxSeqs ({[sequenceNumber]} ∪ m_retxSeqs c) c) ;;
    emit ScheduleNextPacket
  else
    modify (λ c, set_seqRetxCounts (delete sequenceNumber (m_seqRetxCounts c)) c) ;;
    modify (λ c, set_seqFullDelay (Ledger.erase sequenceNumber (m_seqFullDelay c)) c) ;;
    modify (λ c, set_seqLastDelay (Ledger.erase sequenceNumber (m_seqLastDelay c)) c) ;;
    modify (λ c, set_seqTimeouts (Ledger.erase sequenceNumber (m_seqTimeouts c)) c) ;;
    emit (RttDiscardInterestBySeq sequenceNumber).

(** The [while] loop of [Consumer::CheckRetxTimeout] (lines 122-135).  Every
    round erases the first entry of the time index and [OnTimeout] inserts
    none, so the loop ends within [length m_seqTimeouts] rounds: [fuel]
    counts the rounds still allowed, and at [0] the ledger is empty (lemma
    [CheckRetxTimeout_loop_fuel]). *)
Fixpoint CheckRetxTimeout_loop (fuel : nat) (now rto : Z) : M unit :=
  match fuel with
  | O => ret tt
  | S fuel' =>
      l ← gets m_seqTimeouts;
      match l with
      | [] => ret tt
      | entry :: rest =>
          if decide (time entry + rto ≤ now)%Z then
            modify (set_seqTimeouts rest) ;;
            OnTimeout (seq entry) ;;
            CheckRetxTimeout_loop fuel' now rto
          else ret tt
      end
  end.

(** [Consumer::CheckRetxTimeout] (lines 113-138); [rto] is the value of
    [m_rtt->RetransmitTimeout()]. *)
Definition CheckRetxTimeout (now rto : Z) : M unit :=
  n ← gets (λ c, length (m_seqTimeouts c));
  CheckRetxTimeout_loop n now rto ;;
  timer ← gets m_retxTimer;
  emit (ScheduleRetx timer).

(** Modelled from the spec: [App::StartApplication] and
    [App::StopApplication] ([ndn-app.cpp]) are not among the sources; the
    spec has "a boolean active flag set by start/stop lifecycle".  The rest
    is lines 141-162. *)
Definition StartApplication : M unit :=
  modify (set_active true) ;;
  emit ScheduleNextPacket.

Definition StopApplication : M unit :=
  emit CancelSend ;;
  modify (set_active false).

(** ** The event loop *)

(** What the simulator dispatches to the consumer, one at a time. *)
Inductive Input : Type :=
  | Start
  | Stop
  | Tick (now : Z)                       (* the send event fires: SendPacket *)
  | RetxCheck (now rto : Z)              (* the retx event fires: CheckRetxTimeout *)
  | Data (now tag : Z) (name : N).       (* a Data packet arrives: OnData *)

Definition handle (i : Input) : M unit :=
  match i with
  | Start => StartApplication
  | Stop => StopApplication
  | Tick now => SendPacket now
  | RetxCheck now rto => CheckRetxTimeout now rto
  | Data now tag name => OnData now tag name
  end.

(** One dispatched event: the state it found, and the calls it made. *)
Record Step : Type := mkStep { pre : Consumer; input : Input; out : list Event }.

Fixpoint steps (inputs : list Input) (c : Consumer) : list Step :=
  match inputs with
  | [] => []
  | i :: inputs' =>
      let r := exec (handle i) c in
      mkStep c i r.2 :: steps inputs' r.1
  end.

Fixpoint final (inputs : list Input) (c : Consumer) : Consumer :=
  match inputs with
  | [] => c
  | i :: inputs' => final inputs' (exec (handle i) c).1
  end.

Definition log (inputs : list Input) (c : Consumer) : list Event :=
  concat (out <$> steps inputs c).

(** The consumer as constructed (lines 81-90) and configured: no ledger has
    an entry and the application has not started. *)
Definition initial (startSeq seqMax retxNum : N) (retxTimer : Z) : Consumer :=
  mkConsumer false startSeq seqMax retxNum retxTimer ∅ [] [] [] ∅.

(** * Properties *)

(** ** Ledgers *)

Section ledger_facts.
Implicit Types (l : list SeqTimeout) (e : SeqTimeout) (s : N).

Lemma keys_nil : Ledger.keys [] = ∅.
Proof. reflexivity. Qed.

Lemma keys_cons e l : Ledger.keys (e :: l) = {[seq e]} ∪ Ledger.keys l.
Proof. reflexivity. Qed.

Lemma elem_of_keys s l : s ∈ Ledger.keys l ↔ ∃ e, e ∈ l ∧ seq e = s.
Proof.
  unfold Ledger.keys. rewrite elem_of_list_to_set, list_elem_of_fmap.
  naive_solver.
Qed.

Lemma find_None s l : Ledger.find s l = None ↔ s ∉ Ledger.keys l.
Proof.
  induction l as [|e l IH]; simpl.
  - rewrite keys_nil. set_solver.
  - rewrite keys_cons. case_decide; [set_solver|].
    rewrite IH. set_solver.
Qed.

Lemma find_Some s l e : Ledger.find s l = Some e → e ∈ l ∧ seq e = s.
Proof.
  induction l as [|x l IH]; simpl; [done|].
  case_decide.
  - intros [= ->]. split; [left|done].
  - intros [??]%IH. split; [by right|done].
Qed.

Lemma find_is_Some s l : is_Some (Ledger.find s l) ↔ s ∈ Ledger.keys l.
Proof.
  rewrite <- not_eq_None_Some, find_None.
  split; [apply dec_stable|tauto].
Qed.

Lemma keys_erase s l : Ledger.keys (Ledger.erase s l) = Ledger.keys l ∖ {[s]}.
Proof.
  apply set_eq. intros k. rewrite elem_of_difference, !elem_of_keys.
  unfold Ledger.erase. setoid_rewrite list_elem_of_filter.
  rewrite elem_of_singleton. naive_solver.
Qed.

Lemma erase_absent s l : s ∉ Ledger.keys l → Ledger.erase s l = l.
Proof.
  induction l as [|e l IH]; [done|].
  rewrite keys_cons. intros Hs. unfold Ledger.erase in *.
  rewrite filter_cons_True by set_solver. f_equal. apply IH. set_solver.
Qed.

Lemma erase_erase s l : Ledger.erase s (Ledger.erase s l) = Ledger.erase s l.
Proof. apply erase_absent. rewrite keys_erase. set_solver. Qed.

Lemma erase_length s l : (length (Ledger.erase s l) ≤ length l)%nat.
Proof. apply length_filter. Qed.

Lemma elem_of_place e x l : x ∈ Ledger.place e l ↔ x = e ∨ x ∈ l.
Proof.
  induction l as [|y l IH]; simpl.
  - set_solver.
  - case_decide; set_solver.
Qed.

Lemma keys_place e l : Ledger.keys (Ledger.place e l) = {[seq e]} ∪ Ledger.keys l.
Proof.
  induction l as [|y l IH]; simpl; [done|].
  case_decide; rewrite !keys_cons; [rewrite IH|]; set_solver.
Qed.

Lemma keys_insert e l : Ledger.keys (Ledger.insert e l) = {[seq e]} ∪ Ledger.keys l.
Proof.
  unfold Ledger.insert. destruct (Ledger.find (seq e) l) eqn:Hf.
  - assert (seq e ∈ Ledger.keys l) by (apply find_is_Some; eauto). set_solver.
  - apply keys_place.
Qed.

Lemma unique_cons e l :
  Ledger.unique (e :: l) ↔ (seq e ∉ Ledger.keys l) ∧ Ledger.unique l.
Proof.
  unfold Ledger.unique, Ledger.keys. rewrite fmap_cons, NoDup_cons.
  by rewrite elem_of_list_to_set.
Qed.

Lemma unique_erase s l : Ledger.unique l → Ledger.unique (Ledger.erase s l).
Proof.
  induction l as [|e l IH]; [done|].
  rewrite unique_cons. intros [Hn Hu]. unfold Ledger.erase in *.
  destruct (decide (seq e = s)) as [Heq|Hne].
  - rewrite filter_cons_False by tauto. auto.
  - rewrite filter_cons_True by done. apply unique_cons. split; [|auto].
    fold (Ledger.erase s l). rewrite keys_erase. set_solver.
Qed.

Lemma unique_place e l :
  seq e ∉ Ledger.keys l → Ledger.unique l → Ledger.unique (Ledger.place e l).
Proof.
  induction l as [|y l IH]; simpl.
  - intros _ _. apply unique_cons. split; [set_solver|apply NoDup_nil_2].
  - rewrite keys_cons, unique_cons. intros Hn [Hy Hu]. case_decide.
    + apply unique_cons. rewrite keys_place. split; [set_solver|].
      apply IH; [set_solver|done].
    + apply unique_cons. rewrite keys_cons. split; [set_solver|].
      by apply unique_cons.
Qed.

Lemma unique_insert e l : Ledger.unique l → Ledger.unique (Ledger.insert e l).
Proof.
  intros Hu. unfold Ledger.insert. destruct (Ledger.find (seq e) l) eqn:Hf; [done|].
  apply unique_place; [by apply find_None|done].
Qed.

Lemma ascending_erase s l : Ledger.ascending l → Ledger.ascending (Ledger.erase s l).
Proof.
  induction l as [|e l IH]; [done|]. simpl. intros [Hall Hasc].
  unfold Ledger.erase in *. destruct (decide (seq e ≠ s)).
  - rewrite filter_cons_True by done. simpl. split; [|auto].
    apply Forall_forall. intros x [_ Hx]%list_elem_of_filter.
    by eapply Forall_forall in Hall.
  - rewrite filter_cons_False by done. auto.
Qed.

Lemma ascending_place e l : Ledger.ascending l → Ledger.ascending (Ledger.place e l).
Proof.
  induction l as [|y l IH]; simpl; [done|].
  intros [Hall Hasc]. case_decide as Hle; simpl.
  - split; [|auto]. apply Forall_forall. intros x [->|Hx]%elem_of_place; [done|].
    by eapply Forall_forall in Hall.
  - repeat split; [|done..]. constructor; [lia|].
    eapply Forall_impl; [done|]. simpl. intros; lia.
Qed.

Lemma ascending_insert e l : Ledger.ascending l → Ledger.ascending (Ledger.insert e l).
Proof.
  intros Ha. unfold Ledger.insert. destruct (Ledger.find (seq e) l); [done|].
  by apply ascending_place.
Qed.

End ledger_facts.

(** ** The retransmission set and the counters *)

Lemma least_None (l : list N) : RetxSet.least l = None ↔ l = [].
Proof.
  destruct l as [|x l]; simpl; [done|].
  destruct (RetxSet.least l); done.
Qed.

Lemma least_Some (l : list N) (x : N) :
  RetxSet.least l = Some x → x ∈ l ∧ ∀ y, y ∈ l → x ≤ y.
Proof.
  revert x. induction l as [|a l IH]; simpl; [done|]. intros x.
  destruct (RetxSet.least l) as [m|] eqn:Hm.
  - destruct (IH m eq_refl) as [Hin Hle]. intros [= <-]. split.
    + destruct (N.min_spec a m) as [[_ ->]|[_ ->]]; [left|by right].
    + intros y [->|Hy]%elem_of_cons; [lia|].
      specialize (Hle y Hy). lia.
  - apply least_None in Hm as ->. intros [= <-]. split; [left|].
    intros y [->|Hy]%elem_of_cons; [lia|]. by apply elem_of_nil in Hy.
Qed.

Lemma begin_None (X : gset N) : RetxSet.begin X = None ↔ X = ∅.
Proof.
  unfold RetxSet.begin. rewrite least_None. split.
  - intros HX. apply leibniz_equiv. by apply elements_empty_iff.
  - intros ->. apply elements_empty.
Qed.

Lemma begin_Some (X : gset N) (x : N) :
  RetxSet.begin X = Some x → x ∈ X ∧ ∀ y, y ∈ X → x ≤ y.
Proof.
  unfold RetxSet.begin. intros [Hin Hle]%least_Some. split.
  - by apply elem_of_elements.
  - intros y Hy. apply Hle. by apply elem_of_elements.
Qed.

Lemma get_touch (s k : N) (m : gmap N N) :
  Counts.get k (Counts.touch s m) = Counts.get k m.
Proof.
  unfold Counts.touch, Counts.get. destruct (decide (s = k)) as [->|Hne].
  - by rewrite lookup_insert_eq.
  - by rewrite lookup_insert_ne.
Qed.

Lemma dom_touch (s : N) (m : gmap N N) : dom (Counts.touch s m) = {[s]} ∪ dom m.
Proof. unfold Counts.touch. apply dom_insert_L. Qed.

Lemma dom_incr (s : N) (m : gmap N N) : dom (Counts.incr s m) = {[s]} ∪ dom m.
Proof. unfold Counts.incr. apply dom_insert_L. Qed.

Lemma get_incr (s k : N) (m : gmap N N) :
  Counts.get k (Counts.incr s m) =
  if decide (k = s) then wrap32 (Counts.get s m + 1) else Counts.get k m.
Proof.
  unfold Counts.incr. case_decide as Hk.
  - subst k. unfold Counts.get at 1. by rewrite lookup_insert_eq.
  - unfold Counts.get at 1 3. by rewrite lookup_insert_ne.
Qed.

Lemma get_delete (s k : N) (m : gmap N N) :
  Counts.get k (delete s m) = if decide (k = s) then 0 else Counts.get k m.
Proof.
  unfold Counts.get. case_decide as Hk.
  - subst k. by rewrite lookup_delete_eq.
  - by rewrite lookup_delete_ne.
Qed.

Lemma get_absent (s : N) (m : gmap N N) : s ∉ dom m → Counts.get s m = 0.
Proof. intros ?%not_elem_of_dom. unfold Counts.get. by rewrite H. Qed.

(** ** The handlers, one equation per path *)

Ltac unfold_handler :=
  unfold exec, mbind, mret, M_bind, M_ret, bind, ret, gets, modify, emit; simpl.

Lemma exec_bind {A B} (m : M A) (f : A → M B) (c : Consumer) :
  exec (m ≫= f) c =
  ((exec (f (m c).1.1) (exec m c).1).1, (exec m c).2 ++ (exec (f (m c).1.1) (exec m c).1).2).
Proof.
  unfold exec, mbind, M_bind, bind. destruct (m c) as [[a c1] e1]. simpl.
  by destruct (f a c1) as [[b c2] e2].
Qed.

Lemma exec_ret {A} (a : A) (c : Consumer) : exec (mret a) c = (c, []).
Proof. reflexivity. Qed.

Lemma exec_gets_bind {A B} (f : Consumer → A) (k : A → M B) (c : Consumer) :
  exec (gets f ≫= k) c = exec (k (f c)) c.
Proof. rewrite exec_bind. unfold gets, exec. cbn [fst snd app]. done. Qed.

Lemma exec_modify_bind {B} (f : Consumer → Consumer) (k : unit → M B) (c : Consumer) :
  exec (modify f ≫= k) c = exec (k tt) (f c).
Proof. rewrite exec_bind. unfold modify, exec. cbn [fst snd app]. done. Qed.

Lemma exec_emit_bind {B} (e : Event) (k : unit → M B) (c : Consumer) :
  exec (emit e ≫= k) c = ((exec (k tt) c).1, e :: (exec (k tt) c).2).
Proof. rewrite exec_bind. unfold emit, exec. cbn [fst snd app]. done. Qed.

Lemma exec_unit_bind {B} (m : M unit) (k : unit → M B) (c : Consumer) :
  exec (m ≫= k) c =
  ((exec (k tt) (exec m c).1).1, (exec m c).2 ++ (exec (k tt) (exec m c).1).2).
Proof. rewrite exec_bind. by destruct (m c).1.1. Qed.

Lemma WaitBeforeSendOutInterest_exec (now : Z) (s : N) (c : Consumer) :
  exec (WaitBeforeSendOutInterest now s) c =
  (set_seqRetxCounts (Counts.incr s (m_seqRetxCounts c))
     (set_seqLastDelay
        (Ledger.insert (mkSeqTimeout s now) (Ledger.erase s (m_seqLastDelay c)))
        (set_seqFullDelay (Ledger.insert (mkSeqTimeout s now) (m_seqFullDelay c))
           (set_seqTimeouts (Ledger.insert (mkSeqTimeout s now) (m_seqTimeouts c)) c))),
   [RttSetInterestInfo s 1]).
Proof. reflexivity. Qed.

Lemma OnTimeout_retry (s : N) (c : Consumer) :
  Counts.get s (m_seqRetxCounts c) < m_retxNum c →
  exec (OnTimeout s) c =
  (set_retxSeqs ({[s]} ∪ m_retxSeqs c)
     (set_seqRetxCounts (Counts.touch s (m_seqRetxCounts c)) c),
   [RttIncreaseMultiplier; RttSentSeq s 1; ScheduleNextPacket]).
Proof.
  intros Hlt. unfold OnTimeout, GetRetxNumber. unfold_handler.
  rewrite get_touch. by rewrite decide_True.
Qed.

Lemma OnTimeout_discard (s : N) (c : Consumer) :
  ¬ Counts.get s (m_seqRetxCounts c) < m_retxNum c →
  exec (OnTimeout s) c =
  (set_seqTimeouts (Ledger.erase s (m_seqTimeouts c))
     (set_seqLastDelay (Ledger.erase s (m_seqLastDelay c))
        (set_seqFullDelay (Ledger.erase s (m_seqFullDelay c))
           (set_seqRetxCounts (delete s (Counts.touch s (m_seqRetxCounts c))) c))),
   [RttIncreaseMultiplier; RttDiscardInterestBySeq s]).
Proof.
  intros Hge. unfold OnTimeout, GetRetxNumber. unfold_handler.
  rewrite get_touch. by rewrite decide_False.
Qed.

(** The retransmission set after the [while] of line 177. *)
Definition popped (c : Consumer) : Consumer :=
  match RetxSet.begin (m_retxSeqs c) with
  | Some s => set_retxSeqs (m_retxSeqs c ∖ {[s]}) c
  | None => c
  end.

Lemma SelectSeq_resend (s : N) (c : Consumer) :
  RetxSet.begin (m_retxSeqs c) = Some s → s ≠ uint32_max →
  SelectSeq c = (Resend s, popped c, []).
Proof.
  intros Hb Hs. unfold SelectSeq, popped. unfold_handler. rewrite Hb. simpl.
  by rewrite decide_False.
Qed.

(** Nothing to resend: the set is empty, or its first element is the value
    that line 173 uses for "no sequence". *)
Definition nothing_pending (c : Consumer) : Prop :=
  RetxSet.begin (m_retxSeqs c) = None ∨ RetxSet.begin (m_retxSeqs c) = Some uint32_max.

Lemma SelectSeq_finished (c : Consumer) :
  nothing_pending c → m_seqMax c ≠ uint32_max → m_seqMax c ≤ m_seq c →
  SelectSeq c = (Finished, popped c, []).
Proof.
  intros [Hb|Hb] Hmax Hle; unfold SelectSeq, popped; unfold_handler;
    rewrite Hb; simpl; by rewrite decide_True.
Qed.

Lemma SelectSeq_mint (c : Consumer) :
  nothing_pending c → (m_seqMax c = uint32_max ∨ m_seq c < m_seqMax c) →
  SelectSeq c = (Mint (m_seq c), set_seq (wrap32 (m_seq c + 1)) (popped c), []).
Proof.
  intros [Hb|Hb] Hmax; unfold SelectSeq, popped; unfold_handler;
    rewrite Hb; simpl; rewrite decide_False by lia; done.
Qed.

Lemma SelectSeq_cases (c : Consumer) :
  (∃ s, RetxSet.begin (m_retxSeqs c) = Some s ∧ s ≠ uint32_max ∧
        SelectSeq c = (Resend s, popped c, [])) ∨
  (nothing_pending c ∧ m_seqMax c ≠ uint32_max ∧ m_seqMax c ≤ m_seq c ∧
   SelectSeq c = (Finished, popped c, [])) ∨
  (nothing_pending c ∧ (m_seqMax c = uint32_max ∨ m_seq c < m_seqMax c) ∧
   SelectSeq c = (Mint (m_seq c), set_seq (wrap32 (m_seq c + 1)) (popped c), [])).
Proof.
  assert (nothing_pending c →
          (m_seqMax c ≠ uint32_max ∧ m_seqMax c ≤ m_seq c) ∨
          (m_seqMax c = uint32_max ∨ m_seq c < m_seqMax c)) as Hsplit.
  { intros _. destruct (decide (m_seqMax c = uint32_max)); [by right; left|].
    destruct (decide (m_seqMax c ≤ m_seq c)); [by left|right; right; lia]. }
  destruct (RetxSet.begin (m_retxSeqs c)) as [s|] eqn:Hb.
  - destruct (decide (s = uint32_max)) as [->|Hs].
    + assert (nothing_pending c) as Hn by (by right).
      destruct (Hsplit Hn) as [[??]|?]; [right; left|right; right];
        eauto using SelectSeq_finished, SelectSeq_mint.
    + left. exists s. eauto using SelectSeq_resend.
  - assert (nothing_pending c) as Hn by (by left).
    destruct (Hsplit Hn) as [[??]|?]; [right; left|right; right];
      eauto 6 using SelectSeq_finished, SelectSeq_mint.
Qed.

#[local] Arguments SelectSeq : simpl never.
#[local] Arguments WaitBeforeSendOutInterest : simpl never.
#[local] Arguments OnTimeout : simpl never.

Lemma SendPacket_inactive (now : Z) (c : Consumer) :
  m_active c = false → exec (SendPacket now) c = (c, []).
Proof. intros Ha. unfold SendPacket. unfold_handler. by rewrite Ha. Qed.

Lemma SendPacket_active (now : Z) (c : Consumer) :
  m_active c = true →
  exec (SendPacket now) c =
  match selected (SelectSeq c).1.1 with
  | None => ((SelectSeq c).1.2, (SelectSeq c).2)
  | Some s =>
      ((exec (WaitBeforeSendOutInterest now s) (SelectSeq c).1.2).1,
       (SelectSeq c).2 ++ [RttSetInterestInfo s 1; TransmitInterest s; ScheduleNextPacket])
  end.
Proof.
  intros Ha. unfold SendPacket. unfold_handler. rewrite Ha. simpl.
  destruct (SelectSeq c) as [[sel c1] e1]. simpl.
  destruct (selected sel); simpl; [done|by rewrite app_nil_r].
Qed.

(** The delay observations of lines 277-286. *)
Definition delay_metrics (now hopCount : Z) (s : N) (c : Consumer) : list Event :=
  match Ledger.find s (m_seqLastDelay c) with
  | Some entry => [LastRetransmittedInterestDataDelay s (now - time entry) hopCount]
  | None => []
  end ++
  match Ledger.find s (m_seqFullDelay c) with
  | Some entry =>
      [FirstInterestDataDelay s (now - time entry) (Counts.get s (m_seqRetxCounts c)) hopCount]
  | None => []
  end.

Lemma OnData_inactive (now tag : Z) (name : N) (c : Consumer) :
  m_active c = false → exec (OnData now tag name) c = (c, []).
Proof. intros Ha. unfold OnData. unfold_handler. by rewrite Ha. Qed.

Lemma EraseResolved_touch (s : N) (c : Consumer) :
  EraseResolved s (set_seqRetxCounts (Counts.touch s (m_seqRetxCounts c)) c) =
  EraseResolved s c.
Proof.
  unfold EraseResolved, set_seqRetxCounts, Counts.touch; simpl.
  by rewrite delete_insert_eq.
Qed.

Lemma OnData_active (now tag : Z) (name : N) (c : Consumer) :
  m_active c = true →
  exec (OnData now tag name) c =
  (EraseResolved (wrap32 name) c,
   AppOnData name :: delay_metrics now (to_int tag) (wrap32 name) c
     ++ [RttAckSeq (wrap32 name)]).
Proof.
  intros Ha. unfold OnData, delay_metrics. cbv zeta.
  generalize (wrap32 name) (to_int tag). intros s hopCount.
  unfold_handler. rewrite Ha. simpl.
  destruct (Ledger.find s (m_seqLastDelay c)) as [e1|];
    destruct (Ledger.find s (m_seqFullDelay c)) as [e2|]; simpl;
    rewrite ?get_touch; try done.
  all: f_equal; apply (EraseResolved_touch s c).
Qed.

(** A sequence that no ledger knows. *)
Definition absent (s : N) (c : Consumer) : Prop :=
  (s ∉ dom (m_seqRetxCounts c)) ∧ (s ∉ Ledger.keys (m_seqTimeouts c)) ∧
  (s ∉ m_retxSeqs c) ∧ (s ∉ Ledger.keys (m_seqFullDelay c)) ∧
  (s ∉ Ledger.keys (m_seqLastDelay c)).

#[global] Instance absent_dec s c : Decision (absent s c).
Proof. unfold absent. apply _. Defined.

Lemma EraseResolved_absent (s : N) (c : Consumer) : absent s (EraseResolved s c).
Proof.
  unfold absent, EraseResolved; simpl.
  rewrite dom_delete_L, !keys_erase. set_solver.
Qed.

Lemma EraseResolved_id (s : N) (c : Consumer) : absent s c → EraseResolved s c = c.
Proof.
  intros (Hc & Ht & Hr & Hf & Hl). destruct c; simpl in *.
  unfold EraseResolved, set_seqRetxCounts, set_seqTimeouts, set_retxSeqs,
    set_seqFullDelay, set_seqLastDelay; simpl.
  rewrite !erase_absent by done.
  rewrite delete_id by (by apply not_elem_of_dom).
  f_equal. set_solver.
Qed.

(** ** C7: resolution is idempotent *)

(** C7.  Erasing a sequence from all ledgers (lines 289-294) a second time
    changes nothing, and erasing a sequence that no ledger knows leaves the
    consumer as it was; the erasure is a total function, so no error arises. *)
Theorem EraseResolved_idempotent (s : N) (c : Consumer) :
  EraseResolved s (EraseResolved s c) = EraseResolved s c ∧
  (absent s c → EraseResolved s c = c).
Proof.
  split; [|apply EraseResolved_id].
  apply EraseResolved_id, EraseResolved_absent.
Qed.

Lemma EraseResolved_idempotent_witness :
  let c := final [Start; Tick 0; Tick 1; Tick 2; RetxCheck 100 99] (initial 0 5 3 50) in
  Ledger.keys (m_seqFullDelay c) = {[0; 1; 2]} ∧ m_retxSeqs c = {[0; 1]} ∧
  absent 7 c ∧ EraseResolved 7 c = c ∧
  EraseResolved 1 c ≠ c ∧ absent 1 (EraseResolved 1 c) ∧
  EraseResolved 1 (EraseResolved 1 c) = EraseResolved 1 c ∧
  Ledger.keys (m_seqFullDelay (EraseResolved 1 c)) = {[0; 2]}.
Proof.
  set (c := final [Start; Tick 0; Tick 1; Tick 2; RetxCheck 100 99] (initial 0 5 3 50)).
  cbv zeta.
  assert (absent 7 c) as H7 by (apply (bool_decide_unpack _); vm_compute; reflexivity).
  assert (absent 1 (EraseResolved 1 c)) as H1
    by (apply (bool_decide_unpack _); vm_compute; reflexivity).
  assert (EraseResolved 1 c ≠ c) as Hne.
  { intros Heq.
    apply (f_equal (λ c', bool_decide (1 ∈ Ledger.keys (m_seqFullDelay c')))) in Heq.
    vm_compute in Heq. discriminate. }
  split_and!.
  - apply (bool_decide_unpack _). vm_compute. reflexivity.
  - apply (bool_decide_unpack _). vm_compute. reflexivity.
  - exact H7.
  - exact (proj2 (EraseResolved_idempotent 7 c) H7).
  - exact Hne.
  - exact H1.
  - exact (proj2 (EraseResolved_idempotent 1 (EraseResolved 1 c)) H1).
  - apply (bool_decide_unpack _). vm_compute. reflexivity.
Defined.

(** ** C6: a Data packet for an unknown sequence *)

Definition is_delay_metric (e : Event) : bool :=
  match e with
  | LastRetransmittedInterestDataDelay _ _ _ | FirstInterestDataDelay _ _ _ _ => true
  | _ => false
  end.

(** C6.  When no ledger has an entry for the sequence of an arriving Data
    packet (the 32-bit number that line 261 reads from its name), [OnData]
    leaves every member of the consumer as it was and fires neither delay
    trace; the calls it still makes are the base-class [App::OnData] and the
    estimator's [AckSeq] (nothing at all when the application is stopped). *)
Theorem OnData_unknown (now tag : Z) (name : N) (c : Consumer) :
  let s := wrap32 name in
  absent s c →
  (exec (OnData now tag name) c).1 = c ∧
  filter is_delay_metric (exec (OnData now tag name) c).2 = [] ∧
  (exec (OnData now tag name) c).2 =
    if m_active c then [AppOnData name; RttAckSeq s] else [].
Proof.
  cbv zeta. intros Habs. destruct (m_active c) eqn:Ha.
  - rewrite OnData_active by done. simpl.
    pose proof Habs as (_ & _ & _ & Hf & Hl). unfold delay_metrics.
    apply find_None in Hf, Hl. rewrite Hf, Hl. simpl.
    split; [|done]. by apply EraseResolved_id.
  - by rewrite OnData_inactive.
Qed.

Lemma OnData_unknown_witness :
  let c := final [Start; Tick 0; Tick 1] (initial 0 5 3 50) in
  absent 9 c ∧ (exec (OnData 10 0 9) c).1 = c ∧
  (exec (OnData 10 0 4294967305) c).2 = [AppOnData 4294967305; RttAckSeq 9].
Proof.
  set (c := final [Start; Tick 0; Tick 1] (initial 0 5 3 50)). simpl.
  assert (absent 9 c) as H by (apply (bool_decide_unpack _); vm_compute; reflexivity).
  split; [exact H|]. split.
  - exact (proj1 (OnData_unknown 10 0 9 c H)).
  - exact (proj2 (proj2 (OnData_unknown 10 0 4294967305 c H))).
Defined.

(** ** C3: the timeout handler *)

(** C3.  [OnTimeout] first calls the estimator's [IncreaseMultiplier].  With
    the counter of the sequence below the budget it then calls [SentSeq],
    puts the sequence into the retransmission set and asks for a scheduling
    tick, and no ledger entry changes.  Otherwise it erases the sequence from
    the counters and from the first-send, last-send and timeout ledgers and
    calls [DiscardInterestBySeq]; nothing is queued for resending and no tick
    is asked for. *)
Theorem OnTimeout_spec (s : N) (c : Consumer) :
  let r := exec (OnTimeout s) c in
  head r.2 = Some RttIncreaseMultiplier ∧
  (Counts.get s (m_seqRetxCounts c) < m_retxNum c →
     r.2 = [RttIncreaseMultiplier; RttSentSeq s 1; ScheduleNextPacket] ∧
     m_retxSeqs r.1 = {[s]} ∪ m_retxSeqs c ∧
     m_seqTimeouts r.1 = m_seqTimeouts c ∧
     m_seqFullDelay r.1 = m_seqFullDelay c ∧
     m_seqLastDelay r.1 = m_seqLastDelay c ∧
     (∀ k, Counts.get k (m_seqRetxCounts r.1) = Counts.get k (m_seqRetxCounts c))) ∧
  (¬ Counts.get s (m_seqRetxCounts c) < m_retxNum c →
     r.2 = [RttIncreaseMultiplier; RttDiscardInterestBySeq s] ∧
     (s ∉ dom (m_seqRetxCounts r.1)) ∧
     m_seqFullDelay r.1 = Ledger.erase s (m_seqFullDelay c) ∧
     m_seqLastDelay r.1 = Ledger.erase s (m_seqLastDelay c) ∧
     m_seqTimeouts r.1 = Ledger.erase s (m_seqTimeouts c) ∧
     (s ∉ Ledger.keys (m_seqFullDelay r.1)) ∧
     (s ∉ Ledger.keys (m_seqLastDelay r.1)) ∧
     (s ∉ Ledger.keys (m_seqTimeouts r.1)) ∧
     (∀ k, k ≠ s → m_seqRetxCounts r.1 !! k = m_seqRetxCounts c !! k) ∧
     m_retxSeqs r.1 = m_retxSeqs c).
Proof.
  cbv zeta. split; [|split].
  - destruct (decide (Counts.get s (m_seqRetxCounts c) < m_retxNum c)).
    + by rewrite OnTimeout_retry.
    + by rewrite OnTimeout_discard.
  - intros Hlt. rewrite OnTimeout_retry by done. simpl.
    repeat split. intros k. apply get_touch.
  - intros Hge. rewrite OnTimeout_discard by done. simpl.
    rewrite !keys_erase, dom_delete_L.
    repeat split; try set_solver.
    intros k Hk. unfold Counts.touch.
    rewrite lookup_delete_ne by done. by rewrite lookup_insert_ne.
Qed.

Lemma OnTimeout_spec_witness :
  let c := final [Start; Tick 0] (initial 0 5 3 50) in
  Counts.get 0 (m_seqRetxCounts c) < m_retxNum c ∧
  m_retxSeqs (exec (OnTimeout 0) c).1 = {[0]} ∪ m_retxSeqs c.
Proof.
  set (c := final [Start; Tick 0] (initial 0 5 3 50)). simpl.
  assert (Counts.get 0 (m_seqRetxCounts c) < m_retxNum c) as H
    by (vm_compute; reflexivity).
  split; [exact H|].
  exact (proj1 (proj2 (proj1 (proj2 (OnTimeout_spec 0 c)) H))).
Defined.

(** ** C5: the choice of the sequence to send *)

(** What [SendPacket] does when the first pending retransmission is an
    ordinary sequence number, or when nothing is pending. *)
Lemma SendPacket_spec (now : Z) (c : Consumer) :
  let r := exec (SendPacket now) c in
  (m_active c = false → r = (c, [])) ∧
  (m_active c = true →
   ∀ s, RetxSet.begin (m_retxSeqs c) = Some s → s ≠ uint32_max →
     (∀ k, k ∈ m_retxSeqs c → s ≤ k) ∧
     m_retxSeqs r.1 = m_retxSeqs c ∖ {[s]} ∧ m_seq r.1 = m_seq c ∧
     r.2 = [RttSetInterestInfo s 1; TransmitInterest s; ScheduleNextPacket]) ∧
  (m_active c = true → m_retxSeqs c = ∅ →
   m_seqMax c ≠ uint32_max → m_seqMax c ≤ m_seq c → r = (c, [])) ∧
  (m_active c = true → m_retxSeqs c = ∅ →
   m_seqMax c = uint32_max ∨ m_seq c < m_seqMax c →
     m_seq r.1 = wrap32 (m_seq c + 1) ∧ m_retxSeqs r.1 = ∅ ∧
     r.2 = [RttSetInterestInfo (m_seq c) 1; TransmitInterest (m_seq c);
            ScheduleNextPacket]).
Proof.
  cbv zeta. split; [apply SendPacket_inactive|]. split; [|split].
  - intros Ha s Hb Hs. rewrite SendPacket_active by done.
    rewrite (SelectSeq_resend s) by done. simpl.
    unfold popped. rewrite Hb. simpl. split; [|done].
    by apply begin_Some.
  - intros Ha He Hmax Hle. rewrite SendPacket_active by done.
    assert (popped c = c) as Hp.
    { unfold popped. apply begin_None in He. by rewrite He. }
    rewrite SelectSeq_finished; [simpl; by rewrite Hp|left; by apply begin_None|done..].
  - intros Ha He Hmax. rewrite SendPacket_active by done.
    assert (popped c = c) as Hp.
    { unfold popped. apply begin_None in He. by rewrite He. }
    rewrite SelectSeq_mint; [simpl; by rewrite Hp|left; by apply begin_None|done].
Qed.

(** The consumer after sequence [2^32 - 1] was sent once and has timed out:
    started with [StartSeq = -1] (stored into the [uint32_t m_seq]) and no
    sequence limit. *)
Definition sentinel_pending : Consumer :=
  final [Start; Tick 0; RetxCheck 100 10] (initial uint32_max uint32_max 3 50).

(** C5.  With [2^32 - 1] as the only pending retransmission, [SendPacket]
    takes it out of the retransmission set, but line 187 reads it as "no
    sequence": the Interest that goes out is a fresh one, for sequence [0],
    and [2^32 - 1] is never sent again although its counter and its
    first-send and last-send entries stay. *)
Theorem SendPacket_drops_sentinel :
  m_active sentinel_pending = true ∧
  m_retxSeqs sentinel_pending = {[uint32_max]} ∧
  RetxSet.begin (m_retxSeqs sentinel_pending) = Some uint32_max ∧
  (exec (SendPacket 100) sentinel_pending).2 =
    [RttSetInterestInfo 0 1; TransmitInterest 0; ScheduleNextPacket] ∧
  m_retxSeqs (exec (SendPacket 100) sentinel_pending).1 = ∅ ∧
  m_seqRetxCounts (exec (SendPacket 100) sentinel_pending).1 !! uint32_max = Some 1 ∧
  (uint32_max ∈ Ledger.keys (m_seqFullDelay (exec (SendPacket 100) sentinel_pending).1)) ∧
  (uint32_max ∉ Ledger.keys (m_seqTimeouts (exec (SendPacket 100) sentinel_pending).1)).
Proof.
  repeat split; try (vm_compute; reflexivity).
  all: apply (bool_decide_unpack _); vm_compute; reflexivity.
Qed.

(** ** C4: the timeout scan *)

(** The entries that the loop of [CheckRetxTimeout] takes from the front of
    the time index, and those it leaves. *)
Fixpoint due (now rto : Z) (l : list SeqTimeout) : list SeqTimeout :=
  match l with
  | [] => []
  | e :: l' => if decide (time e + rto ≤ now)%Z then e :: due now rto l' else []
  end.

Fixpoint not_due (now rto : Z) (l : list SeqTimeout) : list SeqTimeout :=
  match l with
  | [] => []
  | e :: l' => if decide (time e + rto ≤ now)%Z then not_due now rto l' else l
  end.

(** [OnTimeout] for each sequence of a list, in order. *)
Fixpoint OnTimeouts (l : list N) : M unit :=
  match l with
  | [] => ret tt
  | s :: l' => OnTimeout s ;; OnTimeouts l'
  end.

Lemma due_not_due (now rto : Z) (l : list SeqTimeout) :
  l = due now rto l ++ not_due now rto l.
Proof.
  induction l as [|e l IH]; simpl; [done|].
  case_decide; simpl; [by f_equal|done].
Qed.

Lemma filter_all {A} (P : A → Prop) `{∀ x, Decision (P x)} (l : list A) :
  Forall P l → filter P l = l.
Proof.
  induction 1 as [|x l Hx _ IH]; [done|].
  rewrite filter_cons_True by done. by f_equal.
Qed.

Lemma filter_none {A} (P : A → Prop) `{∀ x, Decision (P x)} (l : list A) :
  Forall (λ x, ¬ P x) l → filter P l = [].
Proof.
  induction 1 as [|x l Hx _ IH]; [done|].
  by rewrite filter_cons_False.
Qed.

Lemma due_ascending (now rto : Z) (l : list SeqTimeout) :
  Ledger.ascending l →
  due now rto l = filter (λ e, (rto ≤ now - time e)%Z) l ∧
  not_due now rto l = filter (λ e, (now - time e < rto)%Z) l.
Proof.
  induction l as [|e l IH]; simpl; [done|]. intros [Hall Hasc].
  destruct (IH Hasc) as [IH1 IH2]. case_decide as Hd.
  - rewrite filter_cons_True by lia. rewrite filter_cons_False by lia.
    by rewrite IH1, IH2.
  - rewrite filter_cons_False by lia. rewrite filter_cons_True by lia.
    rewrite filter_none, filter_all; [done|..].
    + eapply Forall_impl; [exact Hall|]. simpl. intros; lia.
    + eapply Forall_impl; [exact Hall|]. simpl. intros; lia.
Qed.

Lemma keys_not_due (now rto : Z) (l : list SeqTimeout) :
  Ledger.keys (not_due now rto l) ⊆ Ledger.keys l.
Proof.
  induction l as [|e l IH]; simpl; [done|].
  case_decide; [rewrite keys_cons; set_solver|done].
Qed.

Lemma unique_not_due (now rto : Z) (l : list SeqTimeout) :
  Ledger.unique l → Ledger.unique (not_due now rto l).
Proof.
  induction l as [|e l IH]; simpl; [done|].
  case_decide; [|done]. intros [_ ?]%unique_cons. auto.
Qed.

(** [OnTimeout] reads and writes the timeout ledger only to erase its
    sequence, so over a ledger without that sequence it does not matter
    which ledger is in place. *)
Lemma OnTimeout_set_seqTimeouts (s : N) (l1 l2 : list SeqTimeout) (c : Consumer) :
  s ∉ Ledger.keys l1 → s ∉ Ledger.keys l2 →
  exec (OnTimeout s) (set_seqTimeouts l2 c) =
  (set_seqTimeouts l2 (exec (OnTimeout s) (set_seqTimeouts l1 c)).1,
   (exec (OnTimeout s) (set_seqTimeouts l1 c)).2).
Proof.
  intros H1 H2.
  destruct (decide (Counts.get s (m_seqRetxCounts c) < m_retxNum c)) as [Hlt|Hge].
  - by rewrite !OnTimeout_retry by done.
  - rewrite !OnTimeout_discard by done. simpl.
    unfold set_seqTimeouts; simpl. by rewrite !erase_absent by done.
Qed.

Lemma OnTimeout_seqTimeouts (s : N) (c : Consumer) :
  s ∉ Ledger.keys (m_seqTimeouts c) →
  m_seqTimeouts (exec (OnTimeout s) c).1 = m_seqTimeouts c.
Proof.
  intros Hs.
  destruct (decide (Counts.get s (m_seqRetxCounts c) < m_retxNum c)) as [Hlt|Hge].
  - by rewrite OnTimeout_retry.
  - rewrite OnTimeout_discard by done. simpl. by apply erase_absent.
Qed.

Lemma OnTimeout_retxTimer (s : N) (c : Consumer) :
  m_retxTimer (exec (OnTimeout s) c).1 = m_retxTimer c.
Proof.
  destruct (decide (Counts.get s (m_seqRetxCounts c) < m_retxNum c)) as [Hlt|Hge].
  - by rewrite OnTimeout_retry.
  - by rewrite OnTimeout_discard.
Qed.

Lemma OnTimeouts_cons (s : N) (l : list N) (c : Consumer) :
  exec (OnTimeouts (s :: l)) c =
  ((exec (OnTimeouts l) (exec (OnTimeout s) c).1).1,
   (exec (OnTimeout s) c).2 ++ (exec (OnTimeouts l) (exec (OnTimeout s) c).1).2).
Proof. simpl. by rewrite exec_bind. Qed.

Lemma OnTimeouts_set_seqTimeouts (l : list N) (l1 l2 : list SeqTimeout) (c : Consumer) :
  (∀ s, s ∈ l → (s ∉ Ledger.keys l1) ∧ (s ∉ Ledger.keys l2)) →
  exec (OnTimeouts l) (set_seqTimeouts l2 c) =
  (set_seqTimeouts l2 (exec (OnTimeouts l) (set_seqTimeouts l1 c)).1,
   (exec (OnTimeouts l) (set_seqTimeouts l1 c)).2).
Proof.
  revert c. induction l as [|s l IH]; intros c Hl; [done|].
  rewrite !OnTimeouts_cons.
  destruct (Hl s) as [H1 H2]; [left|].
  rewrite (OnTimeout_set_seqTimeouts s l1 l2) by done. cbn [fst snd].
  set (c1 := (exec (OnTimeout s) (set_seqTimeouts l1 c)).1).
  assert (c1 = set_seqTimeouts l1 c1) as Hc1.
  { assert (m_seqTimeouts c1 = l1) as Ht.
    { unfold c1. by rewrite OnTimeout_seqTimeouts. }
    destruct c1; simpl in *. by rewrite Ht. }
  rewrite IH by (intros; apply Hl; by right).
  by rewrite <- Hc1.
Qed.

Lemma CheckRetxTimeout_loop_O (now rto : Z) (c : Consumer) :
  exec (CheckRetxTimeout_loop 0 now rto) c = (c, []).
Proof. reflexivity. Qed.

Lemma CheckRetxTimeout_loop_S (fuel : nat) (now rto : Z) (c : Consumer) :
  exec (CheckRetxTimeout_loop (S fuel) now rto) c =
  match m_seqTimeouts c with
  | [] => (c, [])
  | entry :: rest =>
      if decide (time entry + rto ≤ now)%Z then
        let r1 := exec (OnTimeout (seq entry)) (set_seqTimeouts rest c) in
        let r2 := exec (CheckRetxTimeout_loop fuel now rto) r1.1 in
        (r2.1, r1.2 ++ r2.2)
      else (c, [])
  end.
Proof.
  cbn [CheckRetxTimeout_loop]. rewrite exec_gets_bind.
  destruct (m_seqTimeouts c) as [|entry rest]; [done|].
  case_decide; [|done].
  by rewrite exec_modify_bind, exec_unit_bind.
Qed.

Lemma OnTimeout_seqTimeouts_length (s : N) (c : Consumer) :
  (length (m_seqTimeouts (exec (OnTimeout s) c).1) ≤ length (m_seqTimeouts c))%nat.
Proof.
  destruct (decide (Counts.get s (m_seqRetxCounts c) < m_retxNum c)) as [Hlt|Hge].
  - by rewrite OnTimeout_retry.
  - rewrite OnTimeout_discard by done. apply erase_length.
Qed.

(** The loop needs no more rounds than the ledger has entries: any larger
    allowance gives the same run. *)
Lemma CheckRetxTimeout_loop_fuel (f1 f2 : nat) (now rto : Z) (c : Consumer) :
  (length (m_seqTimeouts c) ≤ f1)%nat → (length (m_seqTimeouts c) ≤ f2)%nat →
  exec (CheckRetxTimeout_loop f1 now rto) c = exec (CheckRetxTimeout_loop f2 now rto) c.
Proof.
  revert f2 c. induction f1 as [|f1 IH]; intros f2 c H1 H2.
  - destruct (m_seqTimeouts c) as [|e l] eqn:Ht; [|simpl in H1; lia].
    destruct f2; [done|]. by rewrite CheckRetxTimeout_loop_S, Ht.
  - destruct f2 as [|f2].
    + destruct (m_seqTimeouts c) as [|e l] eqn:Ht; [|simpl in H2; lia].
      by rewrite CheckRetxTimeout_loop_S, Ht.
    + rewrite !CheckRetxTimeout_loop_S.
      destruct (m_seqTimeouts c) as [|e l] eqn:Ht; [done|].
      case_decide; [|done]. cbv zeta. simpl in H1, H2.
      pose proof (OnTimeout_seqTimeouts_length (seq e) (set_seqTimeouts l c)) as Hlen.
      change (m_seqTimeouts (set_seqTimeouts l c)) with l in Hlen.
      by rewrite (IH f2) by lia.
Qed.

Lemma set_seqTimeouts_id (c : Consumer) : set_seqTimeouts (m_seqTimeouts c) c = c.
Proof. by destruct c. Qed.

(** The loop runs [OnTimeout] for the entries at the front of the time index
    that are due, in order, and leaves the ledger with the others. *)
Lemma CheckRetxTimeout_loop_exec (fuel : nat) (now rto : Z) (c : Consumer) :
  Ledger.unique (m_seqTimeouts c) → (length (m_seqTimeouts c) ≤ fuel)%nat →
  exec (CheckRetxTimeout_loop fuel now rto) c =
  exec (OnTimeouts (seq <$> due now rto (m_seqTimeouts c)))
       (set_seqTimeouts (not_due now rto (m_seqTimeouts c)) c).
Proof.
  revert c. induction fuel as [|fuel IH]; intros c Hu Hlen.
  - destruct (m_seqTimeouts c) as [|e l] eqn:Ht; [|simpl in Hlen; lia].
    simpl. rewrite <- Ht. by rewrite set_seqTimeouts_id.
  - rewrite CheckRetxTimeout_loop_S.
    destruct (m_seqTimeouts c) as [|e l] eqn:Ht.
    { simpl. rewrite <- Ht. by rewrite set_seqTimeouts_id. }
    simpl in Hlen. apply unique_cons in Hu as [He Hu]. cbn [due not_due].
    case_decide as Hd.
    + rewrite fmap_cons, OnTimeouts_cons.
      assert (seq e ∉ Ledger.keys (not_due now rto l)) as He'.
      { pose proof (keys_not_due now rto l). set_solver. }
      rewrite (OnTimeout_set_seqTimeouts (seq e) l (not_due now rto l)) by done.
      cbn [fst snd].
      set (c1 := (exec (OnTimeout (seq e)) (set_seqTimeouts l c)).1).
      assert (m_seqTimeouts c1 = l) as Hc1.
      { unfold c1. by rewrite OnTimeout_seqTimeouts. }
      rewrite IH by (rewrite Hc1; first [done|lia]). by rewrite Hc1.
    + rewrite <- Ht. by rewrite set_seqTimeouts_id.
Qed.

Lemma OnTimeouts_retxTimer (l : list N) (c : Consumer) :
  m_retxTimer (exec (OnTimeouts l) c).1 = m_retxTimer c.
Proof.
  revert c. induction l as [|s l IH]; intros c; [done|].
  rewrite OnTimeouts_cons. cbn [fst snd]. by rewrite IH, OnTimeout_retxTimer.
Qed.

Lemma CheckRetxTimeout_exec (now rto : Z) (c : Consumer) :
  Ledger.unique (m_seqTimeouts c) →
  exec (CheckRetxTimeout now rto) c =
  let r := exec (OnTimeouts (seq <$> due now rto (m_seqTimeouts c)))
                (set_seqTimeouts (not_due now rto (m_seqTimeouts c)) c) in
  (r.1, r.2 ++ [ScheduleRetx (m_retxTimer c)]).
Proof.
  intros Hu. unfold CheckRetxTimeout.
  rewrite exec_gets_bind, exec_unit_bind, exec_gets_bind.
  rewrite CheckRetxTimeout_loop_exec by done.
  cbv zeta. unfold emit at 1 2. unfold exec at 1 3. cbn [fst snd].
  by rewrite OnTimeouts_retxTimer.
Qed.

(** The sequences for which a log shows a run of [OnTimeout]: each run makes
    exactly one of the calls [SentSeq] and [DiscardInterestBySeq]. *)
Fixpoint timed_out (evs : list Event) : list N :=
  match evs with
  | [] => []
  | RttSentSeq s _ :: evs' | RttDiscardInterestBySeq s :: evs' => s :: timed_out evs'
  | _ :: evs' => timed_out evs'
  end.

Lemma timed_out_app (l1 l2 : list Event) :
  timed_out (l1 ++ l2) = timed_out l1 ++ timed_out l2.
Proof.
  induction l1 as [|e l1 IH]; [done|].
  destruct e; simpl; by rewrite ?IH.
Qed.

Lemma timed_out_OnTimeout (s : N) (c : Consumer) :
  timed_out (exec (OnTimeout s) c).2 = [s].
Proof.
  destruct (decide (Counts.get s (m_seqRetxCounts c) < m_retxNum c)) as [Hlt|Hge].
  - by rewrite OnTimeout_retry.
  - by rewrite OnTimeout_discard.
Qed.

Lemma timed_out_OnTimeouts (l : list N) (c : Consumer) :
  timed_out (exec (OnTimeouts l) c).2 = l.
Proof.
  revert c. induction l as [|s l IH]; intros c; [done|].
  rewrite OnTimeouts_cons. cbn [fst snd].
  by rewrite timed_out_app, timed_out_OnTimeout, IH.
Qed.

Lemma OnTimeouts_seqTimeouts (l : list N) (c : Consumer) :
  (∀ s, s ∈ l → s ∉ Ledger.keys (m_seqTimeouts c)) →
  m_seqTimeouts (exec (OnTimeouts l) c).1 = m_seqTimeouts c.
Proof.
  revert c. induction l as [|s l IH]; intros c Hl; [done|].
  rewrite OnTimeouts_cons. cbn [fst snd].
  assert (m_seqTimeouts (exec (OnTimeout s) c).1 = m_seqTimeouts c) as Hs.
  { apply OnTimeout_seqTimeouts, Hl. left. }
  rewrite IH; [done|]. intros k Hk. rewrite Hs. apply Hl. by right.
Qed.

Lemma keys_due_not_due (now rto : Z) (l : list SeqTimeout) :
  Ledger.unique l →
  ∀ s, s ∈ seq <$> due now rto l → s ∉ Ledger.keys (not_due now rto l).
Proof.
  induction l as [|e l IH]; simpl; [intros _ s []%elem_of_nil|].
  intros [He Hu]%unique_cons s. case_decide.
  - rewrite fmap_cons. intros [->|Hs]%elem_of_cons; [|by apply IH].
    pose proof (keys_not_due now rto l). set_solver.
  - by intros []%elem_of_nil.
Qed.

(** C4.  Over a timeout ledger in ascending time order, a check at time
    [now] with the estimator's threshold [rto] hands to [OnTimeout], in
    order, exactly the entries with [now - time >= rto]; they form the front
    of the ledger, and the entries behind them, those with [now - time < rto],
    are what the ledger holds afterwards.  The last call of the check
    schedules the next one after [m_retxTimer], whether or not an entry timed
    out. *)
Theorem CheckRetxTimeout_spec (now rto : Z) (c : Consumer) :
  Ledger.ascending (m_seqTimeouts c) → Ledger.unique (m_seqTimeouts c) →
  let expired := filter (λ e, (rto ≤ now - time e)%Z) (m_seqTimeouts c) in
  let waiting := filter (λ e, (now - time e < rto)%Z) (m_seqTimeouts c) in
  let r := exec (CheckRetxTimeout now rto) c in
  m_seqTimeouts c = expired ++ waiting ∧
  timed_out r.2 = seq <$> expired ∧
  m_seqTimeouts r.1 = waiting ∧
  r.1 = (exec (OnTimeouts (seq <$> expired)) (set_seqTimeouts waiting c)).1 ∧
  last r.2 = Some (ScheduleRetx (m_retxTimer c)).
Proof.
  intros Hasc Hu. cbv zeta.
  destruct (due_ascending now rto _ Hasc) as [<- <-].
  rewrite CheckRetxTimeout_exec by done. cbv zeta. cbn [fst snd].
  split; [apply due_not_due|]. split; [|split; [|split]].
  - rewrite timed_out_app, timed_out_OnTimeouts. simpl. by rewrite app_nil_r.
  - rewrite OnTimeouts_seqTimeouts; [done|]. simpl. by apply keys_due_not_due.
  - done.
  - by rewrite last_snoc.
Qed.

Lemma CheckRetxTimeout_spec_witness :
  let c := final [Start; Tick 0; Tick 5; Tick 20] (initial 0 5 3 50) in
  Ledger.ascending (m_seqTimeouts c) ∧ Ledger.unique (m_seqTimeouts c) ∧
  timed_out (exec (CheckRetxTimeout 30 20) c).2 =
    seq <$> filter (λ e, (20 ≤ 30 - time e)%Z) (m_seqTimeouts c).
Proof.
  set (c := final [Start; Tick 0; Tick 5; Tick 20] (initial 0 5 3 50)). cbv zeta.
  assert (Ledger.ascending (m_seqTimeouts c)) as Ha.
  { vm_compute. repeat split; repeat constructor; discriminate. }
  assert (Ledger.unique (m_seqTimeouts c)) as Hu.
  { apply (bool_decide_unpack _). vm_compute. reflexivity. }
  split; [exact Ha|]. split; [exact Hu|].
  exact (proj1 (proj2 (CheckRetxTimeout_spec 30 20 c Ha Hu))).
Defined.

(** ** Invariants of the ledgers *)

(** Values of type [uint32_t], and the unique sequence index of the timeout
    ledger: what the C++ types guarantee of every consumer. *)
Record well_formed (c : Consumer) : Prop := mk_well_formed {
  wf_seq : m_seq c ≤ uint32_max;
  wf_retxSeqs : ∀ k, k ∈ m_retxSeqs c → k ≤ uint32_max;
  wf_seqTimeouts : ∀ k, k ∈ Ledger.keys (m_seqTimeouts c) → k ≤ uint32_max;
  wf_unique : Ledger.unique (m_seqTimeouts c)
}.

(** The ledgers agree on which sequences are outstanding. *)
Record ledger_inv (c : Consumer) : Prop := mk_ledger_inv {
  inv_counts : dom (m_seqRetxCounts c) = Ledger.keys (m_seqFullDelay c);
  inv_delays : Ledger.keys (m_seqFullDelay c) = Ledger.keys (m_seqLastDelay c);
  inv_timeouts : Ledger.keys (m_seqTimeouts c) ⊆ Ledger.keys (m_seqFullDelay c);
  inv_pending : m_retxSeqs c ## Ledger.keys (m_seqTimeouts c)
}.

Lemma wrap32_le (n : N) : wrap32 n ≤ uint32_max.
Proof.
  unfold wrap32, uint32_max.
  pose proof (N.mod_upper_bound n 4294967296). lia.
Qed.

Lemma wrap32_small (n : N) : n ≤ uint32_max → wrap32 n = n.
Proof. unfold wrap32, uint32_max. intros. apply N.mod_small. lia. Qed.

Lemma popped_retxSeqs (c : Consumer) :
  m_retxSeqs (popped c) ⊆ m_retxSeqs c ∧
  (∀ s, RetxSet.begin (m_retxSeqs c) = Some s → m_retxSeqs (popped c) = m_retxSeqs c ∖ {[s]}).
Proof.
  unfold popped. destruct (RetxSet.begin (m_retxSeqs c)) as [s|] eqn:Hb; simpl.
  - split; [set_solver|]. by intros ? [= ->].
  - split; [done|]. by intros ? [=].
Qed.

Lemma popped_fields (c : Consumer) :
  m_active (popped c) = m_active c ∧ m_seq (popped c) = m_seq c ∧
  m_seqMax (popped c) = m_seqMax c ∧ m_retxNum (popped c) = m_retxNum c ∧
  m_retxTimer (popped c) = m_retxTimer c ∧
  m_seqTimeouts (popped c) = m_seqTimeouts c ∧
  m_seqLastDelay (popped c) = m_seqLastDelay c ∧
  m_seqFullDelay (popped c) = m_seqFullDelay c ∧
  m_seqRetxCounts (popped c) = m_seqRetxCounts c.
Proof. unfold popped. by destruct (RetxSet.begin (m_retxSeqs c)). Qed.

(** With nothing to resend, the retransmission set is empty after line 182. *)
Lemma nothing_pending_popped (c : Consumer) :
  (∀ k, k ∈ m_retxSeqs c → k ≤ uint32_max) →
  nothing_pending c → m_retxSeqs (popped c) = ∅.
Proof.
  intros Hr [Hb|Hb].
  - unfold popped. rewrite Hb. by apply begin_None.
  - destruct (popped_retxSeqs c) as [_ Hp]. rewrite (Hp _ Hb).
    apply begin_Some in Hb as [_ Hmin].
    apply set_eq. intros k. split; [|set_solver].
    intros [Hk Hne]%elem_of_difference.
    specialize (Hr k Hk). specialize (Hmin k Hk).
    assert (k = uint32_max) by lia. set_solver.
Qed.

(** What a send leaves in the ledgers: the sequence is in all four. *)
Lemma WaitBeforeSendOutInterest_fields (now : Z) (s : N) (c : Consumer) :
  let c' := (exec (WaitBeforeSendOutInterest now s) c).1 in
  dom (m_seqRetxCounts c') = {[s]} ∪ dom (m_seqRetxCounts c) ∧
  Ledger.keys (m_seqFullDelay c') = {[s]} ∪ Ledger.keys (m_seqFullDelay c) ∧
  Ledger.keys (m_seqLastDelay c') = {[s]} ∪ Ledger.keys (m_seqLastDelay c) ∧
  Ledger.keys (m_seqTimeouts c') = {[s]} ∪ Ledger.keys (m_seqTimeouts c) ∧
  m_retxSeqs c' = m_retxSeqs c ∧ m_seq c' = m_seq c ∧
  (Ledger.unique (m_seqTimeouts c) → Ledger.unique (m_seqTimeouts c')).
Proof.
  rewrite WaitBeforeSendOutInterest_exec. cbn.
  rewrite dom_incr, !keys_insert, keys_erase. cbn.
  repeat split; [|apply unique_insert].
  apply set_eq. intros k. destruct (decide (k = s)); set_solver.
Qed.

Lemma SendPacket_well_formed (now : Z) (c : Consumer) :
  well_formed c → well_formed (exec (SendPacket now) c).1.
Proof.
  intros [Hseq Hr Ht Hu]. destruct (m_active c) eqn:Ha.
  2: { by rewrite SendPacket_inactive. }
  rewrite SendPacket_active by done.
  destruct (popped_fields c) as (_ & Hpseq & _ & _ & _ & Hpt & _).
  destruct (popped_retxSeqs c) as [Hpr _].
  destruct (SelectSeq_cases c) as
    [(s & Hb & Hs & ->)|[(Hn & Hmax & Hle & ->)|(Hn & Hmax & ->)]]; cbn [fst snd selected].
  - destruct (WaitBeforeSendOutInterest_fields now s (popped c))
      as (_ & _ & _ & Hkt & Hkr & Hks & Hku).
    apply begin_Some in Hb as [Hin _].
    constructor.
    + rewrite Hks, Hpseq. done.
    + rewrite Hkr. intros k Hk. apply Hr. set_solver.
    + rewrite Hkt, Hpt. intros k [->%elem_of_singleton|Hk]%elem_of_union; auto.
    + apply Hku. by rewrite Hpt.
  - constructor; rewrite ?Hpseq, ?Hpt; try done.
    intros k Hk. apply Hr. set_solver.
  - destruct (WaitBeforeSendOutInterest_fields now (m_seq c)
                (set_seq (wrap32 (m_seq c + 1)) (popped c)))
      as (_ & _ & _ & Hkt & Hkr & Hks & Hku).
    cbn in Hkt, Hkr, Hks, Hku.
    constructor.
    + rewrite Hks. apply wrap32_le.
    + rewrite Hkr. intros k Hk. apply Hr. set_solver.
    + rewrite Hkt, Hpt. intros k [->%elem_of_singleton|Hk]%elem_of_union; auto.
    + apply Hku. by rewrite Hpt.
Qed.

Lemma SendPacket_ledger_inv (now : Z) (c : Consumer) :
  well_formed c → ledger_inv c → ledger_inv (exec (SendPacket now) c).1.
Proof.
  intros [Hseq Hr Ht Hu] [Hc Hd Hto Hp]. destruct (m_active c) eqn:Ha.
  2: { by rewrite SendPacket_inactive. }
  rewrite SendPacket_active by done.
  destruct (popped_fields c) as (_ & Hpseq & _ & _ & _ & Hpt & Hpl & Hpf & Hpc).
  destruct (popped_retxSeqs c) as [Hpr Hpb].
  destruct (SelectSeq_cases c) as
    [(s & Hb & Hs & ->)|[(Hn & Hmax & Hle & ->)|(Hn & Hmax & ->)]]; cbn [fst snd selected].
  - destruct (WaitBeforeSendOutInterest_fields now s (popped c))
      as (Hkc & Hkf & Hkl & Hkt & Hkr & _).
    rewrite (Hpb s Hb) in Hkr.
    constructor; rewrite ?Hkc, ?Hkf, ?Hkl, ?Hkt, ?Hkr, ?Hpc, ?Hpf, ?Hpl, ?Hpt;
      set_solver.
  - constructor; rewrite ?Hpc, ?Hpf, ?Hpl, ?Hpt; set_solver.
  - destruct (WaitBeforeSendOutInterest_fields now (m_seq c)
                (set_seq (wrap32 (m_seq c + 1)) (popped c)))
      as (Hkc & Hkf & Hkl & Hkt & Hkr & _).
    cbn in Hkc, Hkf, Hkl, Hkt, Hkr.
    rewrite (nothing_pending_popped c Hr Hn) in Hkr.
    constructor; rewrite ?Hkc, ?Hkf, ?Hkl, ?Hkt, ?Hkr, ?Hpc, ?Hpf, ?Hpl, ?Hpt;
      set_solver.
Qed.

Lemma EraseResolved_fields (s : N) (c : Consumer) :
  let c' := EraseResolved s c in
  dom (m_seqRetxCounts c') = dom (m_seqRetxCounts c) ∖ {[s]} ∧
  Ledger.keys (m_seqFullDelay c') = Ledger.keys (m_seqFullDelay c) ∖ {[s]} ∧
  Ledger.keys (m_seqLastDelay c') = Ledger.keys (m_seqLastDelay c) ∖ {[s]} ∧
  Ledger.keys (m_seqTimeouts c') = Ledger.keys (m_seqTimeouts c) ∖ {[s]} ∧
  m_retxSeqs c' = m_retxSeqs c ∖ {[s]} ∧ m_seq c' = m_seq c ∧
  (Ledger.unique (m_seqTimeouts c) → Ledger.unique (m_seqTimeouts c')).
Proof.
  unfold EraseResolved. cbn. rewrite dom_delete_L, !keys_erase.
  repeat split. apply unique_erase.
Qed.

Lemma OnData_exec (now tag : Z) (name : N) (c : Consumer) :
  (exec (OnData now tag name) c).1 =
  (if m_active c then EraseResolved (wrap32 name) c else c).
Proof.
  destruct (m_active c) eqn:Ha.
  - by rewrite OnData_active.
  - by rewrite OnData_inactive.
Qed.

Lemma OnData_well_formed (now tag : Z) (name : N) (c : Consumer) :
  well_formed c → well_formed (exec (OnData now tag name) c).1.
Proof.
  intros [Hseq Hr Ht Hu]. rewrite OnData_exec. destruct (m_active c); [|done].
  generalize (wrap32 name). intros s.
  destruct (EraseResolved_fields s c) as (_ & _ & _ & Hkt & Hkr & Hks & Hku).
  constructor; rewrite ?Hks, ?Hkr, ?Hkt; [done|..|by apply Hku].
  - intros k Hk. apply Hr. set_solver.
  - intros k Hk. apply Ht. set_solver.
Qed.

Lemma OnData_ledger_inv (now tag : Z) (name : N) (c : Consumer) :
  ledger_inv c → ledger_inv (exec (OnData now tag name) c).1.
Proof.
  intros [Hc Hd Hto Hp]. rewrite OnData_exec. destruct (m_active c); [|done].
  generalize (wrap32 name). intros s.
  destruct (EraseResolved_fields s c) as (Hkc & Hkf & Hkl & Hkt & Hkr & _).
  constructor; rewrite ?Hkc, ?Hkf, ?Hkl, ?Hkt, ?Hkr; set_solver.
Qed.

(** The two outcomes of [OnTimeout], ledger by ledger. *)
Lemma OnTimeout_fields (s : N) (c : Consumer) :
  let c' := (exec (OnTimeout s) c).1 in
  m_seq c' = m_seq c ∧
  ((Counts.get s (m_seqRetxCounts c) < m_retxNum c ∧
    dom (m_seqRetxCounts c') = {[s]} ∪ dom (m_seqRetxCounts c) ∧
    m_seqFullDelay c' = m_seqFullDelay c ∧
    m_seqLastDelay c' = m_seqLastDelay c ∧
    m_seqTimeouts c' = m_seqTimeouts c ∧
    m_retxSeqs c' = {[s]} ∪ m_retxSeqs c) ∨
   (¬ Counts.get s (m_seqRetxCounts c) < m_retxNum c ∧
    dom (m_seqRetxCounts c') = dom (m_seqRetxCounts c) ∖ {[s]} ∧
    m_seqFullDelay c' = Ledger.erase s (m_seqFullDelay c) ∧
    m_seqLastDelay c' = Ledger.erase s (m_seqLastDelay c) ∧
    m_seqTimeouts c' = Ledger.erase s (m_seqTimeouts c) ∧
    m_retxSeqs c' = m_retxSeqs c)).
Proof.
  destruct (decide (Counts.get s (m_seqRetxCounts c) < m_retxNum c)) as [Hlt|Hge].
  - rewrite OnTimeout_retry by done. cbn. split; [done|left].
    by rewrite dom_touch.
  - rewrite OnTimeout_discard by done. cbn. split; [done|right].
    rewrite dom_delete_L, dom_touch. repeat split; [done|]. set_solver.
Qed.

(** [OnTimeout] for a sequence that has a counter and whose entry has left
    the timeout ledger, as in the loop of [CheckRetxTimeout]. *)
Lemma OnTimeout_inv (s : N) (c : Consumer) :
  s ≤ uint32_max → s ∈ dom (m_seqRetxCounts c) → s ∉ Ledger.keys (m_seqTimeouts c) →
  well_formed c → ledger_inv c →
  let c' := (exec (OnTimeout s) c).1 in
  well_formed c' ∧ ledger_inv c' ∧ m_seqTimeouts c' = m_seqTimeouts c ∧
  (∀ k, k ≠ s → k ∈ dom (m_seqRetxCounts c) → k ∈ dom (m_seqRetxCounts c')) ∧
  m_retxSeqs c' ⊆ {[s]} ∪ m_retxSeqs c.
Proof.
  intros Hs Hdom Hnt [Hseq Hr Ht Hu] [Hc Hd Hto Hp]. cbv zeta.
  destruct (OnTimeout_fields s c) as
    [Hks [(_ & Hkc & Hkf & Hkl & Hkt & Hkr)|(_ & Hkc & Hkf & Hkl & Hkt & Hkr)]].
  - split_and!.
    + constructor; rewrite ?Hks, ?Hkr, ?Hkt; try done.
      intros k [->%elem_of_singleton|Hk]%elem_of_union; auto.
    + constructor; rewrite ?Hkc, ?Hkf, ?Hkl, ?Hkt, ?Hkr; set_solver.
    + done.
    + intros k _ Hk. rewrite Hkc. set_solver.
    + by rewrite Hkr.
  - rewrite (erase_absent s (m_seqTimeouts c)) in Hkt by done.
    split_and!.
    + constructor; rewrite ?Hks, ?Hkr, ?Hkt; done.
    + constructor; rewrite ?Hkc, ?Hkf, ?Hkl, ?Hkt, ?Hkr, ?keys_erase; set_solver.
    + done.
    + intros k Hne Hk. rewrite Hkc. set_solver.
    + rewrite Hkr. set_solver.
Qed.

Lemma OnTimeouts_inv (l : list N) (c : Consumer) :
  NoDup l →
  (∀ s, s ∈ l → s ≤ uint32_max ∧ s ∈ dom (m_seqRetxCounts c) ∧
                s ∉ Ledger.keys (m_seqTimeouts c)) →
  well_formed c → ledger_inv c →
  let c' := (exec (OnTimeouts l) c).1 in
  well_formed c' ∧ ledger_inv c' ∧ m_seqTimeouts c' = m_seqTimeouts c.
Proof.
  revert c. induction l as [|s l IH]; intros c Hnd Hl Hwf Hinv; [done|].
  cbv zeta. rewrite OnTimeouts_cons. cbn [fst snd].
  apply NoDup_cons in Hnd as [Hs Hnd].
  destruct (Hl s) as (Hmax & Hdom & Hnt); [left|].
  destruct (OnTimeout_inv s c Hmax Hdom Hnt Hwf Hinv) as (Hwf' & Hinv' & Hkt & Hkeep & _).
  destruct (IH (exec (OnTimeout s) c).1 Hnd) as (? & ? & Hkt'); [|done..|].
  - intros k Hk. destruct (Hl k) as (? & ? & ?); [by right|].
    rewrite Hkt. repeat split; [done| |done].
    apply Hkeep; [|done]. by intros ->.
  - by rewrite Hkt', Hkt.
Qed.

Lemma NoDup_due (now rto : Z) (l : list SeqTimeout) :
  Ledger.unique l → NoDup (seq <$> due now rto l).
Proof.
  induction l as [|e l IH]; simpl; [intros _; apply NoDup_nil_2|].
  intros [He Hu]%unique_cons. case_decide; [|apply NoDup_nil_2].
  rewrite fmap_cons. apply NoDup_cons. split; [|auto].
  intros Hin. apply He, elem_of_keys.
  apply list_elem_of_fmap in Hin as (x & Hx & Hin). exists x. split; [|done].
  rewrite (due_not_due now rto l). apply elem_of_app. by left.
Qed.

Lemma keys_due (now rto : Z) (l : list SeqTimeout) (s : N) :
  s ∈ seq <$> due now rto l → s ∈ Ledger.keys l.
Proof.
  intros (x & Hx & Hin)%list_elem_of_fmap. apply elem_of_keys. exists x.
  split; [|done]. rewrite (due_not_due now rto l). apply elem_of_app. by left.
Qed.

Lemma CheckRetxTimeout_inv (now rto : Z) (c : Consumer) :
  well_formed c → ledger_inv c →
  well_formed (exec (CheckRetxTimeout now rto) c).1 ∧
  ledger_inv (exec (CheckRetxTimeout now rto) c).1.
Proof.
  intros Hwf Hinv. pose proof Hwf as [Hseq Hr Ht Hu].
  pose proof Hinv as [Hc Hd Hto Hp].
  rewrite CheckRetxTimeout_exec by done. cbv zeta. cbn [fst snd].
  pose proof (keys_not_due now rto (m_seqTimeouts c)) as Hsub.
  destruct (OnTimeouts_inv (seq <$> due now rto (m_seqTimeouts c))
              (set_seqTimeouts (not_due now rto (m_seqTimeouts c)) c))
    as (? & ? & _); [| | | |done].
  - by apply NoDup_due.
  - intros s Hs. cbn. pose proof (keys_due _ _ _ _ Hs) as Hk.
    repeat split; [by apply Ht|set_solver|by apply keys_due_not_due].
  - constructor; cbn; [done|done| |by apply unique_not_due].
    intros k Hk. apply Ht. set_solver.
  - constructor; cbn; [done|done|set_solver|set_solver].
Qed.

Lemma handle_inv (i : Input) (c : Consumer) :
  well_formed c → ledger_inv c →
  well_formed (exec (handle i) c).1 ∧ ledger_inv (exec (handle i) c).1.
Proof.
  intros Hwf Hinv. destruct i as [| |now|now rto|now tag name]; cbn [handle].
  - by destruct Hwf, Hinv.
  - by destruct Hwf, Hinv.
  - split; [by apply SendPacket_well_formed|by apply SendPacket_ledger_inv].
  - by apply CheckRetxTimeout_inv.
  - split; [by apply OnData_well_formed|by apply OnData_ledger_inv].
Qed.

Lemma initial_inv (startSeq seqMax retxNum : N) (retxTimer : Z) :
  startSeq ≤ uint32_max →
  well_formed (initial startSeq seqMax retxNum retxTimer) ∧
  ledger_inv (initial startSeq seqMax retxNum retxTimer).
Proof.
  intros Hs. split; constructor; cbn; try done.
  - apply NoDup_nil_2.
Qed.

Lemma final_inv (inputs : list Input) (c : Consumer) :
  well_formed c → ledger_inv c →
  well_formed (final inputs c) ∧ ledger_inv (final inputs c).
Proof.
  revert c. induction inputs as [|i inputs IH]; intros c Hwf Hinv; [done|].
  cbn [final]. destruct (handle_inv i c Hwf Hinv). by apply IH.
Qed.

Lemma timed_out_CheckRetxTimeout (now rto : Z) (c : Consumer) :
  Ledger.unique (m_seqTimeouts c) →
  timed_out (exec (CheckRetxTimeout now rto) c).2 =
  seq <$> due now rto (m_seqTimeouts c).
Proof.
  intros Hu. rewrite CheckRetxTimeout_exec by done. cbv zeta. cbn [fst snd].
  rewrite timed_out_app, timed_out_OnTimeouts. simpl. by rewrite app_nil_r.
Qed.

(** ** C10: the ledgers stay consistent *)

(** C10.  Every event the consumer handles (a send, a Data packet, a timeout
    check, start and stop) keeps the counters, the first-send ledger and the
    last-send ledger on the same set of sequences, the timeout ledger within
    that set, and the retransmission set disjoint from the timeout ledger;
    so a timeout check runs [OnTimeout] for no sequence that is waiting in
    the retransmission set. *)
Theorem ledger_inv_preserved (i : Input) (c : Consumer) :
  well_formed c → ledger_inv c →
  ledger_inv (exec (handle i) c).1 ∧
  (∀ s now rto, s ∈ m_retxSeqs c →
     s ∉ timed_out (exec (CheckRetxTimeout now rto) c).2).
Proof.
  intros Hwf Hinv. split; [by apply handle_inv|].
  intros s now rto Hs. rewrite timed_out_CheckRetxTimeout by by destruct Hwf.
  intros Hin%keys_due. destruct Hinv as [_ _ _ Hp]. set_solver.
Qed.

Lemma ledger_inv_preserved_witness :
  let c := final [Start; Tick 0; RetxCheck 100 10] (initial 0 5 3 50) in
  well_formed c ∧ ledger_inv c ∧ ledger_inv (exec (handle (Tick 100)) c).1.
Proof.
  set (c := final [Start; Tick 0; RetxCheck 100 10] (initial 0 5 3 50)). cbv zeta.
  assert (well_formed c ∧ ledger_inv c) as [Hwf Hinv].
  { apply final_inv; apply initial_inv; vm_compute; discriminate. }
  split; [exact Hwf|]. split; [exact Hinv|].
  exact (proj1 (ledger_inv_preserved (Tick 100) c Hwf Hinv)).
Defined.

(** ** Invariants along a run *)

(** An invariant [Q] that relates the consumer to a quantity accumulated
    from the calls it made survives the timeout handlers of one check. *)
Lemma OnTimeouts_invariant {A} (Q : Consumer → A → Prop) (upd : A → list Event → A) :
  (∀ a, upd a [] = a) →
  (∀ a l1 l2, upd a (l1 ++ l2) = upd (upd a l1) l2) →
  (∀ s c a, s ≤ uint32_max → s ∈ dom (m_seqRetxCounts c) →
            s ∉ Ledger.keys (m_seqTimeouts c) → s ∉ m_retxSeqs c →
            well_formed c → ledger_inv c →
            Q c a → Q (exec (OnTimeout s) c).1 (upd a (exec (OnTimeout s) c).2)) →
  ∀ l c a, NoDup l →
    (∀ s, s ∈ l → s ≤ uint32_max ∧ s ∈ dom (m_seqRetxCounts c) ∧
                  (s ∉ Ledger.keys (m_seqTimeouts c)) ∧ s ∉ m_retxSeqs c) →
    well_formed c → ledger_inv c → Q c a →
    Q (exec (OnTimeouts l) c).1 (upd a (exec (OnTimeouts l) c).2).
Proof.
  intros Hnil Happ Hstep l.
  induction l as [|s l IH]; intros c a Hnd Hl Hwf Hinv HQ.
  - cbn [OnTimeouts]. rewrite exec_ret. cbn [fst snd]. by rewrite Hnil.
  - rewrite OnTimeouts_cons. cbn [fst snd].
    apply NoDup_cons in Hnd as [Hs Hnd].
    destruct (Hl s) as (Hmax & Hdom & Hnt & Hnr); [left|].
    destruct (OnTimeout_inv s c Hmax Hdom Hnt Hwf Hinv)
      as (Hwf' & Hinv' & Hkt & Hkeep & Hretx).
    rewrite Happ. apply IH; [done| |done|done|by apply Hstep].
    intros k Hk. destruct (Hl k) as (? & ? & ? & ?); [by right|].
    assert (k ≠ s) as Hne by (by intros ->).
    rewrite Hkt. split_and!; [done| |done|set_solver].
    by apply Hkeep.
Qed.

Lemma CheckRetxTimeout_invariant {A} (Q : Consumer → A → Prop)
    (upd : A → list Event → A) :
  (∀ a, upd a [] = a) →
  (∀ a l1 l2, upd a (l1 ++ l2) = upd (upd a l1) l2) →
  (∀ a t, upd a [ScheduleRetx t] = a) →
  (∀ c a l, Q c a → Q (set_seqTimeouts l c) a) →
  (∀ s c a, s ≤ uint32_max → s ∈ dom (m_seqRetxCounts c) →
            s ∉ Ledger.keys (m_seqTimeouts c) → s ∉ m_retxSeqs c →
            well_formed c → ledger_inv c →
            Q c a → Q (exec (OnTimeout s) c).1 (upd a (exec (OnTimeout s) c).2)) →
  ∀ now rto c a, well_formed c → ledger_inv c → Q c a →
    Q (exec (CheckRetxTimeout now rto) c).1 (upd a (exec (CheckRetxTimeout now rto) c).2).
Proof.
  intros Hnil Happ Hsched Hframe Hstep now rto c a Hwf Hinv HQ.
  pose proof Hwf as [Hseq Hr Ht Hu]. pose proof Hinv as [Hc Hd Hto Hp].
  rewrite CheckRetxTimeout_exec by done. cbv zeta. cbn [fst snd].
  rewrite Happ, Hsched.
  pose proof (keys_not_due now rto (m_seqTimeouts c)) as Hsub.
  apply (OnTimeouts_invariant Q upd Hnil Happ Hstep).
  - by apply NoDup_due.
  - intros s Hs. cbn. pose proof (keys_due _ _ _ _ Hs) as Hk.
    split_and!; [by apply Ht|set_solver|by apply keys_due_not_due|set_solver].
  - constructor; cbn; [done|done| |by apply unique_not_due].
    intros k Hk. apply Ht. set_solver.
  - constructor; cbn; [done|done|set_solver|set_solver].
  - by apply Hframe.
Qed.

Lemma run_invariant {A} (Q : Consumer → A → Prop) (upd : A → Step → A) :
  (∀ i c a, well_formed c → ledger_inv c → Q c a →
            Q (exec (handle i) c).1 (upd a (mkStep c i (exec (handle i) c).2))) →
  ∀ inputs c a, well_formed c → ledger_inv c → Q c a →
    Q (final inputs c) (foldl upd a (steps inputs c)).
Proof.
  intros Hstep inputs. induction inputs as [|i inputs IH]; intros c a Hwf Hinv HQ; [done|].
  cbn [final steps foldl]. destruct (handle_inv i c Hwf Hinv).
  apply IH; [done..|]. by apply Hstep.
Qed.

Lemma foldl_log {A} (f : A → Event → A) (a : A) (h : list Step) :
  foldl f a (concat (out <$> h)) = foldl (λ a st, foldl f a (out st)) a h.
Proof.
  revert a. induction h as [|st h IH]; intros a; [done|].
  cbn. by rewrite foldl_app, IH.
Qed.

(** ** C2: the retransmission count that [OnData] reports *)

(** Interests sent for [s] since the consumer last resolved [s]: a send adds
    one; the acknowledgement ([AckSeq], the last call of an [OnData] that
    ran) and the discard start over. *)
Definition sends_update (s : N) (n : N) (e : Event) : N :=
  match e with
  | TransmitInterest s' => if decide (s' = s) then n + 1 else n
  | RttAckSeq s' | RttDiscardInterestBySeq s' => if decide (s' = s) then 0 else n
  | _ => n
  end.

Definition sends_since (s : N) (evs : list Event) : N := foldl (sends_update s) 0 evs.

Lemma wrap32_0 : wrap32 0 = 0.
Proof. reflexivity. Qed.

Lemma wrap32_succ (n : N) : wrap32 (wrap32 n + 1) = wrap32 (n + 1).
Proof.
  unfold wrap32. by rewrite N.Div0.add_mod_idemp_l.
Qed.

Lemma SendPacket_counts (now : Z) (c : Consumer) :
  ∃ sel : option N,
    (exec (SendPacket now) c).2 =
      match sel with
      | Some s => [RttSetInterestInfo s 1; TransmitInterest s; ScheduleNextPacket]
      | None => []
      end ∧
    m_seqRetxCounts (exec (SendPacket now) c).1 =
      match sel with
      | Some s => Counts.incr s (m_seqRetxCounts c)
      | None => m_seqRetxCounts c
      end.
Proof.
  destruct (m_active c) eqn:Ha.
  2: { exists None. by rewrite SendPacket_inactive. }
  rewrite SendPacket_active by done.
  destruct (popped_fields c) as (_ & _ & _ & _ & _ & _ & _ & _ & Hpc).
  destruct (SelectSeq_cases c) as
    [(s & Hb & Hs & ->)|[(Hn & Hmax & Hle & ->)|(Hn & Hmax & ->)]]; cbn [fst snd selected].
  - exists (Some s). rewrite WaitBeforeSendOutInterest_exec. cbn. by rewrite Hpc.
  - by exists None.
  - exists (Some (m_seq c)). rewrite WaitBeforeSendOutInterest_exec. cbn. by rewrite Hpc.
Qed.

Lemma sends_delay_metrics (s : N) (n : N) (now hopCount : Z) (s' : N) (c : Consumer) :
  foldl (sends_update s) n (delay_metrics now hopCount s' c) = n.
Proof.
  unfold delay_metrics.
  destruct (Ledger.find s' (m_seqLastDelay c)), (Ledger.find s' (m_seqFullDelay c)); done.
Qed.

Lemma handle_sends (s : N) (i : Input) (c : Consumer) (n : N) :
  well_formed c → ledger_inv c →
  Counts.get s (m_seqRetxCounts c) = wrap32 n →
  Counts.get s (m_seqRetxCounts (exec (handle i) c).1) =
  wrap32 (foldl (sends_update s) n (exec (handle i) c).2).
Proof.
  intros Hwf Hinv Hn. destruct i as [| |now|now rto|now tag name]; cbn [handle].
  - done.
  - done.
  - destruct (SendPacket_counts now c) as [[s'|] [-> ->]]; [|done].
    rewrite get_incr. cbn. case_decide as Hs.
    + subst s'. rewrite decide_True by done. by rewrite Hn, wrap32_succ.
    + by rewrite decide_False by done.
  - apply (CheckRetxTimeout_invariant
             (λ c n, Counts.get s (m_seqRetxCounts c) = wrap32 n)
             (foldl (sends_update s))); try done.
    + intros a l1 l2. apply foldl_app.
    + clear. intros s' c n _ _ _ _ _ _ Hn.
      destruct (decide (Counts.get s' (m_seqRetxCounts c) < m_retxNum c)).
      * rewrite OnTimeout_retry by done. cbn. by rewrite get_touch.
      * rewrite OnTimeout_discard by done. cbn. rewrite get_delete, get_touch.
        case_decide as Hs; [subst s'; by rewrite decide_True|].
        by rewrite decide_False by done.
  - destruct (m_active c) eqn:Ha.
    + rewrite OnData_active by done. generalize (wrap32 name) (to_int tag).
      intros s' hopCount. cbn [fst snd foldl]. cbn [sends_update].
      rewrite foldl_app, sends_delay_metrics. cbn.
      rewrite get_delete. case_decide as Hs; [subst s'; by rewrite decide_True|].
      by rewrite decide_False by done.
    + by rewrite OnData_inactive.
Qed.

Lemma final_sends (s : N) (inputs : list Input) (c : Consumer) (n : N) :
  well_formed c → ledger_inv c →
  Counts.get s (m_seqRetxCounts c) = wrap32 n →
  Counts.get s (m_seqRetxCounts (final inputs c)) =
  wrap32 (foldl (sends_update s) n (log inputs c)).
Proof.
  intros Hwf Hinv Hn. unfold log. rewrite foldl_log.
  apply (run_invariant (λ c n, Counts.get s (m_seqRetxCounts c) = wrap32 n)
           (λ n st, foldl (sends_update s) n (out st))); try done.
  intros. by apply handle_sends.
Qed.

(** C2, as the code has it.  In every run of the consumer, the count that
    the first-send delay trace reports for [s] is the number of Interests
    sent for [s] since it was last resolved, the original included (modulo
    [2^32]): after the original and two retransmissions it is 3.  When the
    Data packet is handled, no ledger has an entry for [s] afterwards. *)
Theorem FirstInterestDataDelay_retxCount
    (startSeq seqMax retxNum : N) (retxTimer : Z) (inputs : list Input)
    (now tag : Z) (name : N) :
  startSeq ≤ uint32_max →
  let s := wrap32 name in
  let hopCount := to_int tag in
  let c0 := initial startSeq seqMax retxNum retxTimer in
  let c := final inputs c0 in
  let sent := wrap32 (sends_since s (log inputs c0)) in
  let r := exec (OnData now tag name) c in
  (∀ d n h, FirstInterestDataDelay s d n h ∈ r.2 → n = sent) ∧
  (m_active c = true →
     (∀ e, Ledger.find s (m_seqFullDelay c) = Some e →
           FirstInterestDataDelay s (now - time e) sent hopCount ∈ r.2) ∧
     absent s r.1).
Proof.
  intros Hs. cbv zeta.
  destruct (initial_inv startSeq seqMax retxNum retxTimer Hs) as [Hwf Hinv].
  destruct (m_active (final inputs (initial startSeq seqMax retxNum retxTimer))) eqn:Ha.
  - rewrite OnData_active by done.
    generalize (wrap32 name) (to_int tag). intros s hopCount.
    pose proof (final_sends s inputs _ 0 Hwf Hinv eq_refl) as Hsent.
    fold (sends_since s (log inputs (initial startSeq seqMax retxNum retxTimer))) in Hsent.
    rewrite <- Hsent.
    cbn [fst snd]. split; [|intros _; split].
    + intros d n h. unfold delay_metrics.
      rewrite elem_of_cons, elem_of_app, elem_of_app.
      destruct (Ledger.find s (m_seqLastDelay _)), (Ledger.find s (m_seqFullDelay _));
        rewrite ?elem_of_cons, ?elem_of_nil; naive_solver.
    + intros e He. unfold delay_metrics. rewrite He.
      apply elem_of_cons. right. apply elem_of_app. left. apply elem_of_app. right.
      apply list_elem_of_singleton. done.
    + apply EraseResolved_absent.
  - rewrite OnData_inactive by done. cbn [fst snd]. split; [|done].
    by intros d n h []%elem_of_nil.
Qed.

(** The number of calls [e] in a log. *)
Fixpoint occurrences (e : Event) (evs : list Event) : nat :=
  match evs with
  | [] => 0
  | x :: evs' => (if decide (x = e) then 1 else 0) + occurrences e evs'
  end.

(** Scenario B: sequence 7 is sent, times out twice and is resent twice. *)
Definition scenario_B : list Input :=
  [Start; Tick 0; RetxCheck 100 10; Tick 100; RetxCheck 200 10; Tick 200].

Lemma FirstInterestDataDelay_retxCount_witness :
  7 ≤ uint32_max ∧
  m_active (final scenario_B (initial 7 8 3 50)) = true ∧
  FirstInterestDataDelay 7 250 3 2 ∈
    (exec (OnData 250 2 7) (final scenario_B (initial 7 8 3 50))).2.
Proof.
  assert (7 ≤ uint32_max) as H by (vm_compute; discriminate).
  assert (m_active (final scenario_B (initial 7 8 3 50)) = true) as Ha
    by (vm_compute; reflexivity).
  assert (Ledger.find 7 (m_seqFullDelay (final scenario_B (initial 7 8 3 50))) =
          Some (mkSeqTimeout 7 0)) as He by (vm_compute; reflexivity).
  split; [exact H|]. split; [exact Ha|].
  pose proof (FirstInterestDataDelay_retxCount 7 8 3 50 scenario_B 250 2 7 H) as T.
  cbv zeta in T. change (wrap32 7) with 7 in T. change (to_int 2) with 2%Z in T.
  exact (proj1 (proj2 T Ha) _ He).
Defined.

(** C2 as stated fails: after exactly two retransmissions of sequence 7 the
    trace reports 3, not 2. *)
Lemma retxCount_after_two_retransmissions :
  let c := final scenario_B (initial 7 8 3 50) in
  occurrences (TransmitInterest 7) (log scenario_B (initial 7 8 3 50)) = 3%nat ∧
  occurrences (RttSentSeq 7 1) (log scenario_B (initial 7 8 3 50)) = 2%nat ∧
  (exec (OnData 250 2 7) c).2 =
    [AppOnData 7; LastRetransmittedInterestDataDelay 7 50 2;
     FirstInterestDataDelay 7 250 3 2; RttAckSeq 7] ∧
  ¬ (∃ d h, FirstInterestDataDelay 7 d 2 h ∈ (exec (OnData 250 2 7) c).2).
Proof.
  cbv zeta.
  assert ((exec (OnData 250 2 7) (final scenario_B (initial 7 8 3 50))).2 =
          [AppOnData 7; LastRetransmittedInterestDataDelay 7 50 2;
           FirstInterestDataDelay 7 250 3 2; RttAckSeq 7]) as Hout
    by (vm_compute; reflexivity).
  split; [vm_compute; reflexivity|]. split; [vm_compute; reflexivity|].
  split; [exact Hout|]. rewrite Hout. intros (d & h & Hin).
  rewrite !elem_of_cons, elem_of_nil in Hin.
  destruct Hin as [Hin|[Hin|[Hin|[Hin|[]]]]]; discriminate.
Qed.

(** ** The paths of [SendPacket], field by field *)

(** The consumer after a send of [s] on top of [c1]: what
    [WaitBeforeSendOutInterest] changes. *)
Definition sent_from (now : Z) (s : N) (c1 c' : Consumer) : Prop :=
  c' = (exec (WaitBeforeSendOutInterest now s) c1).1 ∧
  m_seqRetxCounts c' = Counts.incr s (m_seqRetxCounts c1) ∧
  Ledger.keys (m_seqFullDelay c') = {[s]} ∪ Ledger.keys (m_seqFullDelay c1) ∧
  m_retxSeqs c' = m_retxSeqs c1 ∧ m_seq c' = m_seq c1 ∧
  m_retxNum c' = m_retxNum c1 ∧ m_seqMax c' = m_seqMax c1 ∧
  m_active c' = m_active c1.

Lemma sent_from_intro (now : Z) (s : N) (c1 : Consumer) :
  sent_from now s c1 (exec (WaitBeforeSendOutInterest now s) c1).1.
Proof.
  rewrite WaitBeforeSendOutInterest_exec. cbn [fst].
  repeat split. cbn. apply keys_insert.
Qed.

(** The fresh sequence that a scheduling tick mints in state [c], if any. *)
Definition minted_at (c : Consumer) : option N :=
  if m_active c then
    match (SelectSeq c).1.1 with
    | Mint s => Some s
    | _ => None
    end
  else None.

Inductive SendPacket_path (now : Z) (c : Consumer) :
    Consumer → list Event → option N → Prop :=
  | path_idle c' :
      m_active c = false ∨
      (nothing_pending c ∧ m_seqMax c ≠ uint32_max ∧ m_seqMax c ≤ m_seq c) →
      m_seqRetxCounts c' = m_seqRetxCounts c →
      m_seqFullDelay c' = m_seqFullDelay c →
      m_retxSeqs c' ⊆ m_retxSeqs c → m_seq c' = m_seq c →
      m_retxNum c' = m_retxNum c → m_seqMax c' = m_seqMax c →
      m_active c' = m_active c →
      SendPacket_path now c c' [] None
  | path_resend s c' :
      m_active c = true → s ∈ m_retxSeqs c → s ≠ uint32_max →
      RetxSet.begin (m_retxSeqs c) = Some s →
      sent_from now s (set_retxSeqs (m_retxSeqs c ∖ {[s]}) c) c' →
      SendPacket_path now c c'
        [RttSetInterestInfo s 1; TransmitInterest s; ScheduleNextPacket] None
  | path_mint c1 c' :
      m_active c = true → nothing_pending c →
      m_seqMax c = uint32_max ∨ m_seq c < m_seqMax c →
      c1 = set_seq (wrap32 (m_seq c + 1)) (popped c) →
      sent_from now (m_seq c) c1 c' →
      SendPacket_path now c c'
        [RttSetInterestInfo (m_seq c) 1; TransmitInterest (m_seq c); ScheduleNextPacket]
        (Some (m_seq c)).

Lemma SendPacket_paths (now : Z) (c : Consumer) :
  SendPacket_path now c (exec (SendPacket now) c).1 (exec (SendPacket now) c).2
    (minted_at c).
Proof.
  unfold minted_at. destruct (m_active c) eqn:Ha.
  2: { rewrite SendPacket_inactive by done. cbn. apply path_idle; auto. }
  rewrite SendPacket_active by done.
  destruct (popped_fields c) as (Hpa & Hpseq & Hpm & Hpn & _ & Hpt & Hpl & Hpf & Hpc).
  destruct (popped_retxSeqs c) as [Hpr Hpb].
  destruct (SelectSeq_cases c) as
    [(s & Hb & Hs & ->)|[(Hn & Hmax & Hle & ->)|(Hn & Hmax & ->)]]; cbn [fst snd selected app].
  - apply path_resend; [done|by apply begin_Some in Hb as []|done|done|].
    assert (popped c = set_retxSeqs (m_retxSeqs c ∖ {[s]}) c) as <-.
    { unfold popped. by rewrite Hb. }
    apply sent_from_intro.
  - apply path_idle; auto.
  - eapply path_mint; [done..|]. apply sent_from_intro.
Qed.

(** [OnTimeout] leaves the configuration alone. *)
Lemma OnTimeout_frame (s : N) (c : Consumer) :
  let c' := (exec (OnTimeout s) c).1 in
  m_active c' = m_active c ∧ m_seqMax c' = m_seqMax c ∧ m_retxNum c' = m_retxNum c.
Proof.
  destruct (decide (Counts.get s (m_seqRetxCounts c) < m_retxNum c)) as [Hlt|Hge].
  - by rewrite OnTimeout_retry.
  - by rewrite OnTimeout_discard.
Qed.

Lemma occurrences_app (e : Event) (l1 l2 : list Event) :
  occurrences e (l1 ++ l2) = (occurrences e l1 + occurrences e l2)%nat.
Proof. induction l1 as [|x l1 IH]; simpl; [done|]. rewrite IH. lia. Qed.

Lemma occurrences_elem_of (e : Event) (l : list Event) :
  e ∈ l ↔ (0 < occurrences e l)%nat.
Proof.
  induction l as [|x l IH]; simpl.
  - rewrite elem_of_nil. lia.
  - rewrite elem_of_cons, IH. case_decide; naive_solver lia.
Qed.

Lemma occurrences_delay_metrics (e : Event) (now hopCount : Z) (s : N) (c : Consumer) :
  is_delay_metric e = false → occurrences e (delay_metrics now hopCount s c) = 0%nat.
Proof.
  intros He. unfold delay_metrics.
  destruct (Ledger.find s (m_seqLastDelay c)), (Ledger.find s (m_seqFullDelay c));
    simpl; repeat case_decide; subst; try done.
Qed.

Lemma OnData_occurrences (e : Event) (now tag : Z) (name : N) (c : Consumer) :
  is_delay_metric e = false → (∀ k, e ≠ AppOnData k) → (∀ k, e ≠ RttAckSeq k) →
  occurrences e (exec (OnData now tag name) c).2 = 0%nat.
Proof.
  intros He Ha Hk. destruct (m_active c) eqn:Hact.
  - rewrite OnData_active by done. cbn [snd occurrences].
    rewrite occurrences_app, occurrences_delay_metrics by done. simpl.
    rewrite !decide_False; [done|..]; intros Heq; symmetry in Heq;
      first [by apply Ha in Heq|by apply Hk in Heq].
  - by rewrite OnData_inactive.
Qed.

(** ** C1: the retry budget *)

Section retry_budget.

Variables (s R L : N).
Hypothesis budget_pos : 1 ≤ R.
Hypothesis budget_uint32 : R ≤ uint32_max.
Hypothesis limit_set : L < uint32_max.

(** [a.1] counts the Interests sent for [s], [a.2] the discards of [s].
    While [s] has a counter, the counter is the number of sends and within
    the budget, and [s] waits for a resend only below the budget; once the
    counter is gone, a discard has happened only at exactly [R] sends. *)
Record retry_inv (c : Consumer) (a : nat * nat) : Prop := mk_retry_inv {
  ri_num : m_retxNum c = R;
  ri_max : m_seqMax c = L;
  ri_known :
    s ∈ dom (m_seqRetxCounts c) →
    s < m_seq c ∧ Counts.get s (m_seqRetxCounts c) = N.of_nat a.1 ∧
    (1 ≤ a.1)%nat ∧ N.of_nat a.1 ≤ R ∧ a.2 = 0%nat ∧
    (s ∈ m_retxSeqs c → N.of_nat a.1 < R);
  ri_unknown :
    s ∉ dom (m_seqRetxCounts c) →
    (s ∉ m_retxSeqs c) ∧ N.of_nat a.1 ≤ R ∧ (a.2 ≤ 1)%nat ∧
    (a.2 ≠ 0%nat → N.of_nat a.1 = R) ∧
    (m_seq c ≤ s → a.1 = 0%nat ∧ a.2 = 0%nat)
}.

Definition retry_upd (a : nat * nat) (evs : list Event) : nat * nat :=
  ((a.1 + occurrences (TransmitInterest s) evs)%nat,
   (a.2 + occurrences (RttDiscardInterestBySeq s) evs)%nat).

Lemma retry_upd_nil (a : nat * nat) : retry_upd a [] = a.
Proof. destruct a. unfold retry_upd. simpl. f_equal; lia. Qed.

Lemma retry_upd_app (a : nat * nat) (l1 l2 : list Event) :
  retry_upd a (l1 ++ l2) = retry_upd (retry_upd a l1) l2.
Proof. unfold retry_upd. simpl. rewrite !occurrences_app. f_equal; lia. Qed.

Lemma retry_upd_none (a : nat * nat) (evs : list Event) :
  occurrences (TransmitInterest s) evs = 0%nat →
  occurrences (RttDiscardInterestBySeq s) evs = 0%nat →
  retry_upd a evs = a.
Proof. intros H1 H2. destruct a. unfold retry_upd. rewrite H1, H2. simpl. f_equal; lia. Qed.

(** The invariant depends on the consumer through these members only. *)
Lemma retry_inv_ext (c c' : Consumer) (a : nat * nat) :
  m_retxNum c' = m_retxNum c → m_seqMax c' = m_seqMax c → m_seq c' = m_seq c →
  m_seqRetxCounts c' = m_seqRetxCounts c → m_retxSeqs c' ⊆ m_retxSeqs c →
  retry_inv c a → retry_inv c' a.
Proof.
  intros Hn Hm Hs Hc Hr [H1 H2 H3 H4].
  constructor; rewrite ?Hn, ?Hm, ?Hs, ?Hc; try done.
  - intros Hd. destruct (H3 Hd) as (? & ? & ? & ? & ? & Hlt).
    split_and!; try done. intros Hin. apply Hlt. set_solver.
  - intros Hd. destruct (H4 Hd) as (? & ? & ? & ? & ?).
    split_and!; try done. set_solver.
Qed.

Lemma OnTimeout_retry_inv (s' : N) (c : Consumer) (a : nat * nat) :
  s' ∈ dom (m_seqRetxCounts c) →
  retry_inv c a →
  retry_inv (exec (OnTimeout s') c).1 (retry_upd a (exec (OnTimeout s') c).2).
Proof.
  intros Hdom [Hn Hm Hk Hu]. destruct a as [t d]. cbn [fst snd] in *.
  destruct (decide (Counts.get s' (m_seqRetxCounts c) < m_retxNum c)) as [Hlt|Hge].
  - rewrite OnTimeout_retry by done. cbn [fst snd].
    rewrite retry_upd_none by (simpl; by repeat case_decide).
    constructor; cbn; try done.
    + rewrite dom_touch, get_touch. intros Hd.
      assert (s ∈ dom (m_seqRetxCounts c)) as Hd' by set_solver.
      destruct (Hk Hd') as (? & Hg & ? & ? & ? & Hr). split_and!; try done.
      intros [->%elem_of_singleton|Hin]%elem_of_union; [lia|auto].
    + rewrite dom_touch. intros Hd.
      assert (s ∉ dom (m_seqRetxCounts c)) as Hd' by set_solver.
      destruct (Hu Hd') as (? & ? & ? & ? & ?). split_and!; try done.
      set_solver.
  - rewrite OnTimeout_discard by done. cbn [fst snd].
    destruct (decide (s' = s)) as [->|Hne].
    + destruct (Hk Hdom) as (Hlt & Hg & H1 & HR & -> & Hr).
      assert (retry_upd (t, 0%nat) [RttIncreaseMultiplier; RttDiscardInterestBySeq s]
              = (t, 1%nat)) as ->.
      { unfold retry_upd. simpl. repeat case_decide; try done. f_equal; lia. }
      constructor; cbn; try done.
      * rewrite dom_delete_L. set_solver.
      * intros _. split_and!; try done; try lia.
        intros Hin. specialize (Hr Hin). lia.
    + rewrite retry_upd_none by (simpl; repeat case_decide; first [done|congruence]).
      constructor; cbn; try done.
      * rewrite dom_delete_L, dom_touch, get_delete, get_touch.
        rewrite decide_False by done. intros Hd. apply Hk. set_solver.
      * rewrite dom_delete_L, dom_touch. intros Hd. apply Hu. set_solver.
Qed.

Lemma sent_from_retry_inv_other (now : Z) (s' : N) (c1 c' : Consumer) (a : nat * nat) :
  s' ≠ s → sent_from now s' c1 c' → retry_inv c1 a → retry_inv c' a.
Proof.
  intros Hne (_ & Hc & _ & Hr & Hs & Hn & Hm & _) [H1 H2 H3 H4].
  constructor; rewrite ?Hn, ?Hm, ?Hs, ?Hc, ?Hr, ?dom_incr, ?get_incr; try done.
  - rewrite decide_False by done. intros Hd. apply H3. set_solver.
  - intros Hd. apply H4. set_solver.
Qed.

Lemma SendPacket_retry_inv (now : Z) (c : Consumer) (a : nat * nat) :
  well_formed c → retry_inv c a →
  retry_inv (exec (SendPacket now) c).1 (retry_upd a (exec (SendPacket now) c).2).
Proof.
  intros Hwf Hinv. pose proof Hinv as [Hn Hm Hk Hu].
  destruct (SendPacket_paths now c)
    as [c' _ Hc Hf Hr Hs Hn' Hm' _|s' c' Ha Hin Hne Hb Hsent|c1 c' Ha Hnp Hlim -> Hsent].
  - rewrite retry_upd_nil. by apply (retry_inv_ext c).
  - destruct (decide (s' = s)) as [->|Hs'].
    + destruct (decide (s ∈ dom (m_seqRetxCounts c))) as [Hd|Hd].
      2: { by destruct (Hu Hd) as [? _]. }
      destruct a as [t d]. cbn [fst snd] in *.
      destruct (Hk Hd) as (Hlt & Hg & H1 & _ & -> & Hbelow).
      specialize (Hbelow Hin).
      assert (retry_upd (t, 0%nat)
                [RttSetInterestInfo s 1; TransmitInterest s; ScheduleNextPacket]
              = (S t, 0%nat)) as ->.
      { unfold retry_upd. simpl. repeat case_decide; try done. f_equal; lia. }
      destruct Hsent as (_ & Hc & _ & Hr & Hs & Hn' & Hm' & _).
      cbn in Hc, Hr, Hs, Hn', Hm'.
      constructor; rewrite ?Hn', ?Hm', ?Hs, ?Hc, ?Hr, ?dom_incr, ?get_incr;
        cbn [fst snd]; try done.
      * intros _. rewrite decide_True by done. rewrite Hg.
        rewrite wrap32_small by lia. split_and!; try done; try lia. set_solver.
      * set_solver.
    + rewrite retry_upd_none by (simpl; repeat case_decide; first [done|congruence]).
      eapply sent_from_retry_inv_other; [done..|].
      apply (retry_inv_ext c); try done. cbn. set_solver.
  - assert (m_seq c < L) as Hbelow by (rewrite <- Hm; lia).
    assert (wrap32 (m_seq c + 1) = m_seq c + 1) as Hw.
    { apply wrap32_small. unfold uint32_max in *. lia. }
    destruct (popped_fields c) as (_ & Hpseq & Hpm & Hpn & _ & _ & _ & _ & Hpc).
    assert (m_retxSeqs (popped c) = ∅) as Hpr.
    { apply nothing_pending_popped; [by destruct Hwf|done]. }
    destruct (decide (m_seq c = s)) as [Heq|Hs'].
    + destruct (decide (s ∈ dom (m_seqRetxCounts c))) as [Hd|Hd].
      { destruct (Hk Hd) as (? & _). lia. }
      destruct (Hu Hd) as (_ & _ & _ & _ & Hzero).
      destruct a as [t d]. cbn [fst snd] in *.
      destruct Hzero as [-> ->]; [lia|].
      rewrite Heq in *.
      assert (retry_upd (0%nat, 0%nat)
                [RttSetInterestInfo s 1; TransmitInterest s; ScheduleNextPacket]
              = (1%nat, 0%nat)) as ->.
      { unfold retry_upd. simpl. repeat case_decide; try done. }
      destruct Hsent as (_ & Hc & _ & Hr & Hs & Hn' & Hm' & _).
      cbn in Hc, Hr, Hs, Hn', Hm'.
      constructor; rewrite ?Hn', ?Hm', ?Hs, ?Hc, ?Hr, ?Hpn, ?Hpm, ?Hpc, ?Hpr,
        ?dom_incr, ?get_incr; cbn [fst snd]; try done.
      * intros _. rewrite decide_True by done.
        rewrite (get_absent s) by done. rewrite Hw.
        split_and!; try done; try lia.
      * set_solver.
    + rewrite retry_upd_none by (simpl; repeat case_decide; first [done|congruence]).
      eapply sent_from_retry_inv_other; [done..|].
      constructor; cbn; rewrite ?Hpn, ?Hpm, ?Hpc, ?Hpr, ?Hw; try done.
      * intros Hd. destruct (Hk Hd) as (? & ? & ? & ? & ? & ?).
        split_and!; try done; try lia.
      * intros Hd. destruct (Hu Hd) as (? & ? & ? & ? & Hz).
        split_and!; try done. intros Hle. apply Hz. lia.
Qed.

Lemma OnData_retry_inv (now tag : Z) (name : N) (c : Consumer) (a : nat * nat) :
  retry_inv c a →
  retry_inv (exec (OnData now tag name) c).1
            (retry_upd a (exec (OnData now tag name) c).2).
Proof.
  intros [Hn Hm Hk Hu].
  rewrite retry_upd_none by (by apply OnData_occurrences).
  rewrite OnData_exec. destruct (m_active c); [|done].
  generalize (wrap32 name). intros s'.
  unfold EraseResolved.
  constructor; cbn; rewrite ?dom_delete_L, ?get_delete; try done.
  - intros [Hd Hne]%elem_of_difference.
    rewrite decide_False by set_solver.
    destruct (Hk Hd) as (? & ? & ? & ? & ? & Hr). split_and!; try done.
    intros Hin. apply Hr. set_solver.
  - intros Hd. destruct (decide (s ∈ dom (m_seqRetxCounts c))) as [Hd'|Hd'].
    + destruct (decide (s = s')) as [<-|Hne]; [|exfalso; apply Hd; set_solver].
      destruct (Hk Hd') as (? & ? & ? & ? & ? & ?).
      split_and!; try done; try lia. set_solver.
    + destruct (Hu Hd') as (? & ? & ? & ? & ?). split_and!; try done. set_solver.
Qed.

Lemma handle_retry_inv (i : Input) (c : Consumer) (a : nat * nat) :
  well_formed c → ledger_inv c → retry_inv c a →
  retry_inv (exec (handle i) c).1 (retry_upd a (exec (handle i) c).2).
Proof.
  intros Hwf Hinv HQ. destruct i as [| |now|now rto|now tag name]; cbn [handle].
  - rewrite retry_upd_none by done. by apply (retry_inv_ext c).
  - rewrite retry_upd_none by done. by apply (retry_inv_ext c).
  - by apply SendPacket_retry_inv.
  - apply (CheckRetxTimeout_invariant retry_inv retry_upd); try done.
    + apply retry_upd_nil.
    + apply retry_upd_app.
    + intros. by apply retry_upd_none.
    + intros c0 a0 l. by apply retry_inv_ext.
    + intros. by apply OnTimeout_retry_inv.
  - by apply OnData_retry_inv.
Qed.

Lemma retry_upd_log (a : nat * nat) (h : list Step) :
  foldl (λ a st, retry_upd a (out st)) a h = retry_upd a (concat (out <$> h)).
Proof.
  revert a. induction h as [|st h IH]; intros a; cbn.
  - by rewrite retry_upd_nil.
  - by rewrite IH, retry_upd_app.
Qed.

Lemma retry_budget_run (startSeq : N) (retxTimer : Z) (inputs : list Input) :
  startSeq ≤ uint32_max →
  let evs := log inputs (initial startSeq L R retxTimer) in
  N.of_nat (occurrences (TransmitInterest s) evs) ≤ R ∧
  (occurrences (RttDiscardInterestBySeq s) evs ≤ 1)%nat ∧
  (RttDiscardInterestBySeq s ∈ evs →
     N.of_nat (occurrences (TransmitInterest s) evs) = R ∧
     absent s (final inputs (initial startSeq L R retxTimer))).
Proof.
  intros Hs. cbv zeta.
  destruct (initial_inv startSeq L R retxTimer Hs) as [Hwf Hinv].
  assert (retry_inv (initial startSeq L R retxTimer) (0%nat, 0%nat)) as H0.
  { constructor; cbn; try done.
    intros _. split_and!; try done; try lia. }
  pose proof (run_invariant retry_inv (λ a st, retry_upd a (out st))
                (λ i c a, handle_retry_inv i c a) inputs _ _ Hwf Hinv H0) as [_ _ Hk Hu].
  rewrite retry_upd_log in Hk, Hu. fold (log inputs (initial startSeq L R retxTimer)) in Hk, Hu.
  cbn [retry_upd fst snd] in Hk, Hu.
  destruct (final_inv inputs _ Hwf Hinv) as [_ [Hc Hd Hto _]].
  rewrite occurrences_elem_of.
  destruct (decide (s ∈ dom (m_seqRetxCounts (final inputs (initial startSeq L R retxTimer)))))
    as [Hin|Hin].
  - destruct (Hk Hin) as (_ & _ & _ & ? & ? & _). split_and!; [done|lia|lia].
  - destruct (Hu Hin) as (Hnr & ? & ? & Hex & _). split_and!; [done|done|].
    intros ?. split; [apply Hex; lia|].
    unfold absent. split_and!; [done| |done| |]; set_solver.
Qed.

(** *** The timeouts of a sequence *)





















End retry_budget.

(** Scenario A: one sequence, never answered; every timeout check finds it
    expired. *)
Definition scenario_A : list Input :=
  [Start; Tick 0; RetxCheck 100 10; Tick 100; RetxCheck 200 10; Tick 200;
   RetxCheck 300 10].

(** Whether the timeout scan of a step finds the entry of [s] due (it holds
    one entry a sequence), and how often the scans of a run do. *)
Definition expired (s : N) (st : Step) : nat :=
  match input st with
  | RetxCheck now rto =>
      length (filter (λ e, seq e = s) (due now rto (m_seqTimeouts (pre st))))
  | _ => 0%nat
  end.






Lemma final_app (i1 i2 : list Input) (c : Consumer) :
  final (i1 ++ i2) c = final i2 (final i1 c).
Proof. revert c. induction i1 as [|i i1 IH]; intros c; [done|]. cbn. apply IH. Qed.





(** ** C8: a sequence is resolved at most once in its lifetime *)

(** The fresh sequence that a step mints: the lifetime of a sequence number
    starts there. *)
Definition minted (st : Step) : option N :=
  match input st with
  | Tick _ => minted_at (pre st)
  | _ => None
  end.

(** An acknowledgement: a Data packet for [s], the sequence that its name is
    narrowed to, whose handling fired a delay trace. *)
Definition acked (s : N) (st : Step) : bool :=
  match input st with
  | Data _ _ name => bool_decide (wrap32 name = s) && existsb is_delay_metric (out st)
  | _ => false
  end.

(** Discards of [s] by [OnTimeout] (lines 328-337) during a step. *)
Definition discards (s : N) (st : Step) : nat :=
  occurrences (RttDiscardInterestBySeq s) (out st).

Definition resolutions (s : N) (st : Step) : nat :=
  ((if acked s st then 1 else 0) + discards s st)%nat.

(** Resolutions of [s] since [s] was last minted. *)
Definition lifetime_step (s : N) (n : nat) (st : Step) : nat :=
  ((if decide (minted st = Some s) then 0 else n) + resolutions s st)%nat.

Definition resolved_in_lifetime (s : N) (h : list Step) : nat :=
  foldl (lifetime_step s) 0%nat h.

(** Resolutions of [s], and mints of [s], in a whole run. *)
Definition resolved (s : N) (h : list Step) : nat :=
  foldl (λ r st, (r + resolutions s st)%nat) 0%nat h.

Definition mints (s : N) (h : list Step) : nat :=
  foldl (λ m st, if decide (minted st = Some s) then S m else m) 0%nat h.

Section resolved_once.

Variable s : N.

(** Whether [s] is outstanding: sent and not resolved. *)
Definition alive (c : Consumer) : nat :=
  if decide (s ∈ Ledger.keys (m_seqFullDelay c)) then 1%nat else 0%nat.

Lemma alive_ext (c c' : Consumer) :
  (s ∈ Ledger.keys (m_seqFullDelay c') ↔ s ∈ Ledger.keys (m_seqFullDelay c)) →
  alive c' = alive c.
Proof. intros H. unfold alive. repeat case_decide; tauto. Qed.

Lemma alive_le (c : Consumer) : (alive c ≤ 1)%nat.
Proof. unfold alive. case_decide; lia. Qed.

(** [a] is (resolutions in the current lifetime, resolutions, mints). *)
Record once_inv (c : Consumer) (a : nat * nat * nat) : Prop := mk_once_inv {
  oi_pending : m_retxSeqs c ⊆ dom (m_seqRetxCounts c);
  oi_lifetime : (a.1.1 + alive c ≤ 1)%nat;
  oi_total : (a.1.2 + alive c ≤ a.2)%nat
}.

Definition once_upd (a : nat * nat * nat) (st : Step) : nat * nat * nat :=
  (lifetime_step s a.1.1 st, (a.1.2 + resolutions s st)%nat,
   if decide (minted st = Some s) then S a.2 else a.2).

(** Within one timeout check: [d] discards of [s] so far. *)
Definition once_inv_check (a : nat * nat * nat) (c : Consumer) (d : nat) : Prop :=
  once_inv c ((a.1.1 + d)%nat, (a.1.2 + d)%nat, a.2).

Lemma OnTimeout_once_inv (a : nat * nat * nat) (s' : N) (c : Consumer) (d : nat) :
  s' ∈ dom (m_seqRetxCounts c) → s' ∉ m_retxSeqs c → ledger_inv c →
  once_inv_check a c d →
  once_inv_check a (exec (OnTimeout s') c).1
    (d + occurrences (RttDiscardInterestBySeq s) (exec (OnTimeout s') c).2)%nat.
Proof.
  intros Hdom Hnr [Hc _ _ _] [Hp Hl Ht]. unfold once_inv_check in *.
  cbn [fst snd] in *.
  destruct (decide (Counts.get s' (m_seqRetxCounts c) < m_retxNum c)) as [Hlt|Hge].
  - rewrite OnTimeout_retry by done. cbn [fst snd occurrences].
    rewrite !decide_False by done.
    constructor; cbn [fst snd].
    + cbn. rewrite dom_touch. set_solver.
    + rewrite (alive_ext c) by done. lia.
    + rewrite (alive_ext c) by done. lia.
  - rewrite OnTimeout_discard by done. cbn [fst snd occurrences].
    rewrite decide_False by done.
    constructor; cbn [fst snd].
    + cbn. rewrite dom_delete_L, dom_touch. set_solver.
    + destruct (decide (s' = s)) as [->|Hne].
      * rewrite decide_True by done.
        assert (alive c = 1%nat) as Ha.
        { unfold alive. rewrite decide_True; [done|]. by rewrite <- Hc. }
        assert (alive (set_seqTimeouts (Ledger.erase s (m_seqTimeouts c))
                  (set_seqLastDelay (Ledger.erase s (m_seqLastDelay c))
                     (set_seqFullDelay (Ledger.erase s (m_seqFullDelay c))
                        (set_seqRetxCounts
                           (delete s (Counts.touch s (m_seqRetxCounts c))) c)))) = 0%nat)
          as ->.
        { unfold alive. cbn. rewrite keys_erase. rewrite decide_False; [done|set_solver]. }
        lia.
      * rewrite decide_False by congruence.
        rewrite (alive_ext c); [lia|]. cbn. rewrite keys_erase. set_solver.
    + destruct (decide (s' = s)) as [->|Hne].
      * rewrite decide_True by done.
        assert (alive c = 1%nat) as Ha.
        { unfold alive. rewrite decide_True; [done|]. by rewrite <- Hc. }
        assert (alive (set_seqTimeouts (Ledger.erase s (m_seqTimeouts c))
                  (set_seqLastDelay (Ledger.erase s (m_seqLastDelay c))
                     (set_seqFullDelay (Ledger.erase s (m_seqFullDelay c))
                        (set_seqRetxCounts
                           (delete s (Counts.touch s (m_seqRetxCounts c))) c)))) = 0%nat)
          as ->.
        { unfold alive. cbn. rewrite keys_erase. rewrite decide_False; [done|set_solver]. }
        lia.
      * rewrite decide_False by congruence.
        rewrite (alive_ext c); [lia|]. cbn. rewrite keys_erase. set_solver.
Qed.

Lemma SendPacket_once_inv (now : Z) (c : Consumer) (a : nat * nat * nat) :
  well_formed c → ledger_inv c → once_inv c a →
  once_inv (exec (SendPacket now) c).1
           (once_upd a (mkStep c (Tick now) (exec (SendPacket now) c).2)).
Proof.
  intros Hwf [Hc _ _ _] [Hp Hl Ht]. destruct a as [[n r] m]. cbn [fst snd] in *.
  unfold once_upd, lifetime_step, resolutions, acked, discards, minted.
  cbn [input pre out fst snd].
  destruct (SendPacket_paths now c)
    as [c' _ Hc' Hf Hr _ _ _ _|s' c' Ha Hin Hne Hb Hsent|c1 c' Ha Hnp Hlim -> Hsent].
  - rewrite !decide_False by done. cbn [occurrences].
    constructor; cbn [fst snd].
    + rewrite Hc'. set_solver.
    + rewrite (alive_ext c) by (by rewrite Hf). lia.
    + rewrite (alive_ext c) by (by rewrite Hf). lia.
  - rewrite !decide_False by done.
    assert (occurrences (RttDiscardInterestBySeq s)
              [RttSetInterestInfo s' 1; TransmitInterest s'; ScheduleNextPacket] = 0%nat)
      as -> by (simpl; by repeat case_decide).
    destruct Hsent as (_ & Hc' & Hf & Hr & _). cbn in Hc', Hf, Hr.
    assert (alive c' = alive c) as Hal.
    { apply alive_ext. rewrite Hf. set_solver. }
    constructor; cbn [fst snd].
    + rewrite Hc', Hr, dom_incr. set_solver.
    + rewrite Hal. lia.
    + rewrite Hal. lia.
  - assert (occurrences (RttDiscardInterestBySeq s)
              [RttSetInterestInfo (m_seq c) 1; TransmitInterest (m_seq c);
               ScheduleNextPacket] = 0%nat)
      as -> by (simpl; by repeat case_decide).
    destruct (popped_fields c) as (_ & _ & _ & _ & _ & _ & _ & Hpf & Hpc).
    destruct Hsent as (_ & Hc' & Hf & Hr & _). cbn in Hc', Hf, Hr.
    rewrite Hpf in Hf.
    rewrite (nothing_pending_popped c) in Hr; [|by destruct Hwf|done].
    pose proof (alive_le c').
    constructor; cbn [fst snd].
    + rewrite Hr. set_solver.
    + case_decide as Hm; [lia|].
      rewrite (alive_ext c); [lia|]. rewrite Hf.
      assert (s ≠ m_seq c) by congruence. set_solver.
    + case_decide as Hm; [lia|].
      rewrite (alive_ext c); [lia|]. rewrite Hf.
      assert (s ≠ m_seq c) by congruence. set_solver.
Qed.

Lemma existsb_delay_metrics (now hopCount : Z) (k s' : N) (c : Consumer) :
  existsb is_delay_metric (AppOnData k :: delay_metrics now hopCount s' c ++ [RttAckSeq s'])
  = bool_decide (s' ∈ Ledger.keys (m_seqLastDelay c) ∪ Ledger.keys (m_seqFullDelay c)).
Proof.
  unfold delay_metrics. cbn [existsb is_delay_metric orb].
  rewrite !existsb_app. cbn [existsb is_delay_metric orb].
  destruct (Ledger.find s' (m_seqLastDelay c)) as [e1|] eqn:H1;
    destruct (Ledger.find s' (m_seqFullDelay c)) as [e2|] eqn:H2; cbn;
    symmetry.
  - apply bool_decide_eq_true. apply elem_of_union. left. apply find_is_Some. eauto.
  - apply bool_decide_eq_true. apply elem_of_union. left. apply find_is_Some. eauto.
  - apply bool_decide_eq_true. apply elem_of_union. right. apply find_is_Some. eauto.
  - apply bool_decide_eq_false. apply find_None in H1, H2. set_solver.
Qed.

Lemma OnData_once_inv (now tag : Z) (name : N) (c : Consumer) (a : nat * nat * nat) :
  ledger_inv c → once_inv c a →
  once_inv (exec (OnData now tag name) c).1
    (once_upd a (mkStep c (Data now tag name) (exec (OnData now tag name) c).2)).
Proof.
  intros [Hc Hd _ _] [Hp Hl Ht]. destruct a as [[n r] m]. cbn [fst snd] in *.
  unfold once_upd, lifetime_step, resolutions, acked, discards, minted.
  cbn [input pre out fst snd].
  rewrite !decide_False by done.
  rewrite OnData_occurrences by done.
  destruct (m_active c) eqn:Ha.
  2: { rewrite OnData_inactive by done. cbn [fst snd existsb].
       rewrite andb_false_r. constructor; cbn [fst snd]; [done|lia|lia]. }
  rewrite OnData_active by done. cbn [fst snd].
  generalize (wrap32 name) (to_int tag). intros s' hopCount.
  rewrite existsb_delay_metrics.
  destruct (EraseResolved_fields s' c) as (Hkc & Hkf & _ & _ & Hkr & _).
  destruct (decide (s' = s)) as [->|Hne].
  - rewrite bool_decide_eq_true_2 by done. cbn [andb].
    assert (alive (EraseResolved s c) = 0%nat) as Hal.
    { unfold alive. rewrite Hkf. rewrite decide_False; [done|set_solver]. }
    assert ((if bool_decide (s ∈ Ledger.keys (m_seqLastDelay c) ∪
                                 Ledger.keys (m_seqFullDelay c))
             then 1 else 0)%nat = alive c) as ->.
    { unfold alive. rewrite <- Hd.
      destruct (decide (s ∈ Ledger.keys (m_seqFullDelay c))).
      - rewrite bool_decide_eq_true_2; [done|set_solver].
      - rewrite bool_decide_eq_false_2; [done|set_solver]. }
    constructor; cbn [fst snd]; rewrite ?Hal; [|lia|lia].
    rewrite Hkc, Hkr. set_solver.
  - rewrite bool_decide_eq_false_2 by done. cbn [andb].
    assert (alive (EraseResolved s' c) = alive c) as Hal.
    { apply alive_ext. rewrite Hkf. set_solver. }
    constructor; cbn [fst snd]; rewrite ?Hal; [|lia|lia].
    rewrite Hkc, Hkr. set_solver.
Qed.

Lemma handle_once_inv (i : Input) (c : Consumer) (a : nat * nat * nat) :
  well_formed c → ledger_inv c → once_inv c a →
  once_inv (exec (handle i) c).1 (once_upd a (mkStep c i (exec (handle i) c).2)).
Proof.
  intros Hwf Hinv HQ. destruct i as [| |now|now rto|now tag name]; cbn [handle].
  - change (exec StartApplication c) with (set_active true c, [ScheduleNextPacket]).
    destruct HQ as [Hp Hl Ht]. destruct a as [[n r] m].
    constructor; unfold once_upd, lifetime_step, resolutions, alive in *; cbn in *;
      repeat case_decide; first [done|lia].
  - change (exec StopApplication c) with (set_active false c, [CancelSend]).
    destruct HQ as [Hp Hl Ht]. destruct a as [[n r] m].
    constructor; unfold once_upd, lifetime_step, resolutions, alive in *; cbn in *;
      repeat case_decide; first [done|lia].
  - by apply SendPacket_once_inv.
  - assert (once_upd a (mkStep c (RetxCheck now rto) (exec (CheckRetxTimeout now rto) c).2)
            = ((a.1.1 + (0 + occurrences (RttDiscardInterestBySeq s)
                               (exec (CheckRetxTimeout now rto) c).2))%nat,
               (a.1.2 + (0 + occurrences (RttDiscardInterestBySeq s)
                               (exec (CheckRetxTimeout now rto) c).2))%nat, a.2)) as ->.
    { unfold once_upd, lifetime_step, resolutions, acked, discards, minted.
      cbn [input pre out fst snd]. by rewrite !decide_False by done. }
    apply (CheckRetxTimeout_invariant (once_inv_check a)
             (λ d evs, (d + occurrences (RttDiscardInterestBySeq s) evs)%nat)).
    + intros d. cbn. lia.
    + intros d l1 l2. rewrite occurrences_app. lia.
    + intros d t. cbn. rewrite decide_False by done. lia.
    + intros c0 d l H. destruct H as [H1 H2 H3]. by constructor.
    + intros s' c0 d _ Hdom _ Hnr _ Hinv0 H0. by apply OnTimeout_once_inv.
    + done.
    + done.
    + unfold once_inv_check. destruct a as [[n r] m]. cbn [fst snd].
      by rewrite !Nat.add_0_r.
  - by apply OnData_once_inv.
Qed.

End resolved_once.

Lemma foldl_once_upd (s : N) (h : list Step) (n r m : nat) :
  foldl (once_upd s) (n, r, m) h =
  (foldl (lifetime_step s) n h,
   foldl (λ r st, (r + resolutions s st)%nat) r h,
   foldl (λ m st, if decide (minted st = Some s) then S m else m) m h).
Proof.
  revert n r m. induction h as [|st h IH]; intros n r m; [done|].
  cbn [foldl]. unfold once_upd at 2. cbn [fst snd]. by rewrite IH.
Qed.

(** C8.  In every run of the consumer (sends, timeout checks, Data packets,
    in any order), a sequence number is resolved, that is acknowledged with
    a delay trace or discarded by [OnTimeout], at most once between two mints
    of that number; over the whole run it is resolved at most as often as it
    is minted, so at most once when it is minted once. *)
Theorem resolved_at_most_once
    (startSeq seqMax retxNum : N) (retxTimer : Z) (inputs : list Input) (s : N) :
  startSeq ≤ uint32_max →
  let h := steps inputs (initial startSeq seqMax retxNum retxTimer) in
  (resolved_in_lifetime s h ≤ 1)%nat ∧
  (resolved s h ≤ mints s h)%nat ∧
  ((mints s h ≤ 1)%nat → (resolved s h ≤ 1)%nat).
Proof.
  intros Hs. cbv zeta.
  destruct (initial_inv startSeq seqMax retxNum retxTimer Hs) as [Hwf Hinv].
  assert (once_inv s (initial startSeq seqMax retxNum retxTimer) (0, 0, 0)%nat) as H0.
  { assert (alive s (initial startSeq seqMax retxNum retxTimer) = 0%nat) as Ha.
    { unfold alive. cbn. rewrite keys_nil. by rewrite decide_False by set_solver. }
    constructor; rewrite ?Ha; cbn; [done|lia|lia]. }
  pose proof (run_invariant (once_inv s) (once_upd s)
                (λ i c a, handle_once_inv s i c a) inputs _ _ Hwf Hinv H0) as [_ Hl Ht].
  rewrite foldl_once_upd in Hl, Ht. cbn [fst snd] in Hl, Ht.
  unfold resolved_in_lifetime, resolved, mints. lia.
Qed.

Lemma resolved_at_most_once_witness :
  0 ≤ uint32_max ∧
  (resolved_in_lifetime 0
     (steps [Start; Tick 0; Data 10 0 0; Data 20 0 0; RetxCheck 100 10]
            (initial 0 5 3 50)) ≤ 1)%nat.
Proof.
  assert (0 ≤ uint32_max) as H0 by (vm_compute; discriminate).
  split; [exact H0|].
  exact (proj1 (resolved_at_most_once 0 5 3 50
                  [Start; Tick 0; Data 10 0 0; Data 20 0 0; RetxCheck 100 10] 0 H0)).
Defined.

Example resolved_once_acked :
  let h := steps [Start; Tick 0; Data 10 0 0; Data 20 0 0] (initial 0 5 3 50) in
  resolved 0 h = 1%nat ∧ mints 0 h = 1%nat ∧ resolved 1 h = 0%nat.
Proof. vm_compute. done. Qed.

Example resolved_once_discarded :
  let h := steps scenario_A (initial 0 1 3 50) in
  resolved 0 h = 1%nat ∧ mints 0 h = 1%nat.
Proof. vm_compute. done. Qed.

(** ** C9: the sequence numbers that are minted *)

(** The sequences minted during a run, in order. *)
Definition minted_list (h : list Step) : list N := omap minted h.

(** [n] successive values of the counter [m_seq], from [a]. *)
Fixpoint counter_values (a : N) (n : nat) : list N :=
  match n with
  | O => []
  | S n' => a :: counter_values (wrap32 (a + 1)) n'
  end.

Lemma counter_values_bounds (a : N) (n : nat) :
  a + N.of_nat n ≤ 4294967296 →
  Forall (λ k, a ≤ k < a + N.of_nat n) (counter_values a n).
Proof.
  revert a. induction n as [|n IH]; intros a Ha; [constructor|].
  cbn [counter_values]. constructor; [lia|].
  destruct n as [|n]; [constructor|].
  assert (wrap32 (a + 1) = a + 1) as Hw.
  { apply wrap32_small. unfold uint32_max. lia. }
  rewrite Hw. eapply Forall_impl; [apply IH; lia|]. simpl. intros k ?. lia.
Qed.

Lemma counter_values_sorted (a : N) (n : nat) :
  a + N.of_nat n ≤ 4294967296 → StronglySorted N.lt (counter_values a n).
Proof.
  revert a. induction n as [|n IH]; intros a Ha; [constructor|].
  cbn [counter_values]. destruct n as [|n]; [repeat constructor|].
  assert (wrap32 (a + 1) = a + 1) as Hw.
  { apply wrap32_small. unfold uint32_max. lia. }
  rewrite Hw. constructor; [apply IH; lia|].
  eapply Forall_impl; [apply counter_values_bounds; lia|]. simpl. intros k ?. lia.
Qed.

Lemma StronglySorted_lt_NoDup (l : list N) : StronglySorted N.lt l → NoDup l.
Proof.
  induction 1 as [|x l _ IH Hall]; [apply NoDup_nil_2|].
  apply NoDup_cons. split; [|done].
  intros Hin. eapply Forall_forall in Hall; [|done]. lia.
Qed.

(** What a step does to the counter: a mint takes its value and increments
    it, and only happens below a configured limit; nothing else moves it. *)
Lemma handle_minted (i : Input) (c : Consumer) :
  well_formed c → ledger_inv c →
  let r := exec (handle i) c in
  m_seqMax r.1 = m_seqMax c ∧
  match minted (mkStep c i r.2) with
  | Some k => k = m_seq c ∧ m_seq r.1 = wrap32 (m_seq c + 1) ∧
              (m_seqMax c = uint32_max ∨ m_seq c < m_seqMax c)
  | None => m_seq r.1 = m_seq c
  end.
Proof.
  intros Hwf Hinv. cbv zeta.
  destruct i as [| |now|now rto|now tag name]; cbn [handle minted input pre].
  - done.
  - done.
  - destruct (popped_fields c) as (_ & Hpseq & Hpm & _).
    destruct (SendPacket_paths now c)
      as [c' _ _ _ _ Hs _ Hm _|s' c' Ha Hin Hne Hb Hsent|c1 c' Ha Hnp Hlim -> Hsent].
    + done.
    + by destruct Hsent as (_ & _ & _ & _ & Hs & _ & Hm & _).
    + destruct Hsent as (_ & _ & _ & _ & Hs & _ & Hm & _). cbn in Hs, Hm.
      by rewrite Hs, Hm, Hpm.
  - apply (CheckRetxTimeout_invariant
             (λ c' (_ : unit), m_seqMax c' = m_seqMax c ∧ m_seq c' = m_seq c)
             (λ a _, a)); try done.
    intros s' c0 _ _ _ _ _ _ _ [<- <-].
    destruct (OnTimeout_fields s' c0) as [-> _].
    by destruct (OnTimeout_frame s' c0) as (_ & -> & _).
  - rewrite OnData_exec. by destruct (m_active c).
Qed.

(** The counter after [n] increments. *)
Definition counter_after (a : N) (n : nat) : N := Nat.iter n (λ a, wrap32 (a + 1)) a.

Lemma counter_after_small (a : N) (n : nat) :
  a + N.of_nat n ≤ uint32_max → counter_after a n = a + N.of_nat n.
Proof.
  unfold counter_after. induction n as [|n IH]; intros Ha; simpl; [lia|].
  rewrite IH by lia. rewrite wrap32_small by lia. lia.
Qed.

Lemma minted_list_cons (st : Step) (h : list Step) :
  minted_list (st :: h) =
  match minted st with
  | Some k => k :: minted_list h
  | None => minted_list h
  end.
Proof. reflexivity. Qed.

Lemma minted_list_run (inputs : list Input) (c : Consumer) :
  well_formed c → ledger_inv c →
  let ms := minted_list (steps inputs c) in
  ms = counter_values (m_seq c) (length ms) ∧
  m_seq (final inputs c) = counter_after (m_seq c) (length ms) ∧
  (m_seqMax c < uint32_max →
   ms = [] ∨ m_seq c + N.of_nat (length ms) ≤ m_seqMax c).
Proof.
  revert c. induction inputs as [|i inputs IH]; intros c Hwf Hinv.
  { cbn. split_and!; [done|done|by left]. }
  cbv zeta. cbn [steps final]. rewrite minted_list_cons.
  destruct (handle_inv i c Hwf Hinv) as [Hwf' Hinv'].
  destruct (IH _ Hwf' Hinv') as (IH1 & IH2 & IH3).
  destruct (handle_minted i c Hwf Hinv) as [Hmax Hm].
  destruct (minted (mkStep c i (exec (handle i) c).2)) as [k|].
  - destruct Hm as (-> & Hs & Hlim). cbn [length counter_values].
    rewrite Hs in IH1, IH2, IH3. rewrite Hmax in IH3.
    split_and!.
    + by rewrite <- IH1.
    + rewrite IH2. unfold counter_after. by rewrite Nat.iter_succ_r.
    + intros HL. right.
      assert (m_seq c < m_seqMax c) as Hlt by (destruct Hlim; lia).
      rewrite wrap32_small in IH3 by lia.
      destruct (IH3 HL) as [->|?]; cbn [length]; lia.
  - rewrite Hm in IH1, IH2, IH3. rewrite Hmax in IH3. done.
Qed.

(** Ticks alone, with nothing to retransmit: each one mints the next
    sequence until the limit is reached. *)
Lemma minted_list_ticks (ticks : list Z) (c : Consumer) :
  m_active c = true → m_retxSeqs c = ∅ →
  m_seqMax c < uint32_max → m_seq c ≤ m_seqMax c →
  minted_list (steps (Tick <$> ticks) c) =
  counter_values (m_seq c) (length ticks `min` N.to_nat (m_seqMax c - m_seq c)).
Proof.
  revert c. induction ticks as [|now ticks IH]; intros c Ha Hr HL Hle; [done|].
  rewrite fmap_cons. cbn [steps handle]. rewrite minted_list_cons.
  cbn [minted input pre length].
  destruct (popped_fields c) as (Hpa & _ & Hpm & _).
  destruct (SendPacket_paths now c)
    as [c' Hidle _ _ Hr' Hs _ Hm Ha'|s' c' _ Hin _ _ _|c1 c' _ Hnp Hlim -> Hsent].
  - destruct Hidle as [Hf|(_ & _ & Hge)]; [congruence|].
    rewrite IH; [|congruence|set_solver|congruence|lia].
    rewrite Hs, Hm. replace (m_seqMax c - m_seq c) with 0 by lia.
    cbn. by rewrite !Nat.min_0_r.
  - set_solver.
  - assert (m_seq c < m_seqMax c) as Hlt by (destruct Hlim; lia).
    destruct Hsent as (_ & _ & _ & Hr' & Hs & _ & Hm & Ha'). cbn in Hr', Hs, Hm, Ha'.
    rewrite wrap32_small in Hs by lia.
    rewrite IH; [|congruence| |congruence|lia].
    + rewrite Hs, Hm, Hpm.
      replace (N.to_nat (m_seqMax c - m_seq c))
        with (S (N.to_nat (m_seqMax c - (m_seq c + 1)))) by lia.
      cbn [Nat.min counter_values]. by rewrite wrap32_small by lia.
    + rewrite Hr'. apply nothing_pending_popped; [|done].
      rewrite Hr. set_solver.
Qed.

(** C9, as the code has it.  The sequences a run mints are successive values
    of the 32-bit counter [m_seq], starting at the configured one.  As long
    as the counter has not passed [2^32 - 1] they are strictly increasing and
    each is minted once; with a sequence limit configured that is always so,
    every minted sequence is below the limit, the counter ends where the
    minted sequences end, and a run of enough ticks without retransmissions
    mints exactly the sequences from the first one up to the limit. *)
Theorem minted_sequences
    (startSeq seqMax retxNum : N) (retxTimer : Z) (inputs : list Input) :
  startSeq ≤ uint32_max →
  let c0 := initial startSeq seqMax retxNum retxTimer in
  let ms := minted_list (steps inputs c0) in
  ms = counter_values startSeq (length ms) ∧
  (startSeq + N.of_nat (length ms) ≤ 4294967296 →
     StronglySorted N.lt ms ∧ NoDup ms) ∧
  (seqMax < uint32_max →
     StronglySorted N.lt ms ∧ NoDup ms ∧
     Forall (λ k, startSeq ≤ k < seqMax) ms ∧
     m_seq (final inputs c0) = startSeq + N.of_nat (length ms) ∧
     (∀ ticks : list Z,
        startSeq ≤ seqMax → (N.to_nat (seqMax - startSeq) ≤ length ticks)%nat →
        minted_list (steps (Start :: (Tick <$> ticks)) c0) =
        counter_values startSeq (N.to_nat (seqMax - startSeq)))).
Proof.
  intros Hs. cbv zeta.
  destruct (initial_inv startSeq seqMax retxNum retxTimer Hs) as [Hwf Hinv].
  destruct (minted_list_run inputs _ Hwf Hinv) as (H1 & H2 & H3).
  cbn [initial m_seq m_seqMax] in H1, H2, H3.
  set (ms := minted_list (steps inputs (initial startSeq seqMax retxNum retxTimer))) in *.
  split_and!; [done| |].
  - intros Hn. rewrite H1.
    split; [|apply StronglySorted_lt_NoDup]; by apply counter_values_sorted.
  - intros HL.
    assert (startSeq + N.of_nat (length ms) ≤ uint32_max ∧
            (ms = [] ∨ startSeq + N.of_nat (length ms) ≤ seqMax)) as [Hn Hb].
    { destruct (H3 HL) as [Hnil|Hle]; [|split; [lia|by right]].
      rewrite Hnil. cbn. split; [lia|by left]. }
    assert (startSeq + N.of_nat (length ms) ≤ 4294967296) as Hn'
      by (unfold uint32_max in Hn; lia).
    split_and!.
    + rewrite H1. by apply counter_values_sorted.
    + rewrite H1. by apply StronglySorted_lt_NoDup, counter_values_sorted.
    + destruct Hb as [->|Hb]; [constructor|].
      rewrite H1. eapply Forall_impl; [by apply counter_values_bounds|].
      simpl. intros k ?. lia.
    + rewrite H2. by apply counter_after_small.
    + intros ticks Hle Hlen. cbn [steps handle]. rewrite minted_list_cons.
      cbn [minted input].
      change (exec StartApplication (initial startSeq seqMax retxNum retxTimer))
        with (set_active true (initial startSeq seqMax retxNum retxTimer),
              [ScheduleNextPacket]).
      cbn [fst]. rewrite minted_list_ticks by done. cbn.
      by rewrite Nat.min_r.
Qed.

(** Scenario C: a limit of 5 from sequence 0, and more ticks than that. *)
Definition scenario_C : list Input :=
  [Start; Tick 0; Tick 1; Tick 2; Tick 3; Tick 4; Tick 5; Tick 6; Tick 7].

Lemma minted_sequences_witness :
  0 ≤ uint32_max ∧ 5 < uint32_max ∧
  minted_list (steps scenario_C (initial 0 5 3 50)) = [0; 1; 2; 3; 4] ∧
  Forall (λ k, 0 ≤ k < 5) (minted_list (steps scenario_C (initial 0 5 3 50))).
Proof.
  assert (0 ≤ uint32_max) as H0 by (vm_compute; discriminate).
  assert (5 < uint32_max) as H5 by (vm_compute; reflexivity).
  split_and!; [exact H0|exact H5|vm_compute; reflexivity|].
  exact (proj1 (proj2 (proj2 (proj2 (proj2 (minted_sequences 0 5 3 50 scenario_C H0)) H5)))).
Defined.

(** C9 as stated fails: started at [2^32 - 1] without a limit, the next
    minted sequence is 0, and no retransmission is involved. *)
Lemma minted_sequences_wrap :
  let h := steps [Start; Tick 0; Tick 1] (initial uint32_max uint32_max 3 50) in
  minted_list h = [4294967295; 0] ∧
  concat (out <$> h) =
    [ScheduleNextPacket;
     RttSetInterestInfo 4294967295 1; TransmitInterest 4294967295; ScheduleNextPacket;
     RttSetInterestInfo 0 1; TransmitInterest 0; ScheduleNextPacket] ∧
  ¬ StronglySorted N.lt (minted_list h).
Proof.
  cbv zeta.
  assert (minted_list (steps [Start; Tick 0; Tick 1]
                         (initial uint32_max uint32_max 3 50)) = [4294967295; 0]) as Hm
    by (vm_compute; reflexivity).
  split_and!; [exact Hm|vm_compute; reflexivity|].
  rewrite Hm. intros Hs. apply StronglySorted_inv in Hs as [_ Hall].
  apply Forall_inv in Hall. vm_compute in Hall. discriminate.
Qed.

(** ** The time index stays in ascending order *)

Lemma ascending_not_due (now rto : Z) (l : list SeqTimeout) :
  Ledger.ascending l → Ledger.ascending (not_due now rto l).
Proof.
  induction l as [|e l IH]; [done|]. cbn [not_due].
  case_decide; [|done]. intros [_ ?]. auto.
Qed.

Lemma handle_ascending (i : Input) (c : Consumer) :
  well_formed c → ledger_inv c → Ledger.ascending (m_seqTimeouts c) →
  Ledger.ascending (m_seqTimeouts (exec (handle i) c).1).
Proof.
  intros Hwf Hinv Hasc. destruct i as [| |now|now rto|now tag name]; cbn [handle].
  - done.
  - done.
  - destruct (popped_fields c) as (_ & _ & _ & _ & _ & Hpt & _).
    destruct (m_active c) eqn:Ha; [|by rewrite SendPacket_inactive].
    rewrite SendPacket_active by done.
    destruct (SelectSeq_cases c) as
      [(k & Hb & Hk & ->)|[(Hn & Hmax & Hle & ->)|(Hn & Hmax & ->)]];
      cbn [fst snd selected]; rewrite ?WaitBeforeSendOutInterest_exec; cbn;
      rewrite ?Hpt; try done; by apply ascending_insert.
  - destruct Hwf as [_ _ _ Hu].
    rewrite CheckRetxTimeout_exec by done. cbv zeta. cbn [fst snd].
    rewrite OnTimeouts_seqTimeouts; [by apply ascending_not_due|].
    cbn. by apply keys_due_not_due.
  - rewrite OnData_exec. destruct (m_active c); [|done].
    unfold EraseResolved. cbn. by apply ascending_erase.
Qed.

(** Every consumer a run reaches is well formed, has consistent ledgers and
    a timeout ledger in ascending time order: the hypotheses of the theorems
    above hold wherever the handlers run. *)
Lemma final_reachable
    (startSeq seqMax retxNum : N) (retxTimer : Z) (inputs : list Input) :
  startSeq ≤ uint32_max →
  let c := final inputs (initial startSeq seqMax retxNum retxTimer) in
  well_formed c ∧ ledger_inv c ∧ Ledger.ascending (m_seqTimeouts c).
Proof.
  intros Hs. cbv zeta.
  destruct (initial_inv startSeq seqMax retxNum retxTimer Hs) as [Hwf Hinv].
  assert (Ledger.ascending (m_seqTimeouts (initial startSeq seqMax retxNum retxTimer)))
    as Hasc by done.
  revert Hwf Hinv Hasc. generalize (initial startSeq seqMax retxNum retxTimer).
  induction inputs as [|i inputs IH]; intros c Hwf Hinv Hasc; [done|].
  cbn [final]. destruct (handle_inv i c Hwf Hinv).
  apply IH; [done..|]. by apply handle_ascending.
Qed.

(** * Further properties of the handlers *)

(** ** Lookups in a ledger *)

Lemma find_erase (s k : N) (l : list SeqTimeout) :
  Ledger.find k (Ledger.erase s l) = if decide (k = s) then None else Ledger.find k l.
Proof.
  case_decide as Hk.
  - subst k. apply find_None. rewrite keys_erase. set_solver.
  - induction l as [|e l IH]; [done|]. unfold Ledger.erase in *.
    destruct (decide (seq e = s)) as [He|He].
    + rewrite filter_cons_False by tauto. rewrite IH. simpl.
      rewrite decide_False by congruence. done.
    + rewrite filter_cons_True by done. simpl. by rewrite IH.
Qed.

Lemma find_place (e : SeqTimeout) (k : N) (l : list SeqTimeout) :
  seq e ∉ Ledger.keys l →
  Ledger.find k (Ledger.place e l) = if decide (k = seq e) then Some e else Ledger.find k l.
Proof.
  induction l as [|x l IH]; intros He; simpl.
  - case_decide; [by rewrite decide_True|by rewrite decide_False].
  - rewrite keys_cons in He.
    assert (seq x ≠ seq e) as Hx by set_solver.
    destruct (decide (time x ≤ time e)%Z); simpl.
    + rewrite IH by set_solver. repeat case_decide; congruence.
    + repeat case_decide; congruence.
Qed.

Lemma find_insert (e : SeqTimeout) (k : N) (l : list SeqTimeout) :
  Ledger.find k (Ledger.insert e l) =
  if decide (k = seq e) then
    match Ledger.find k l with
    | Some x => Some x
    | None => Some e
    end
  else Ledger.find k l.
Proof.
  unfold Ledger.insert. destruct (Ledger.find (seq e) l) as [x|] eqn:Hf.
  - case_decide as Hk; [|done]. subst k. by rewrite Hf.
  - rewrite find_place by (by apply find_None).
    case_decide as Hk; [|done]. subst k. by rewrite Hf.
Qed.

(** The least element of a set is its first one. *)
Lemma begin_least (X : gset N) (s : N) :
  s ∈ X → (∀ k, k ∈ X → s ≤ k) → RetxSet.begin X = Some s.
Proof.
  intros Hin Hmin. destruct (RetxSet.begin X) as [x|] eqn:Hb.
  - apply begin_Some in Hb as [Hx Hle].
    specialize (Hle s Hin). specialize (Hmin x Hx). f_equal. lia.
  - apply begin_None in Hb. set_solver.
Qed.

(** ** A Data packet concerns its own sequence only *)

(** X1.  Whatever the state, handling a Data packet, whose name is narrowed
    to the sequence [s], leaves the bookkeeping of every other sequence [k]
    as it was (its timeout, first-send and last-send entries, its counter,
    whether it waits for a resend), leaves the configuration alone, and
    makes no call that names another sequence: the base class gets the
    packet, the traces and the estimator get [s]. *)
Theorem OnData_other_sequences (now tag : Z) (name k : N) (c : Consumer) :
  let s := wrap32 name in
  k ≠ s →
  let r := exec (OnData now tag name) c in
  Ledger.find k (m_seqTimeouts r.1) = Ledger.find k (m_seqTimeouts c) ∧
  Ledger.find k (m_seqFullDelay r.1) = Ledger.find k (m_seqFullDelay c) ∧
  Ledger.find k (m_seqLastDelay r.1) = Ledger.find k (m_seqLastDelay c) ∧
  m_seqRetxCounts r.1 !! k = m_seqRetxCounts c !! k ∧
  (k ∈ m_retxSeqs r.1 ↔ k ∈ m_retxSeqs c) ∧
  m_seq r.1 = m_seq c ∧ m_seqMax r.1 = m_seqMax c ∧
  m_retxNum r.1 = m_retxNum c ∧ m_retxTimer r.1 = m_retxTimer c ∧
  m_active r.1 = m_active c ∧
  Forall (λ e, match e with
               | AppOnData n => n = name
               | RttAckSeq s'
               | LastRetransmittedInterestDataDelay s' _ _
               | FirstInterestDataDelay s' _ _ _ => s' = s
               | _ => False
               end) r.2.
Proof.
  cbv zeta. intros Hk. destruct (m_active c) eqn:Ha.
  - rewrite OnData_active by done. revert Hk.
    generalize (wrap32 name) (to_int tag). intros s hopCount Hk. cbn [fst snd].
    unfold EraseResolved. cbn.
    rewrite !find_erase, !decide_False by done.
    rewrite lookup_delete_ne by done.
    split_and!; try done; [set_solver|].
    constructor; [done|]. apply Forall_app. split; [|by repeat constructor].
    unfold delay_metrics.
    destruct (Ledger.find s (m_seqLastDelay c)), (Ledger.find s (m_seqFullDelay c));
      by repeat constructor.
  - rewrite OnData_inactive by done. cbn [fst snd]. split_and!; try done.
Qed.

Lemma OnData_other_sequences_witness :
  let c := final [Start; Tick 0; Tick 5] (initial 0 5 3 50) in
  1 ≠ wrap32 4294967296 ∧
  Ledger.find 1 (m_seqTimeouts (exec (OnData 10 0 4294967296) c).1) =
    Some (mkSeqTimeout 1 5) ∧
  Ledger.find 0 (m_seqTimeouts (exec (OnData 10 0 4294967296) c).1) = None.
Proof.
  cbv zeta.
  assert (1 ≠ wrap32 4294967296) as H by (vm_compute; discriminate).
  split; [exact H|]. split; [|vm_compute; reflexivity].
  exact (eq_trans
           (proj1 (OnData_other_sequences 10 0 4294967296 1
                     (final [Start; Tick 0; Tick 5] (initial 0 5 3 50)) H))
           eq_refl).
Defined.

(** ** What a send leaves behind *)

(** X2.  Whenever [SendPacket] transmits an Interest for [s], it transmits
    one Interest only, [s] no longer waits for a resend, and [s] is tracked:
    its last-send entry carries the current time, its first-send entry is
    the one it had (the current time when it had none), it has a timeout
    entry and a counter, which went up by one (modulo [2^32]). *)
Theorem SendPacket_tracks (now : Z) (s : N) (c : Consumer) :
  well_formed c →
  let r := exec (SendPacket now) c in
  TransmitInterest s ∈ r.2 →
  r.2 = [RttSetInterestInfo s 1; TransmitInterest s; ScheduleNextPacket] ∧
  (s ∉ m_retxSeqs r.1) ∧
  Ledger.find s (m_seqLastDelay r.1) = Some (mkSeqTimeout s now) ∧
  Ledger.find s (m_seqFullDelay r.1) =
    Some (default (mkSeqTimeout s now) (Ledger.find s (m_seqFullDelay c))) ∧
  s ∈ Ledger.keys (m_seqTimeouts r.1) ∧
  m_seqRetxCounts r.1 !! s = Some (wrap32 (Counts.get s (m_seqRetxCounts c) + 1)).
Proof.
  intros Hwf. cbv zeta.
  destruct (popped_fields c) as (_ & _ & _ & _ & _ & Hpt & Hpl & Hpf & Hpc).
  destruct (SendPacket_paths now c)
    as [c' _ _ _ _ _ _ _ _|s' c' Ha Hin Hne Hb [-> _]|c1 c' Ha Hnp Hlim -> [-> _]].
  - by intros ?%elem_of_nil.
  - intros Hs. assert (s' = s) as ->.
    { rewrite !elem_of_cons, elem_of_nil in Hs. naive_solver. }
    rewrite WaitBeforeSendOutInterest_exec. cbn.
    rewrite !find_insert, find_erase, !decide_True by done.
    rewrite keys_insert. unfold Counts.incr. rewrite lookup_insert_eq.
    split_and!;
      first [done|set_solver|by destruct (Ledger.find s (m_seqFullDelay c))].
  - intros Hs. assert (m_seq c = s) as Hs'.
    { rewrite !elem_of_cons, elem_of_nil in Hs. naive_solver. }
    rewrite WaitBeforeSendOutInterest_exec. cbn. rewrite Hpt, Hpl, Hpf, Hpc, Hs'.
    rewrite !find_insert, find_erase, !decide_True by done.
    rewrite keys_insert. unfold Counts.incr. rewrite lookup_insert_eq.
    rewrite nothing_pending_popped; [|by destruct Hwf|done].
    split_and!;
      first [done|set_solver|by destruct (Ledger.find s (m_seqFullDelay c))].
Qed.

Lemma SendPacket_tracks_witness :
  let c := final [Start; Tick 0; RetxCheck 100 10] (initial 0 5 3 50) in
  well_formed c ∧ TransmitInterest 0 ∈ (exec (SendPacket 100) c).2 ∧
  Ledger.find 0 (m_seqLastDelay (exec (SendPacket 100) c).1) = Some (mkSeqTimeout 0 100).
Proof.
  cbv zeta.
  assert (well_formed (final [Start; Tick 0; RetxCheck 100 10] (initial 0 5 3 50))) as Hwf.
  { apply final_inv; apply initial_inv; vm_compute; discriminate. }
  assert (TransmitInterest 0 ∈
            (exec (SendPacket 100)
               (final [Start; Tick 0; RetxCheck 100 10] (initial 0 5 3 50))).2) as Hin
    by (apply (bool_decide_unpack _); vm_compute; reflexivity).
  split_and!; [exact Hwf|exact Hin|].
  exact (proj1 (proj2 (proj2 (SendPacket_tracks 100 0 _ Hwf Hin)))).
Defined.

(** ** Send, timeout, resend, Data *)

(** X3.  A sequence without ledger entries is sent at [t1], times out below
    the budget and is resent at [t2]; the Data packet that then arrives at
    [now] is traced with [now - t2] as the delay since the last send and
    [now - t1] as the delay since the first one, with a count of 2. *)
Theorem delays_after_retransmission (t1 t2 now tag : Z) (name : N) (c : Consumer) :
  let s := wrap32 name in
  let hopCount := to_int tag in
  m_active c = true → 1 < m_retxNum c →
  s ∉ dom (m_seqRetxCounts c) → s ∉ Ledger.keys (m_seqFullDelay c) →
  let c1 := (exec (WaitBeforeSendOutInterest t1 s) c).1 in
  let c2 := (exec (OnTimeout s) c1).1 in
  let c3 := (exec (WaitBeforeSendOutInterest t2 s) c2).1 in
  (exec (OnTimeout s) c1).2 = [RttIncreaseMultiplier; RttSentSeq s 1; ScheduleNextPacket] ∧
  (exec (OnData now tag name) c3).2 =
    [AppOnData name;
     LastRetransmittedInterestDataDelay s (now - t2) hopCount;
     FirstInterestDataDelay s (now - t1) 2 hopCount;
     RttAckSeq s].
Proof.
  cbv zeta. set (s := wrap32 name). set (hopCount := to_int tag).
  intros Ha Hbudget Hc Hf.
  rewrite (WaitBeforeSendOutInterest_exec t1). cbn [fst].
  assert (Counts.get s (Counts.incr s (m_seqRetxCounts c)) = 1) as Hone.
  { rewrite get_incr, decide_True by done. by rewrite get_absent. }
  rewrite OnTimeout_retry by (cbn; by rewrite Hone).
  split; [done|]. cbn [fst].
  rewrite (WaitBeforeSendOutInterest_exec t2). cbn [fst].
  rewrite OnData_active by done. fold s hopCount. clearbody s hopCount.
  unfold delay_metrics. cbn.
  rewrite !find_insert, !find_erase, !decide_True by done.
  apply find_None in Hf. rewrite Hf.
  rewrite get_incr, decide_True by done. rewrite get_touch, Hone. done.
Qed.

Lemma delays_after_retransmission_witness :
  let c := set_active true (initial 0 5 3 50) in
  m_active c = true ∧ 1 < m_retxNum c ∧
  (exec (OnData 30 1 0)
     (exec (WaitBeforeSendOutInterest 20 0)
        (exec (OnTimeout 0) (exec (WaitBeforeSendOutInterest 5 0) c).1).1).1).2 =
  [AppOnData 0; LastRetransmittedInterestDataDelay 0 10 1;
   FirstInterestDataDelay 0 25 2 1; RttAckSeq 0].
Proof.
  cbv zeta.
  assert (m_active (set_active true (initial 0 5 3 50)) = true) as Ha by reflexivity.
  assert (1 < m_retxNum (set_active true (initial 0 5 3 50))) as Hb by reflexivity.
  assert (0 ∉ dom (m_seqRetxCounts (set_active true (initial 0 5 3 50)))) as Hc
    by (apply (bool_decide_unpack _); vm_compute; reflexivity).
  assert (0 ∉ Ledger.keys (m_seqFullDelay (set_active true (initial 0 5 3 50)))) as Hf
    by (apply (bool_decide_unpack _); vm_compute; reflexivity).
  split_and!; [exact Ha|exact Hb|].
  exact (proj2 (delays_after_retransmission 5 20 30 1 0 _ Ha Hb Hc Hf)).
Defined.

(** X4.  When [OnTimeout] queues [s], a sequence other than the sentinel
    [2^32 - 1], for a resend and no smaller sequence is waiting, the next scheduling tick of an active consumer resends [s]: it
    mints nothing, takes [s] out of the retransmission set, counts the send
    and gives [s] a timeout entry again. *)
Theorem retry_is_resent (now : Z) (s : N) (c : Consumer) :
  m_active c = true → Counts.get s (m_seqRetxCounts c) < m_retxNum c →
  s ≠ uint32_max → (∀ k, k ∈ m_retxSeqs c → s ≤ k) →
  let c1 := (exec (OnTimeout s) c).1 in
  let r := exec (SendPacket now) c1 in
  r.2 = [RttSetInterestInfo s 1; TransmitInterest s; ScheduleNextPacket] ∧
  m_retxSeqs r.1 = m_retxSeqs c ∖ {[s]} ∧ m_seq r.1 = m_seq c ∧
  s ∈ Ledger.keys (m_seqTimeouts r.1) ∧
  Counts.get s (m_seqRetxCounts r.1) = wrap32 (Counts.get s (m_seqRetxCounts c) + 1).
Proof.
  intros Ha Hlt Hs Hmin. cbv zeta.
  rewrite OnTimeout_retry by done. cbn [fst].
  set (c1 := set_retxSeqs _ _).
  assert (RetxSet.begin (m_retxSeqs c1) = Some s) as Hb.
  { apply begin_least; cbn; [set_solver|].
    intros k [->%elem_of_singleton|Hk]%elem_of_union; [lia|auto]. }
  rewrite SendPacket_active by done.
  rewrite (SelectSeq_resend s) by done. cbn [fst snd selected app].
  rewrite WaitBeforeSendOutInterest_exec. unfold popped. rewrite Hb. cbn.
  rewrite keys_insert, get_incr, decide_True, get_touch by done.
  split_and!; try done; [|set_solver].
  apply set_eq. intros k. destruct (decide (k = s)); set_solver.
Qed.

Lemma retry_is_resent_witness :
  let c := final [Start; Tick 0] (initial 0 5 3 50) in
  m_active c = true ∧ Counts.get 0 (m_seqRetxCounts c) < m_retxNum c ∧
  (exec (SendPacket 100) (exec (OnTimeout 0) c).1).2 =
  [RttSetInterestInfo 0 1; TransmitInterest 0; ScheduleNextPacket].
Proof.
  cbv zeta.
  assert (m_active (final [Start; Tick 0] (initial 0 5 3 50)) = true) as Ha
    by (vm_compute; reflexivity).
  assert (Counts.get 0 (m_seqRetxCounts (final [Start; Tick 0] (initial 0 5 3 50)))
          < m_retxNum (final [Start; Tick 0] (initial 0 5 3 50))) as Hlt
    by (vm_compute; reflexivity).
  assert (0 ≠ uint32_max) as Hs by discriminate.
  assert (∀ k, k ∈ m_retxSeqs (final [Start; Tick 0] (initial 0 5 3 50)) → 0 ≤ k) as Hmin
    by (intros; lia).
  split_and!; [exact Ha|exact Hlt|].
  exact (proj1 (retry_is_resent 100 0 _ Ha Hlt Hs Hmin)).
Defined.

(** X5.  Once [OnTimeout] has given a sequence up, a Data packet that still
    arrives for it fires neither delay trace: an active consumer only makes
    the calls [App::OnData] and [AckSeq], a stopped one none. *)
Theorem discarded_then_data (now tag : Z) (name : N) (c : Consumer) :
  let s := wrap32 name in
  ¬ Counts.get s (m_seqRetxCounts c) < m_retxNum c →
  let c1 := (exec (OnTimeout s) c).1 in
  (exec (OnTimeout s) c).2 = [RttIncreaseMultiplier; RttDiscardInterestBySeq s] ∧
  (exec (OnData now tag name) c1).2 =
    if m_active c then [AppOnData name; RttAckSeq s] else [].
Proof.
  cbv zeta. set (s := wrap32 name).
  intros Hge. rewrite OnTimeout_discard by done. cbn [fst snd].
  split; [done|]. set (c1 := set_seqTimeouts _ _).
  assert (m_active c1 = m_active c) as Ha by done.
  destruct (m_active c) eqn:Hact.
  - rewrite OnData_active by done. fold s. clearbody s.
    cbn [snd]. unfold delay_metrics, c1. cbn.
    by rewrite !find_erase, !decide_True by done.
  - by rewrite OnData_inactive.
Qed.

Lemma discarded_then_data_witness :
  let c := final [Start; Tick 0] (initial 0 5 1 50) in
  ¬ Counts.get 0 (m_seqRetxCounts c) < m_retxNum c ∧
  (exec (OnData 200 0 0) (exec (OnTimeout 0) c).1).2 = [AppOnData 0; RttAckSeq 0].
Proof.
  cbv zeta.
  assert (¬ Counts.get 0 (m_seqRetxCounts (final [Start; Tick 0] (initial 0 5 1 50)))
            < m_retxNum (final [Start; Tick 0] (initial 0 5 1 50))) as Hge
    by (vm_compute; discriminate).
  split; [exact Hge|].
  exact (proj2 (discarded_then_data 200 0 0 _ Hge)).
Defined.

(** X6.  A Data packet cancels the pending resend of its sequence: the tick
    that follows an [OnData] for [s] on an active consumer sends an Interest
    for [s] only if [s] is the fresh sequence it mints. *)
Theorem acked_not_resent (now now' tag : Z) (name : N) (c : Consumer) :
  let s := wrap32 name in
  m_active c = true →
  let c1 := (exec (OnData now tag name) c).1 in
  TransmitInterest s ∈ (exec (SendPacket now') c1).2 →
  s = m_seq c ∧ minted_at c1 = Some s.
Proof.
  cbv zeta. intros Ha. rewrite OnData_active by done.
  generalize (wrap32 name). intros s. cbn [fst].
  destruct (EraseResolved_fields s c) as (_ & _ & _ & _ & Hr & Hs & _).
  destruct (SendPacket_paths now' (EraseResolved s c))
    as [c' _ _ _ _ _ _ _ _|s' c' _ Hin _ _ _|c1 c' _ _ _ _ _].
  - by intros ?%elem_of_nil.
  - intros Hin'. assert (s' = s) as ->.
    { rewrite !elem_of_cons, elem_of_nil in Hin'. naive_solver. }
    rewrite Hr in Hin. set_solver.
  - intros Hin'. assert (m_seq (EraseResolved s c) = s) as Heq.
    { rewrite !elem_of_cons, elem_of_nil in Hin'. naive_solver. }
    rewrite Heq. split; [|done]. by rewrite <- Hs.
Qed.

Lemma acked_not_resent_witness :
  let c := final [Start; Tick 0] (initial 0 5 3 50) in
  m_active c = true ∧
  TransmitInterest 1 ∈ (exec (SendPacket 120) (exec (OnData 110 0 1) c).1).2 ∧
  1 = m_seq c.
Proof.
  cbv zeta.
  assert (m_active (final [Start; Tick 0] (initial 0 5 3 50)) = true)
    as Ha by (vm_compute; reflexivity).
  assert (TransmitInterest 1 ∈
          (exec (SendPacket 120)
             (exec (OnData 110 0 1)
                (final [Start; Tick 0] (initial 0 5 3 50))).1).2) as Hin.
  { replace (exec (SendPacket 120) _).2
      with [RttSetInterestInfo 1 1; TransmitInterest 1; ScheduleNextPacket]
      by (vm_compute; reflexivity).
    apply elem_of_cons. right. apply elem_of_cons. by left. }
  split_and!; [exact Ha|exact Hin|].
  exact (proj1 (acked_not_resent 110 120 0 1 _ Ha Hin)).
Defined.

(** ** The timeout scan, without assumptions on the ledger *)

Lemma CheckRetxTimeout_unfold (now rto : Z) (c : Consumer) :
  exec (CheckRetxTimeout now rto) c =
  let r := exec (CheckRetxTimeout_loop (length (m_seqTimeouts c)) now rto) c in
  (r.1, r.2 ++ [ScheduleRetx (m_retxTimer r.1)]).
Proof.
  unfold CheckRetxTimeout.
  rewrite exec_gets_bind, exec_unit_bind, exec_gets_bind. reflexivity.
Qed.

Lemma OnTimeout_log_head (s : N) (c : Consumer) :
  ∃ evs, (exec (OnTimeout s) c).2 = RttIncreaseMultiplier :: evs.
Proof.
  destruct (decide (Counts.get s (m_seqRetxCounts c) < m_retxNum c)) as [Hlt|Hge].
  - rewrite OnTimeout_retry by done. by eexists.
  - rewrite OnTimeout_discard by done. by eexists.
Qed.

(** X7.  [CheckRetxTimeout] leaves the consumer as it is and only re-arms
    its timer exactly when the oldest timeout entry, if there is one, is not
    yet due. *)
Theorem CheckRetxTimeout_idle (now rto : Z) (c : Consumer) :
  exec (CheckRetxTimeout now rto) c = (c, [ScheduleRetx (m_retxTimer c)]) ↔
  ∀ e, head (m_seqTimeouts c) = Some e → (now < time e + rto)%Z.
Proof.
  rewrite CheckRetxTimeout_unfold. cbv zeta.
  destruct (m_seqTimeouts c) as [|e l] eqn:Ht.
  { cbn [length]. rewrite CheckRetxTimeout_loop_O. cbn. naive_solver. }
  cbn [length]. rewrite CheckRetxTimeout_loop_S, Ht. cbn [head].
  case_decide as Hd.
  - cbv zeta. cbn [fst snd]. split.
    + intros Heq. exfalso.
      destruct (OnTimeout_log_head (seq e) (set_seqTimeouts l c)) as [evs Hevs].
      rewrite Hevs in Heq. by inversion Heq.
    + intros Hn. specialize (Hn e eq_refl). lia.
  - cbn. split; [|done]. intros _ e' [= <-]. lia.
Qed.

(** The calls that a timeout scan of the consumer [c] can make into the
    estimator and the scheduler, before it re-arms its own timer. *)
Definition timeout_call (c : Consumer) (e : Event) : Prop :=
  e = RttIncreaseMultiplier ∨ e = ScheduleNextPacket ∨
  ∃ s, s ∈ Ledger.keys (m_seqTimeouts c) ∧
       (e = RttSentSeq s 1 ∨ e = RttDiscardInterestBySeq s).

Lemma timeout_call_mono (c c' : Consumer) (e : Event) :
  Ledger.keys (m_seqTimeouts c') ⊆ Ledger.keys (m_seqTimeouts c) →
  timeout_call c' e → timeout_call c e.
Proof. unfold timeout_call. naive_solver. Qed.

(** What the loop of the scan can change. *)
Record scan_frame (c c' : Consumer) : Prop := mk_scan_frame {
  scan_active : m_active c' = m_active c;
  scan_seq : m_seq c' = m_seq c;
  scan_seqMax : m_seqMax c' = m_seqMax c;
  scan_retxNum : m_retxNum c' = m_retxNum c;
  scan_retxTimer : m_retxTimer c' = m_retxTimer c;
  scan_timeouts : Ledger.keys (m_seqTimeouts c') ⊆ Ledger.keys (m_seqTimeouts c);
  scan_full : Ledger.keys (m_seqFullDelay c') ⊆ Ledger.keys (m_seqFullDelay c);
  scan_last : Ledger.keys (m_seqLastDelay c') ⊆ Ledger.keys (m_seqLastDelay c);
  scan_retx_grows : m_retxSeqs c ⊆ m_retxSeqs c';
  scan_retx_from : m_retxSeqs c' ⊆ m_retxSeqs c ∪ Ledger.keys (m_seqTimeouts c)
}.

Lemma OnTimeout_scan (e : SeqTimeout) (l : list SeqTimeout) (c : Consumer) :
  m_seqTimeouts c = e :: l →
  let r := exec (OnTimeout (seq e)) (set_seqTimeouts l c) in
  scan_frame c r.1 ∧ ∀ ev, ev ∈ r.2 → timeout_call c ev.
Proof.
  intros Ht. cbv zeta.
  assert (seq e ∈ Ledger.keys (m_seqTimeouts c)) as He by (rewrite Ht, keys_cons; set_solver).
  assert (Ledger.keys l ⊆ Ledger.keys (m_seqTimeouts c)) as Hl
    by (rewrite Ht, keys_cons; set_solver).
  destruct (decide (Counts.get (seq e) (m_seqRetxCounts (set_seqTimeouts l c))
                    < m_retxNum (set_seqTimeouts l c))) as [Hlt|Hge].
  - rewrite OnTimeout_retry by done. cbn [fst snd]. split.
    + constructor; cbn; set_solver.
    + intros ev. rewrite !elem_of_cons, elem_of_nil. unfold timeout_call. naive_solver.
  - rewrite OnTimeout_discard by done. cbn [fst snd]. split.
    + constructor; cbn; rewrite ?keys_erase; set_solver.
    + intros ev. rewrite !elem_of_cons, elem_of_nil. unfold timeout_call. naive_solver.
Qed.

Lemma scan_frame_trans (c1 c2 c3 : Consumer) :
  scan_frame c1 c2 → scan_frame c2 c3 → scan_frame c1 c3.
Proof.
  intros [] []. constructor; try congruence; set_solver.
Qed.

Lemma scan_frame_refl (c : Consumer) : scan_frame c c.
Proof. constructor; first [done|set_solver]. Qed.

Lemma CheckRetxTimeout_loop_scan (fuel : nat) (now rto : Z) (c : Consumer) :
  let r := exec (CheckRetxTimeout_loop fuel now rto) c in
  scan_frame c r.1 ∧ ∀ ev, ev ∈ r.2 → timeout_call c ev.
Proof.
  revert c. induction fuel as [|fuel IH]; intros c; cbv zeta.
  { rewrite CheckRetxTimeout_loop_O. cbn. split; [apply scan_frame_refl|].
    by intros ev ?%elem_of_nil. }
  rewrite CheckRetxTimeout_loop_S.
  destruct (m_seqTimeouts c) as [|e l] eqn:Ht.
  { cbn. split; [apply scan_frame_refl|]. by intros ev ?%elem_of_nil. }
  case_decide; [|cbn; split; [apply scan_frame_refl|by intros ev ?%elem_of_nil]].
  cbv zeta. cbn [fst snd].
  destruct (OnTimeout_scan e l c Ht) as [H1 He1].
  destruct (IH (exec (OnTimeout (seq e)) (set_seqTimeouts l c)).1) as [H2 He2].
  split; [by eapply scan_frame_trans|].
  intros ev [Hev|Hev]%elem_of_app; [by apply He1|].
  eapply timeout_call_mono; [|by apply He2]. by destruct H1.
Qed.

Lemma scan_calls (now rto : Z) (c : Consumer) :
  ∃ evs, (exec (CheckRetxTimeout now rto) c).2 = evs ++ [ScheduleRetx (m_retxTimer c)] ∧
         ∀ ev, ev ∈ evs → timeout_call c ev.
Proof.
  rewrite CheckRetxTimeout_unfold. cbv zeta. cbn [fst snd].
  destruct (CheckRetxTimeout_loop_scan (length (m_seqTimeouts c)) now rto c) as [Hf He].
  eexists. split; [by rewrite (scan_retxTimer _ _ Hf)|done].
Qed.

Lemma scan_state (now rto : Z) (c : Consumer) :
  scan_frame c (exec (CheckRetxTimeout now rto) c).1.
Proof.
  rewrite CheckRetxTimeout_unfold. cbv zeta. cbn [fst snd].
  apply CheckRetxTimeout_loop_scan.
Qed.

(** X8.  A timeout scan, whatever the state it finds, touches neither the
    flag, the counter nor the configuration; it adds no entry to a ledger;
    the sequences it queues for a resend had a timeout entry and it takes
    none out of the retransmission set; and all it calls is the estimator and
    the scheduling tick for sequences with a timeout entry, and at the end
    its own re-arming with the configured interval.  It sends no Interest
    and fires no trace itself. *)
Theorem CheckRetxTimeout_frame (now rto : Z) (c : Consumer) :
  let r := exec (CheckRetxTimeout now rto) c in
  scan_frame c r.1 ∧
  ∃ evs, r.2 = evs ++ [ScheduleRetx (m_retxTimer c)] ∧
         (∀ ev, ev ∈ evs → timeout_call c ev) ∧
         (∀ s, TransmitInterest s ∉ r.2) ∧
         (∀ ev, ev ∈ r.2 → is_delay_metric ev = false).
Proof.
  cbv zeta. rewrite CheckRetxTimeout_unfold. cbv zeta. cbn [fst snd].
  destruct (CheckRetxTimeout_loop_scan (length (m_seqTimeouts c)) now rto c) as [Hf He].
  split; [done|]. eexists. split; [by rewrite (scan_retxTimer _ _ Hf)|].
  split; [done|]. split.
  - intros s [Hin|Hin]%elem_of_app.
    + apply He in Hin. unfold timeout_call in Hin. naive_solver.
    + by apply list_elem_of_singleton in Hin.
  - intros ev [Hin|Hin]%elem_of_app.
    + apply He in Hin. unfold timeout_call in Hin. naive_solver.
    + by apply list_elem_of_singleton in Hin as ->.
Qed.

Lemma OnTimeout_set_active (b : bool) (s : N) (c : Consumer) :
  exec (OnTimeout s) (set_active b c) =
  (set_active b (exec (OnTimeout s) c).1, (exec (OnTimeout s) c).2).
Proof.
  destruct (decide (Counts.get s (m_seqRetxCounts c) < m_retxNum c)) as [Hlt|Hge].
  - by rewrite !OnTimeout_retry by done.
  - by rewrite !OnTimeout_discard by done.
Qed.

Lemma CheckRetxTimeout_loop_set_active (b : bool) (fuel : nat) (now rto : Z) (c : Consumer) :
  exec (CheckRetxTimeout_loop fuel now rto) (set_active b c) =
  (set_active b (exec (CheckRetxTimeout_loop fuel now rto) c).1,
   (exec (CheckRetxTimeout_loop fuel now rto) c).2).
Proof.
  revert c. induction fuel as [|fuel IH]; intros c.
  { by rewrite !CheckRetxTimeout_loop_O. }
  rewrite !CheckRetxTimeout_loop_S.
  change (m_seqTimeouts (set_active b c)) with (m_seqTimeouts c).
  destruct (m_seqTimeouts c) as [|e l]; [done|].
  case_decide; [|done]. cbv zeta.
  change (set_seqTimeouts l (set_active b c)) with (set_active b (set_seqTimeouts l c)).
  rewrite OnTimeout_set_active. cbn [fst snd]. by rewrite IH.
Qed.

(** X9.  The timeout scan does not look at the active flag: on a stopped
    consumer it runs [OnTimeout] for the same sequences, makes the same
    calls and re-arms itself as on a running one ([StopApplication] cancels
    the send event only). *)
Theorem CheckRetxTimeout_when_stopped (now rto : Z) (c : Consumer) :
  let r := exec (CheckRetxTimeout now rto) c in
  let r' := exec (CheckRetxTimeout now rto) (exec StopApplication c).1 in
  r'.1 = set_active false r.1 ∧ r'.2 = r.2 ∧
  (exec StopApplication c).2 = [CancelSend].
Proof.
  cbv zeta. change (exec StopApplication c) with (set_active false c, [CancelSend]).
  cbn [fst snd]. rewrite !CheckRetxTimeout_unfold. cbv zeta.
  change (m_seqTimeouts (set_active false c)) with (m_seqTimeouts c).
  by rewrite CheckRetxTimeout_loop_set_active.
Qed.

(** ** A consumer that is not active *)

(** The inputs that carry traffic: the send event and arriving Data. *)
Definition is_traffic (i : Input) : bool :=
  match i with
  | Tick _ | Data _ _ _ => true
  | _ => false
  end.

(** X10.  Until it is started (or once it is stopped) a consumer ignores
    every send event and every Data packet: over any run of them its state
    stays as it is and it makes no call at all. *)
Theorem inactive_ignores_traffic (inputs : list Input) (c : Consumer) :
  m_active c = false → forallb is_traffic inputs = true →
  final inputs c = c ∧ log inputs c = [].
Proof.
  intros Ha. induction inputs as [|i inputs IH]; [done|].
  cbn [forallb]. intros [Hi Hrest]%andb_prop. specialize (IH Hrest).
  assert (exec (handle i) c = (c, [])) as Hstep.
  { destruct i; try discriminate; cbn [handle].
    - by apply SendPacket_inactive.
    - by apply OnData_inactive. }
  unfold log. cbn [final steps fmap list_fmap concat]. rewrite Hstep. cbn [fst snd].
  destruct IH as [IH1 IH2]. split; [done|]. exact IH2.
Qed.

Lemma inactive_ignores_traffic_witness :
  final [Tick 0; Data 3 1 0; Tick 10] (initial 0 5 3 50) = initial 0 5 3 50 ∧
  log [Tick 0; Data 3 1 0; Tick 10] (initial 0 5 3 50) = [].
Proof.
  apply (inactive_ignores_traffic [Tick 0; Data 3 1 0; Tick 10] (initial 0 5 3 50));
    reflexivity.
Defined.

(** ** The loop of the scan ends *)

Lemma CheckRetxTimeout_loop_exit (fuel : nat) (now rto : Z) (c : Consumer) :
  (length (m_seqTimeouts c) ≤ fuel)%nat →
  ∀ e, head (m_seqTimeouts (exec (CheckRetxTimeout_loop fuel now rto) c).1) = Some e →
       (now < time e + rto)%Z.
Proof.
  revert c. induction fuel as [|fuel IH]; intros c Hlen e.
  { rewrite CheckRetxTimeout_loop_O. cbn [fst].
    destruct (m_seqTimeouts c); [done|simpl in Hlen; lia]. }
  rewrite CheckRetxTimeout_loop_S.
  destruct (m_seqTimeouts c) as [|e0 l] eqn:Ht.
  { cbn [fst]. by rewrite Ht. }
  case_decide as Hd.
  - cbv zeta. cbn [fst]. apply IH.
    pose proof (OnTimeout_seqTimeouts_length (seq e0) (set_seqTimeouts l c)) as Hl.
    change (m_seqTimeouts (set_seqTimeouts l c)) with l in Hl.
    simpl in Hlen. lia.
  - cbn [fst]. rewrite Ht. intros [= <-]. lia.
Qed.

(** X11.  The [while] loop of [CheckRetxTimeout] ends: it makes no more
    rounds than the timeout ledger has entries (any larger allowance gives
    the same run), and it is left through its own exits, with the ledger
    empty or its oldest entry not yet due. *)
Theorem CheckRetxTimeout_terminates (now rto : Z) (c : Consumer) (fuel : nat) :
  (length (m_seqTimeouts c) ≤ fuel)%nat →
  exec (CheckRetxTimeout_loop fuel now rto) c =
    exec (CheckRetxTimeout_loop (length (m_seqTimeouts c)) now rto) c ∧
  ∀ e, head (m_seqTimeouts (exec (CheckRetxTimeout now rto) c).1) = Some e →
       (now < time e + rto)%Z.
Proof.
  intros Hlen. split; [by apply CheckRetxTimeout_loop_fuel|].
  rewrite CheckRetxTimeout_unfold. cbv zeta. cbn [fst].
  by apply CheckRetxTimeout_loop_exit.
Qed.

Lemma CheckRetxTimeout_terminates_witness :
  let c := final [Start; Tick 0; Tick 5; Tick 20] (initial 0 5 3 50) in
  exec (CheckRetxTimeout_loop 7 30 20) c = exec (CheckRetxTimeout_loop 3 30 20) c ∧
  head (m_seqTimeouts (exec (CheckRetxTimeout 30 20) c).1) = Some (mkSeqTimeout 2 20).
Proof.
  cbv zeta.
  assert (length (m_seqTimeouts (final [Start; Tick 0; Tick 5; Tick 20] (initial 0 5 3 50)))
          ≤ 7)%nat as Hlen by (vm_compute; lia).
  split; [|vm_compute; reflexivity].
  exact (proj1 (CheckRetxTimeout_terminates 30 20 _ 7 Hlen)).
Defined.

(** ** The scan in a reachable state *)

(** X12.  In every state that a run reaches from the constructed consumer
    the timeout ledger is in ascending time order with one entry a sequence,
    so a scan there is complete: it hands to [OnTimeout], oldest first,
    exactly the entries that are due, and no entry that it leaves is due. *)
Theorem scan_of_reachable
    (startSeq seqMax retxNum : N) (retxTimer : Z) (inputs : list Input) (now rto : Z) :
  startSeq ≤ uint32_max →
  let c := final inputs (initial startSeq seqMax retxNum retxTimer) in
  let r := exec (CheckRetxTimeout now rto) c in
  Ledger.ascending (m_seqTimeouts c) ∧ Ledger.unique (m_seqTimeouts c) ∧
  timed_out r.2 = seq <$> filter (λ e, (rto ≤ now - time e)%Z) (m_seqTimeouts c) ∧
  m_seqTimeouts r.1 = filter (λ e, (now - time e < rto)%Z) (m_seqTimeouts c) ∧
  (∀ e, e ∈ m_seqTimeouts r.1 → (now - time e < rto)%Z).
Proof.
  intros Hs. cbv zeta.
  destruct (final_reachable startSeq seqMax retxNum retxTimer inputs Hs) as (Hwf & _ & Hasc).
  pose proof (wf_unique _ Hwf) as Hu.
  set (c := final inputs (initial startSeq seqMax retxNum retxTimer)) in *.
  assert (m_seqTimeouts (exec (CheckRetxTimeout now rto) c).1 =
          filter (λ e, (now - time e < rto)%Z) (m_seqTimeouts c)) as Hleft.
  { destruct (due_ascending now rto _ Hasc) as [_ <-].
    rewrite CheckRetxTimeout_exec by done. cbv zeta. cbn [fst snd].
    rewrite OnTimeouts_seqTimeouts; [done|]. simpl. by apply keys_due_not_due. }
  split_and!; [done|done| |done|].
  - rewrite timed_out_CheckRetxTimeout by done.
    by destruct (due_ascending now rto _ Hasc) as [<- _].
  - intros e. rewrite Hleft. by intros [? _]%list_elem_of_filter.
Qed.

Lemma scan_of_reachable_witness :
  let c := final [Start; Tick 20; Tick 0; Tick 5] (initial 0 5 3 50) in
  0 ≤ uint32_max ∧
  timed_out (exec (CheckRetxTimeout 30 20) c).2 = [1; 2] ∧
  m_seqTimeouts (exec (CheckRetxTimeout 30 20) c).1 = [mkSeqTimeout 0 20].
Proof.
  cbv zeta.
  assert (0 ≤ uint32_max) as H0 by (vm_compute; discriminate).
  pose proof (scan_of_reachable 0 5 3 50 [Start; Tick 20; Tick 0; Tick 5] 30 20 H0)
    as (_ & _ & Ht & Hl & _).
  split; [exact H0|]. split.
  - etransitivity; [exact Ht|]. vm_compute. reflexivity.
  - etransitivity; [exact Hl|]. vm_compute. reflexivity.
Defined.

(** ** Only minted sequences are requested *)

(** The sequences with a retransmission counter and those waiting for a
    resend come from the minted ones [ms]. *)
Record known_inv (c : Consumer) (ms : list N) : Prop := mk_known_inv {
  ki_counts : ∀ k, k ∈ dom (m_seqRetxCounts c) → k ∈ ms;
  ki_retx : m_retxSeqs c ⊆ dom (m_seqRetxCounts c)
}.

Definition option_list' (o : option N) : list N :=
  match o with Some k => [k] | None => [] end.

Lemma OnTimeout_known_inv (ms : list N) (s : N) (c : Consumer) :
  s ∈ dom (m_seqRetxCounts c) → s ∉ m_retxSeqs c →
  known_inv c ms → known_inv (exec (OnTimeout s) c).1 ms.
Proof.
  intros Hdom Hnr [Hc Hr].
  destruct (OnTimeout_fields s c) as [_ [(_ & Hd & _ & _ & _ & Hx)|(_ & Hd & _ & _ & _ & Hx)]].
  - constructor; rewrite ?Hd, ?Hx; [|set_solver].
    intros k [->%elem_of_singleton|Hk]%elem_of_union; auto.
  - constructor; rewrite ?Hd, ?Hx; [|set_solver].
    intros k Hk. apply Hc. set_solver.
Qed.

Lemma handle_known_inv (i : Input) (c : Consumer) (ms : list N) :
  well_formed c → ledger_inv c → known_inv c ms →
  let r := exec (handle i) c in
  known_inv r.1 (ms ++ option_list' (minted (mkStep c i r.2))) ∧
  ∀ k, TransmitInterest k ∈ r.2 → k ∈ ms ++ option_list' (minted (mkStep c i r.2)).
Proof.
  intros Hwf Hinv HQ. pose proof HQ as [Hc Hr]. cbv zeta.
  destruct i as [| |now|now rto|now tag name]; cbn [handle minted input pre option_list'];
    rewrite ?app_nil_r.
  - change (exec StartApplication c) with (set_active true c, [ScheduleNextPacket]).
    split; [done|]. intros k. cbn [snd]. rewrite elem_of_cons, elem_of_nil. naive_solver.
  - change (exec StopApplication c) with (set_active false c, [CancelSend]).
    split; [done|]. intros k. cbn [snd]. rewrite elem_of_cons, elem_of_nil. naive_solver.
  - destruct (popped_fields c) as (_ & _ & _ & _ & _ & _ & _ & _ & Hpc).
    destruct (popped_retxSeqs c) as [Hpr _].
    destruct (SendPacket_paths now c)
      as [c' _ Hcc _ Hrr _ _ _ _|s' c' Ha Hin Hne Hb Hsent|c1 c' Ha Hnp Hlim -> Hsent];
      cbn [option_list']; rewrite ?app_nil_r.
    + split; [|by intros k ?%elem_of_nil].
      constructor; rewrite ?Hcc; [done|set_solver].
    + destruct Hsent as (_ & Hcc & _ & Hrr & _). cbn in Hcc, Hrr.
      assert (s' ∈ ms) as Hs' by (apply Hc; set_solver).
      split.
      * constructor; rewrite ?Hcc, ?Hrr, ?dom_incr; [|set_solver].
        intros k [->%elem_of_singleton|Hk]%elem_of_union; auto.
      * intros k. rewrite !elem_of_cons, elem_of_nil. naive_solver.
    + destruct Hsent as (_ & Hcc & _ & Hrr & _). cbn in Hcc, Hrr. rewrite Hpc in Hcc.
      split.
      * constructor; rewrite ?Hcc, ?Hrr, ?dom_incr; [|set_solver].
        intros k [->%elem_of_singleton|Hk]%elem_of_union; rewrite elem_of_app;
          [right; by apply list_elem_of_singleton|left; auto].
      * intros k. rewrite !elem_of_cons, elem_of_nil, elem_of_app, list_elem_of_singleton.
        naive_solver.
  - split.
    + apply (CheckRetxTimeout_invariant (λ c' (_ : unit), known_inv c' ms) (λ a _, a));
        try done.
      * by intros c0 _ l [].
      * intros s c0 _ _ Hdom _ Hnr _ _. by apply OnTimeout_known_inv.
    + intros k Hk. exfalso.
      destruct (scan_calls now rto c) as (evs & Hevs & Hcalls).
      rewrite Hevs in Hk. apply elem_of_app in Hk as [Hk|Hk].
      * apply Hcalls in Hk. unfold timeout_call in Hk. naive_solver.
      * by apply list_elem_of_singleton in Hk.
  - split.
    + rewrite OnData_exec. destruct (m_active c); [|done].
      destruct (EraseResolved_fields (wrap32 name) c) as (Hd & _ & _ & _ & Hx & _).
      constructor; rewrite ?Hd, ?Hx; [|set_solver].
      intros k Hk. apply Hc. set_solver.
    + intros k Hk%occurrences_elem_of.
      rewrite OnData_occurrences in Hk by done. lia.
Qed.

Lemma run_requests (inputs : list Input) (c : Consumer) (ms : list N) :
  well_formed c → ledger_inv c → known_inv c ms →
  ∀ k, TransmitInterest k ∈ log inputs c → k ∈ ms ++ minted_list (steps inputs c).
Proof.
  revert c ms. induction inputs as [|i inputs IH]; intros c ms Hwf Hinv HQ k.
  { unfold log. cbn. by intros ?%elem_of_nil. }
  unfold log. cbn [steps fmap list_fmap concat out]. rewrite minted_list_cons.
  destruct (handle_inv i c Hwf Hinv) as [Hwf' Hinv'].
  destruct (handle_known_inv i c ms Hwf Hinv HQ) as [HQ' Hout].
  intros [Hk|Hk]%elem_of_app.
  - apply Hout in Hk. destruct (minted _); cbn [option_list'] in Hk;
      rewrite ?app_nil_r in Hk; set_solver.
  - specialize (IH _ _ Hwf' Hinv' HQ' k Hk).
    destruct (minted _); cbn [option_list'] in IH; rewrite ?app_nil_r in IH;
      [by rewrite <- app_assoc in IH|done].
Qed.

Lemma minted_list_bounds (startSeq seqMax retxNum : N) (retxTimer : Z) (inputs : list Input) :
  startSeq ≤ uint32_max → seqMax < uint32_max →
  Forall (λ k, startSeq ≤ k < seqMax)
         (minted_list (steps inputs (initial startSeq seqMax retxNum retxTimer))).
Proof.
  intros Hs HL.
  destruct (initial_inv startSeq seqMax retxNum retxTimer Hs) as [Hwf Hinv].
  destruct (minted_list_run inputs _ Hwf Hinv) as (H1 & _ & H3).
  cbn [initial m_seq m_seqMax] in H1, H3.
  set (ms := minted_list (steps inputs (initial startSeq seqMax retxNum retxTimer))) in *.
  destruct (H3 HL) as [->|Hle]; [constructor|].
  rewrite H1. eapply Forall_impl.
  - apply counter_values_bounds. unfold uint32_max in HL. lia.
  - simpl. intros k ?. lia.
Qed.

(** X13.  The consumer asks only for sequences it has minted: every
    Interest of a run, first send or retransmission, carries a sequence
    number that a scheduling tick of that run took from the counter; with a
    sequence limit configured, all of them lie from the first sequence up to
    the limit. *)
Theorem requests_are_minted
    (startSeq seqMax retxNum : N) (retxTimer : Z) (inputs : list Input) (s : N) :
  startSeq ≤ uint32_max →
  let c0 := initial startSeq seqMax retxNum retxTimer in
  TransmitInterest s ∈ log inputs c0 →
  s ∈ minted_list (steps inputs c0) ∧ (seqMax < uint32_max → startSeq ≤ s < seqMax).
Proof.
  intros Hs. cbv zeta. intros Hin.
  destruct (initial_inv startSeq seqMax retxNum retxTimer Hs) as [Hwf Hinv].
  assert (known_inv (initial startSeq seqMax retxNum retxTimer) []) as H0.
  { constructor; cbn; set_solver. }
  pose proof (run_requests inputs _ [] Hwf Hinv H0 s Hin) as Hm. cbn [app] in Hm.
  split; [done|]. intros HL.
  pose proof (minted_list_bounds startSeq seqMax retxNum retxTimer inputs Hs HL) as Hall.
  rewrite Forall_forall in Hall. by apply Hall.
Qed.

Lemma requests_are_minted_witness :
  0 ≤ uint32_max ∧
  TransmitInterest 0 ∈ log scenario_A (initial 0 1 3 50) ∧
  0 ∈ minted_list (steps scenario_A (initial 0 1 3 50)).
Proof.
  assert (0 ≤ uint32_max) as H0 by (vm_compute; discriminate).
  assert (TransmitInterest 0 ∈ log scenario_A (initial 0 1 3 50)) as Hin
    by (apply (bool_decide_unpack _); vm_compute; reflexivity).
  split_and!; [exact H0|exact Hin|].
  exact (proj1 (requests_are_minted 0 1 3 50 scenario_A 0 H0 Hin)).
Defined.

(** ** A configured retry budget *)

(** X14.  The budget set with [SetRetxNumber] is the one that is enforced:
    with a budget [R] of at least 1 and a sequence limit, no run sends more
    than [R] Interests for one sequence, [GetRetxNumber] still returns [R] at
    its end, and [OnTimeout] discards a sequence at most once, after exactly
    [R] sends, leaving no trace of it in the ledgers. *)
Theorem retry_budget_configured
    (startSeq seqMax R : N) (retxTimer : Z) (inputs : list Input) (s : N) :
  startSeq ≤ uint32_max → seqMax < uint32_max → 1 ≤ R → R ≤ uint32_max →
  let c0 := (exec (SetRetxNumber R) (initial startSeq seqMax 3 retxTimer)).1 in
  let evs := log inputs c0 in
  (GetRetxNumber (final inputs c0)).1.1 = R ∧
  N.of_nat (occurrences (TransmitInterest s) evs) ≤ R ∧
  (occurrences (RttDiscardInterestBySeq s) evs ≤ 1)%nat ∧
  (RttDiscardInterestBySeq s ∈ evs →
     N.of_nat (occurrences (TransmitInterest s) evs) = R ∧ absent s (final inputs c0)).
Proof.
  intros Hs HL H1 HR. cbv zeta.
  change (exec (SetRetxNumber R) (initial startSeq seqMax 3 retxTimer)).1
    with (initial startSeq seqMax R retxTimer).
  split; [|by apply retry_budget_run].
  destruct (initial_inv startSeq seqMax R retxTimer Hs) as [Hwf Hinv].
  apply (run_invariant (λ c (_ : unit), m_retxNum c = R) (λ a _, a)); try done.
  intros i c _ Hwf' Hinv' <-. cbn [GetRetxNumber gets fst].
  destruct i as [| |now|now rto|now tag name]; cbn [handle]; try done.
  - destruct (popped_fields c) as (_ & _ & _ & Hpn & _).
    destruct (SendPacket_paths now c) as [c' _ _ _ _ _ Hn _ _|s' c' _ _ _ _ Hsent|c1 c' _ _ _ -> Hsent].
    + done.
    + by destruct Hsent as (_ & _ & _ & _ & _ & Hn & _).
    + destruct Hsent as (_ & _ & _ & _ & _ & Hn & _). by rewrite Hn.
  - destruct (scan_state now rto c) as []. done.
  - rewrite OnData_exec. by destruct (m_active c).
Qed.

Lemma retry_budget_configured_witness :
  0 ≤ uint32_max ∧ 1 < uint32_max ∧
  N.of_nat (occurrences (TransmitInterest 0)
    (log [Start; Tick 0; RetxCheck 100 10; Tick 100; RetxCheck 200 10; Tick 200]
         (exec (SetRetxNumber 2) (initial 0 1 3 50)).1)) = 2.
Proof.
  assert (0 ≤ uint32_max) as H0 by (vm_compute; discriminate).
  assert (1 < uint32_max) as H1 by (vm_compute; reflexivity).
  assert (1 ≤ 2) as H2 by (vm_compute; discriminate).
  assert (2 ≤ uint32_max) as H3 by (vm_compute; discriminate).
  assert (RttDiscardInterestBySeq 0 ∈
          log [Start; Tick 0; RetxCheck 100 10; Tick 100; RetxCheck 200 10; Tick 200]
              (exec (SetRetxNumber 2) (initial 0 1 3 50)).1) as Hd
    by (apply (bool_decide_unpack _); vm_compute; reflexivity).
  split_and!; [exact H0|exact H1|].
  exact (proj1 (proj2 (proj2 (proj2
    (retry_budget_configured 0 1 2 50
       [Start; Tick 0; RetxCheck 100 10; Tick 100; RetxCheck 200 10; Tick 200] 0
       H0 H1 H2 H3))) Hd)).
Defined.

(** ** A budget of zero *)

(** The sequences of the Interests in a log, and those that [OnTimeout]
    queued for a resend. *)
Definition requested (evs : list Event) : list N :=
  omap (λ e, match e with TransmitInterest s => Some s | _ => None end) evs.

Definition resends (evs : list Event) : list N :=
  omap (λ e, match e with RttSentSeq s _ => Some s | _ => None end) evs.

Lemma requested_app (l1 l2 : list Event) : requested (l1 ++ l2) = requested l1 ++ requested l2.
Proof. apply omap_app. Qed.

Lemma resends_app (l1 l2 : list Event) : resends (l1 ++ l2) = resends l1 ++ resends l2.
Proof. apply omap_app. Qed.

Lemma requested_nil (evs : list Event) :
  (∀ k, TransmitInterest k ∉ evs) → requested evs = [].
Proof.
  induction evs as [|e evs IH]; intros Hn; [done|].
  assert (requested evs = []) as IH'.
  { apply IH. intros k Hk. apply (Hn k). by right. }
  destruct e; try exact IH'. exfalso. eapply Hn. by left.
Qed.

Lemma resends_nil (evs : list Event) :
  (∀ k n, RttSentSeq k n ∉ evs) → resends evs = [].
Proof.
  induction evs as [|e evs IH]; intros Hn; [done|].
  assert (resends evs = []) as IH'.
  { apply IH. intros k n Hk. apply (Hn k n). by right. }
  destruct e; try exact IH'. exfalso. eapply Hn. by left.
Qed.

Lemma occurrences_requested (s : N) (evs : list Event) :
  occurrences (TransmitInterest s) evs = length (filter (λ k, k = s) (requested evs)).
Proof.
  induction evs as [|e evs IH]; [done|].
  cbn [occurrences]. rewrite IH.
  destruct e; try (rewrite decide_False by done; done).
  change (requested (TransmitInterest s0 :: evs)) with (s0 :: requested evs).
  rewrite filter_cons. repeat case_decide; simplify_eq; done.
Qed.

Lemma filter_eq_absent (s : N) (l : list N) : s ∉ l → filter (λ k, k = s) l = [].
Proof.
  induction l as [|y l IH]; intros Hn; [done|]. rewrite filter_cons.
  apply not_elem_of_cons in Hn as [Hne Hn]. rewrite decide_False by done. auto.
Qed.

Lemma NoDup_filter_eq_length (s : N) (l : list N) :
  NoDup l → (length (filter (λ k, k = s) l) ≤ 1)%nat.
Proof.
  induction 1 as [|x l Hx _ IH]; [simpl; lia|].
  rewrite filter_cons. case_decide as Hs; [|done]. subst x. cbn [length].
  rewrite filter_eq_absent by done. simpl. lia.
Qed.

(** With a budget of zero nothing waits for a resend. *)
Definition zero_inv (c : Consumer) : Prop := m_retxNum c = 0 ∧ m_retxSeqs c = ∅.

Lemma handle_zero_inv (i : Input) (c : Consumer) :
  well_formed c → ledger_inv c → zero_inv c →
  let r := exec (handle i) c in
  zero_inv r.1 ∧ resends r.2 = [] ∧
  requested r.2 = option_list' (minted (mkStep c i r.2)).
Proof.
  intros Hwf Hinv [Hn He]. cbv zeta.
  destruct i as [| |now|now rto|now tag name]; cbn [handle minted input pre option_list'].
  - done.
  - done.
  - destruct (popped_fields c) as (_ & _ & _ & Hpn & _).
    destruct (popped_retxSeqs c) as [Hpr _].
    destruct (SendPacket_paths now c)
      as [c' _ _ _ Hrr _ Hnn _ _|s' c' _ Hin _ _ _|c1 c' _ _ _ -> Hsent];
      cbn [option_list'].
    + split; [|done]. split; [congruence|set_solver].
    + set_solver.
    + destruct Hsent as (_ & _ & _ & Hrr & _ & Hnn & _). cbn in Hrr, Hnn.
      split; [|done]. split; [congruence|set_solver].
  - assert (zero_inv (exec (CheckRetxTimeout now rto) c).1 ∧
            [] ++ resends (exec (CheckRetxTimeout now rto) c).2 = []) as [Hz Hr].
    { apply (CheckRetxTimeout_invariant (λ c' (a : list N), zero_inv c' ∧ a = [])
               (λ a evs, a ++ resends evs)); try done.
      - intros a. cbn. by rewrite app_nil_r.
      - intros a l1 l2. by rewrite resends_app, app_assoc.
      - intros a t. cbn. by rewrite app_nil_r.
      - intros s c0 a _ _ _ _ _ _ [[Hn0 He0] ->].
        rewrite OnTimeout_discard by (rewrite Hn0; lia). by cbn. }
    split; [done|]. split; [done|].
    apply requested_nil. intros k Hk.
    destruct (scan_calls now rto c) as (evs & Hevs & Hcalls).
    rewrite Hevs in Hk. apply elem_of_app in Hk as [Hk|Hk].
    + apply Hcalls in Hk. unfold timeout_call in Hk. naive_solver.
    + by apply list_elem_of_singleton in Hk.
  - split; [|split].
    + rewrite OnData_exec. destruct (m_active c); [|done].
      split; [done|]. unfold EraseResolved. cbn. set_solver.
    + apply resends_nil. intros k n Hk%occurrences_elem_of.
      rewrite OnData_occurrences in Hk by done. lia.
    + apply requested_nil. intros k Hk%occurrences_elem_of.
      rewrite OnData_occurrences in Hk by done. lia.
Qed.

Lemma run_zero_inv (inputs : list Input) (c : Consumer) :
  well_formed c → ledger_inv c → zero_inv c →
  zero_inv (final inputs c) ∧ resends (log inputs c) = [] ∧
  requested (log inputs c) = minted_list (steps inputs c).
Proof.
  revert c. induction inputs as [|i inputs IH]; intros c Hwf Hinv Hz; [done|].
  unfold log. cbn [final steps fmap list_fmap concat out]. rewrite minted_list_cons.
  destruct (handle_inv i c Hwf Hinv) as [Hwf' Hinv'].
  destruct (handle_zero_inv i c Hwf Hinv Hz) as (Hz' & Hr & Hq).
  destruct (IH _ Hwf' Hinv' Hz') as (IHz & IHr & IHq). unfold log in IHr, IHq.
  rewrite resends_app, requested_app, Hr, Hq, IHr, IHq.
  split; [done|]. split; [done|]. by destruct (minted _).
Qed.

Lemma minted_list_NoDup (startSeq seqMax retxNum : N) (retxTimer : Z) (inputs : list Input) :
  startSeq ≤ uint32_max → seqMax < uint32_max →
  NoDup (minted_list (steps inputs (initial startSeq seqMax retxNum retxTimer))).
Proof.
  intros Hs HL.
  destruct (initial_inv startSeq seqMax retxNum retxTimer Hs) as [Hwf Hinv].
  destruct (minted_list_run inputs _ Hwf Hinv) as (H1 & _ & H3).
  cbn [initial m_seq m_seqMax] in H1, H3.
  set (ms := minted_list (steps inputs (initial startSeq seqMax retxNum retxTimer))) in *.
  destruct (H3 HL) as [->|Hle]; [apply NoDup_nil_2|].
  rewrite H1. apply StronglySorted_lt_NoDup, counter_values_sorted.
  unfold uint32_max in HL. lia.
Qed.

(** X15.  [SetRetxNumber 0] turns retransmission off: in every run
    [OnTimeout] queues nothing for a resend, the retransmission set stays
    empty, the Interests sent are exactly the sequences minted, in order, and
    with a sequence limit no sequence is requested twice. *)
Theorem zero_budget
    (startSeq seqMax : N) (retxTimer : Z) (inputs : list Input) :
  startSeq ≤ uint32_max →
  let c0 := (exec (SetRetxNumber 0) (initial startSeq seqMax 3 retxTimer)).1 in
  let evs := log inputs c0 in
  m_retxSeqs (final inputs c0) = ∅ ∧
  resends evs = [] ∧
  requested evs = minted_list (steps inputs c0) ∧
  (seqMax < uint32_max → ∀ s, (occurrences (TransmitInterest s) evs ≤ 1)%nat).
Proof.
  intros Hs. cbv zeta.
  change (exec (SetRetxNumber 0) (initial startSeq seqMax 3 retxTimer)).1
    with (initial startSeq seqMax 0 retxTimer).
  destruct (initial_inv startSeq seqMax 0 retxTimer Hs) as [Hwf Hinv].
  destruct (run_zero_inv inputs _ Hwf Hinv) as ([_ He] & Hr & Hq); [done|].
  split_and!; [done..|].
  intros HL s. rewrite occurrences_requested, Hq.
  apply NoDup_filter_eq_length. by apply minted_list_NoDup.
Qed.

Lemma zero_budget_witness :
  0 ≤ uint32_max ∧
  requested (log scenario_A (exec (SetRetxNumber 0) (initial 0 1 3 50)).1) = [0].
Proof.
  assert (0 ≤ uint32_max) as H0 by (vm_compute; discriminate).
  split; [exact H0|].
  etransitivity; [exact (proj1 (proj2 (proj2 (zero_budget 0 1 50 scenario_A H0))))|].
  vm_compute. reflexivity.
Defined.

(** ** The retransmission timer *)

Lemma handle_retxTimer (i : Input) (c : Consumer) :
  let r := exec (handle i) c in
  m_retxTimer r.1 = m_retxTimer c ∧
  (∀ d, ScheduleRetx d ∈ r.2 → d = m_retxTimer c) ∧
  (∀ now rto, i = RetxCheck now rto → last r.2 = Some (ScheduleRetx (m_retxTimer c))).
Proof.
  cbv zeta. destruct i as [| |now|now rto|now tag name]; cbn [handle].
  - change (exec StartApplication c) with (set_active true c, [ScheduleNextPacket]).
    split_and!; [done| |done]. intros d. cbn [snd]. rewrite elem_of_cons, elem_of_nil.
    naive_solver.
  - change (exec StopApplication c) with (set_active false c, [CancelSend]).
    split_and!; [done| |done]. intros d. cbn [snd]. rewrite elem_of_cons, elem_of_nil.
    naive_solver.
  - split_and!; [| |done].
    + destruct (m_active c) eqn:Ha; [|by rewrite SendPacket_inactive].
      rewrite SendPacket_active by done.
      destruct (popped_fields c) as (_ & _ & _ & _ & Hpt & _).
      destruct (SelectSeq_cases c) as
        [(s & Hb & Hs & ->)|[(Hn & Hmax & Hle & ->)|(Hn & Hmax & ->)]];
        cbn [fst snd selected]; rewrite ?WaitBeforeSendOutInterest_exec; cbn; done.
    + intros d Hd.
      destruct (SendPacket_paths now c) as [c' _ _ _ _ _ _ _ _|s' c' _ _ _ _ _|c1 c' _ _ _ _ _];
        first [by apply elem_of_nil in Hd
              |rewrite !elem_of_cons, elem_of_nil in Hd;
               destruct Hd as [?|[?|[?|[]]]]; discriminate].
  - destruct (scan_calls now rto c) as (evs & Hevs & Hcalls).
    split_and!.
    + by destruct (scan_state now rto c).
    + intros d. rewrite Hevs. intros [Hd|Hd]%elem_of_app.
      * apply Hcalls in Hd. unfold timeout_call in Hd. naive_solver.
      * apply list_elem_of_singleton in Hd. by injection Hd.
    + intros _ _ _. by rewrite Hevs, last_snoc.
  - split_and!; [| |done].
    + rewrite OnData_exec. by destruct (m_active c).
    + intros d Hd%occurrences_elem_of.
      rewrite OnData_occurrences in Hd by done. lia.
Qed.

Lemma run_retxTimer (inputs : list Input) (c : Consumer) :
  m_retxTimer (final inputs c) = m_retxTimer c ∧
  (∀ d, ScheduleRetx d ∈ log inputs c → d = m_retxTimer c) ∧
  (∀ st now rto, st ∈ steps inputs c → input st = RetxCheck now rto →
                 last (out st) = Some (ScheduleRetx (m_retxTimer c))).
Proof.
  revert c. induction inputs as [|i inputs IH]; intros c.
  { unfold log. cbn. split_and!; [done|by intros d ?%elem_of_nil|by intros st ? ? ?%elem_of_nil]. }
  unfold log. cbn [final steps fmap list_fmap concat out].
  destruct (handle_retxTimer i c) as (Ht & Hd & Hl).
  destruct (IH (exec (handle i) c).1) as (IHt & IHd & IHl).
  rewrite Ht in IHt, IHd, IHl. split_and!.
  - done.
  - intros d [Hin|Hin]%elem_of_app; [by apply Hd|by apply IHd].
  - intros st now rto [->|Hin]%elem_of_cons Hi; [|by eapply IHl].
    cbn [input out] in *. by eapply Hl.
Qed.

(** X16.  [SetRetxTimer] changes the interval of the timeout scan and
    nothing else of the consumer; it removes the pending scan exactly when one
    is running and schedules one scan after the new interval.  From then on
    [GetRetxTimer] returns the new interval, at once and after every run, and
    every scan of a run re-arms itself with it as its last call; no handler
    schedules a scan with another delay. *)
Theorem SetRetxTimer_rearms
    (running : bool) (t : Z) (c : Consumer) (inputs : list Input) :
  let r := SetRetxTimer running t c in
  set_retxTimer (m_retxTimer c) r.1 = c ∧
  (SimulatorRemove ∈ r.2 ↔ running = true) ∧
  filter (λ call, call ≠ SimulatorRemove) r.2 = [SimulatorSchedule t] ∧
  (GetRetxTimer r.1).1.1 = t ∧
  (GetRetxTimer (final inputs r.1)).1.1 = t ∧
  (∀ d, ScheduleRetx d ∈ log inputs r.1 → d = t) ∧
  (∀ st now rto, st ∈ steps inputs r.1 → input st = RetxCheck now rto →
                 last (out st) = Some (ScheduleRetx t)).
Proof.
  cbv zeta. unfold SetRetxTimer. cbn [fst snd].
  destruct (run_retxTimer inputs (set_retxTimer t c)) as (Ht & Hd & Hl).
  split_and!; try done.
  - by destruct c.
  - destruct running; cbn; rewrite ?elem_of_cons, ?elem_of_nil; naive_solver.
  - by destruct running.
Qed.

(** ** The other bookkeeping of a send *)

(** X17.  [WillSendOutInterest] does the bookkeeping of a send as
    [WaitBeforeSendOutInterest] does, to the same state, and differs in the
    estimator call only ([SentSeq] for [SetInterestInfo]); so it keeps the
    ledgers well formed and consistent and leaves the sequence with a
    timeout entry and a counter raised by one. *)
Theorem WillSendOutInterest_records (now : Z) (s : N) (c : Consumer) :
  s ≤ uint32_max → s ∉ m_retxSeqs c → well_formed c → ledger_inv c →
  let r := exec (WillSendOutInterest now s) c in
  r.1 = (exec (WaitBeforeSendOutInterest now s) c).1 ∧
  r.2 = [RttSentSeq s 1] ∧
  (exec (WaitBeforeSendOutInterest now s) c).2 = [RttSetInterestInfo s 1] ∧
  well_formed r.1 ∧ ledger_inv r.1 ∧
  s ∈ Ledger.keys (m_seqTimeouts r.1) ∧
  Counts.get s (m_seqRetxCounts r.1) = wrap32 (Counts.get s (m_seqRetxCounts c) + 1).
Proof.
  intros Hs Hnr [Hseq Hr Ht Hu] [Hc Hd Hto Hp]. cbv zeta.
  assert (exec (WillSendOutInterest now s) c =
          ((exec (WaitBeforeSendOutInterest now s) c).1, [RttSentSeq s 1])) as ->
    by reflexivity.
  cbn [fst snd].
  destruct (WaitBeforeSendOutInterest_fields now s c)
    as (Hkc & Hkf & Hkl & Hkt & Hkr & Hks & Hku).
  split_and!; try done.
  - constructor; rewrite ?Hks, ?Hkr, ?Hkt; [done|done| |by apply Hku].
    intros k [->%elem_of_singleton|Hk]%elem_of_union; auto.
  - constructor; rewrite ?Hkc, ?Hkf, ?Hkl, ?Hkt, ?Hkr; set_solver.
  - rewrite Hkt. set_solver.
  - rewrite WaitBeforeSendOutInterest_exec. cbn.
    by rewrite get_incr, decide_True.
Qed.

Lemma WillSendOutInterest_records_witness :
  let c := final [Start; Tick 0] (initial 0 5 3 50) in
  1 ≤ uint32_max ∧ well_formed c ∧ ledger_inv c ∧
  ledger_inv (exec (WillSendOutInterest 7 1) c).1 ∧
  (exec (WillSendOutInterest 7 1) c).2 = [RttSentSeq 1 1].
Proof.
  cbv zeta.
  assert (1 ≤ uint32_max) as H1 by (vm_compute; discriminate).
  assert (well_formed (final [Start; Tick 0] (initial 0 5 3 50)) ∧
          ledger_inv (final [Start; Tick 0] (initial 0 5 3 50))) as [Hwf Hinv].
  { apply final_inv; apply initial_inv; vm_compute; discriminate. }
  assert (1 ∉ m_retxSeqs (final [Start; Tick 0] (initial 0 5 3 50))) as Hnr
    by (apply (bool_decide_unpack _); vm_compute; reflexivity).
  pose proof (WillSendOutInterest_records 7 1 _ H1 Hnr Hwf Hinv) as (_ & He & _ & _ & Hi & _).
  split_and!; [exact H1|exact Hwf|exact Hinv|exact Hi|exact He].
Defined.

(** ** The order of retransmissions *)

Lemma SendPacket_resend (now : Z) (s : N) (c : Consumer) :
  m_active c = true → RetxSet.begin (m_retxSeqs c) = Some s → s ≠ uint32_max →
  let r := exec (SendPacket now) c in
  r.2 = [RttSetInterestInfo s 1; TransmitInterest s; ScheduleNextPacket] ∧
  m_retxSeqs r.1 = m_retxSeqs c ∖ {[s]} ∧ m_seq r.1 = m_seq c ∧ m_active r.1 = true.
Proof.
  intros Ha Hb Hs. cbv zeta. rewrite SendPacket_active by done.
  rewrite (SelectSeq_resend s) by done. cbn [fst snd selected app].
  rewrite WaitBeforeSendOutInterest_exec. unfold popped. rewrite Hb. by cbn.
Qed.

(** X18.  Retransmissions leave in ascending order of sequence number,
    whatever the order in which the sequences timed out: while sequences
    wait for a resend, each scheduling tick of an active consumer resends
    the smallest of them and mints nothing, so [n] ticks resend the [n]
    smallest, smallest first. *)
Theorem resends_ascending (ticks : list Z) (c : Consumer) :
  m_active c = true → uint32_max ∉ m_retxSeqs c →
  (length ticks ≤ size (m_retxSeqs c))%nat →
  let l := requested (log (Tick <$> ticks) c) in
  length l = length ticks ∧ StronglySorted N.lt l ∧
  (∀ k, k ∈ l → k ∈ m_retxSeqs c) ∧
  (∀ k j, k ∈ l → j ∈ m_retxSeqs c → j ∉ l → k < j) ∧
  m_retxSeqs (final (Tick <$> ticks) c) = m_retxSeqs c ∖ list_to_set l ∧
  m_seq (final (Tick <$> ticks) c) = m_seq c.
Proof.
  cbv zeta. revert c. induction ticks as [|now ticks IH]; intros c Ha Hmax Hlen.
  { unfold log. cbn. split_and!; try done; [constructor|set_solver|set_solver|set_solver]. }
  destruct (RetxSet.begin (m_retxSeqs c)) as [s|] eqn:Hb.
  2: { apply begin_None in Hb. rewrite Hb, size_empty in Hlen. simpl in Hlen. lia. }
  pose proof (begin_Some _ _ Hb) as [Hin Hmin].
  assert (s ≠ uint32_max) as Hs by (intros ->; done).
  destruct (SendPacket_resend now s c Ha Hb Hs) as (Hev & Hr & Hq & Ha').
  assert (size (m_retxSeqs c) = S (size (m_retxSeqs c ∖ {[s]}))) as Hsize.
  { rewrite (union_difference_L {[s]} (m_retxSeqs c)) at 1 by set_solver.
    rewrite size_union by set_solver. by rewrite size_singleton. }
  specialize (IH (exec (SendPacket now) c).1 Ha').
  rewrite Hr, Hq in IH.
  destruct IH as (IHlen & IHs & IHin & IHleast & IHr & IHq);
    [set_solver|simpl in Hlen; lia|].
  unfold log in *. cbn [fmap list_fmap steps final handle concat out].
  rewrite requested_app, Hev.
  change (requested [RttSetInterestInfo s 1; TransmitInterest s; ScheduleNextPacket])
    with [s].
  cbn [app]. fold (fmap (M:=list) Tick ticks) in *.
  set (l := requested (concat (out <$> steps (Tick <$> ticks) (exec (SendPacket now) c).1))) in *.
  assert (∀ k, k ∈ l → s < k) as Hlt.
  { intros k Hk. apply IHin in Hk. apply elem_of_difference in Hk as [Hk Hne].
    specialize (Hmin k Hk). assert (k ≠ s) by set_solver. lia. }
  split_and!.
  - cbn [length]. by rewrite IHlen.
  - constructor; [done|]. by apply Forall_forall.
  - intros k [->|Hk]%elem_of_cons; [done|]. apply IHin in Hk. set_solver.
  - intros k j [->|Hk]%elem_of_cons Hj Hnj.
    + apply not_elem_of_cons in Hnj as [Hne _]. specialize (Hmin j Hj). lia.
    + apply not_elem_of_cons in Hnj as [Hne Hnj]. apply (IHleast k j); [done| |done].
      set_solver.
  - rewrite IHr. cbn [list_to_set foldr]. set_solver.
  - done.
Qed.

Lemma resends_ascending_witness :
  let c := final [Start; Tick 0; Tick 1; Tick 2; RetxCheck 100 10] (initial 0 5 3 50) in
  m_active c = true ∧ (2 ≤ size (m_retxSeqs c))%nat ∧
  StronglySorted N.lt (requested (log (Tick <$> [100; 101]%Z) c)) ∧
  requested (log (Tick <$> [100; 101]%Z) c) = [0; 1].
Proof.
  cbv zeta.
  assert (m_active (final [Start; Tick 0; Tick 1; Tick 2; RetxCheck 100 10]
                          (initial 0 5 3 50)) = true) as Ha by (vm_compute; reflexivity).
  assert (uint32_max ∉ m_retxSeqs (final [Start; Tick 0; Tick 1; Tick 2; RetxCheck 100 10]
                                         (initial 0 5 3 50))) as Hmax
    by (apply (bool_decide_unpack _); vm_compute; reflexivity).
  assert (length [100; 101]%Z ≤
          size (m_retxSeqs (final [Start; Tick 0; Tick 1; Tick 2; RetxCheck 100 10]
                                  (initial 0 5 3 50))))%nat as Hlen
    by (apply (bool_decide_unpack _); vm_compute; reflexivity).
  split_and!; [exact Ha|exact Hlen| |vm_compute; reflexivity].
  exact (proj1 (proj2 (resends_ascending [100; 101]%Z _ Ha Hmax Hlen))).
Defined.

(** ** A stopped consumer *)

(** X19.  A consumer that is not active sends nothing until it is started:
    over any run without a [Start] it stays inactive, transmits no Interest
    and fires no delay trace, although its timeout scans go on. *)
Theorem stopped_sends_nothing (inputs : list Input) (c : Consumer) :
  m_active c = false → Start ∉ inputs →
  m_active (final inputs c) = false ∧
  requested (log inputs c) = [] ∧
  (∀ e, e ∈ log inputs c → is_delay_metric e = false) ∧
  minted_list (steps inputs c) = [].
Proof.
  revert c. induction inputs as [|i inputs IH]; intros c Ha Hns.
  { unfold log. cbn. split_and!; try done. by intros e ?%elem_of_nil. }
  apply not_elem_of_cons in Hns as [Hi Hns].
  unfold log. cbn [final steps fmap list_fmap concat out]. rewrite minted_list_cons.
  assert (m_active (exec (handle i) c).1 = false ∧
          requested (exec (handle i) c).2 = [] ∧
          (∀ e, e ∈ (exec (handle i) c).2 → is_delay_metric e = false) ∧
          minted (mkStep c i (exec (handle i) c).2) = None) as (Ha' & Hq & Hm & Hmint).
  { destruct i as [| |now|now rto|now tag name]; cbn [handle minted input pre].
    - done.
    - change (exec StopApplication c) with (set_active false c, [CancelSend]).
      split_and!; try done. intros e ->%list_elem_of_singleton. done.
    - rewrite SendPacket_inactive by done. unfold minted_at. rewrite Ha.
      split_and!; try done. by intros e ?%elem_of_nil.
    - destruct (scan_state now rto c) as [Hact _ _ _ _ _ _ _ _ _].
      destruct (scan_calls now rto c) as (evs & Hevs & Hcalls).
      split_and!; [congruence| | |done].
      + apply requested_nil. intros k. rewrite Hevs. intros [Hk|Hk]%elem_of_app.
        * apply Hcalls in Hk. unfold timeout_call in Hk. naive_solver.
        * by apply list_elem_of_singleton in Hk.
      + intros e. rewrite Hevs. intros [Hk|Hk]%elem_of_app.
        * apply Hcalls in Hk. unfold timeout_call in Hk. naive_solver.
        * by apply list_elem_of_singleton in Hk as ->.
    - rewrite OnData_inactive by done. split_and!; try done. by intros e ?%elem_of_nil. }
  destruct (IH _ Ha' Hns) as (IHa & IHq & IHm & IHmint). unfold log in IHq, IHm.
  rewrite requested_app, Hq, IHq, Hmint. split_and!; try done.
  intros e [He|He]%elem_of_app; auto.
Qed.

Lemma stopped_sends_nothing_witness :
  let c := final [Start; Tick 0; Tick 1; Stop] (initial 0 5 3 50) in
  m_active c = false ∧
  requested (log [RetxCheck 100 10; Tick 100; Data 110 2 1; Tick 120] c) = [] ∧
  0 ∈ m_retxSeqs (final [RetxCheck 100 10; Tick 100; Data 110 2 1; Tick 120] c).
Proof.
  cbv zeta.
  assert (m_active (final [Start; Tick 0; Tick 1; Stop] (initial 0 5 3 50)) = false) as Ha
    by (vm_compute; reflexivity).
  assert (Start ∉ [RetxCheck 100 10; Tick 100; Data 110 2 1; Tick 120]) as Hns.
  { rewrite !not_elem_of_cons. split_and!; try discriminate. apply not_elem_of_nil. }
  split_and!; [exact Ha| |apply (bool_decide_unpack _); vm_compute; reflexivity].
  exact (proj1 (proj2 (stopped_sends_nothing _ _ Ha Hns))).
Defined.

(** ** A limit that is already reached *)

(** X20.  A consumer whose sequence limit does not lie above its first
    sequence requests nothing, as the constructor's [m_seqMax(0)] intends:
    no run mints a sequence or sends an Interest, and the counter stays
    where it is. *)
Theorem limit_reached_requests_nothing
    (startSeq seqMax retxNum : N) (retxTimer : Z) (inputs : list Input) :
  startSeq ≤ uint32_max → seqMax < uint32_max → seqMax ≤ startSeq →
  let c0 := initial startSeq seqMax retxNum retxTimer in
  minted_list (steps inputs c0) = [] ∧
  requested (log inputs c0) = [] ∧
  m_seq (final inputs c0) = startSeq.
Proof.
  intros Hs HL Hle. cbv zeta.
  destruct (initial_inv startSeq seqMax retxNum retxTimer Hs) as [Hwf Hinv].
  pose proof (minted_list_bounds startSeq seqMax retxNum retxTimer inputs Hs HL) as Hall.
  assert (minted_list (steps inputs (initial startSeq seqMax retxNum retxTimer)) = [])
    as Hnil.
  { destruct (minted_list _) as [|k ms]; [done|].
    apply Forall_cons in Hall as [? _]. lia. }
  split_and!; [done| |].
  - apply requested_nil. intros k Hk.
    assert (known_inv (initial startSeq seqMax retxNum retxTimer) []) as H0.
    { constructor; cbn; set_solver. }
    pose proof (run_requests inputs _ [] Hwf Hinv H0 k Hk) as Hm.
    rewrite Hnil in Hm. by apply elem_of_nil in Hm.
  - destruct (minted_list_run inputs _ Hwf Hinv) as (_ & H2 & _).
    rewrite H2, Hnil. reflexivity.
Qed.

Lemma limit_reached_requests_nothing_witness :
  0 ≤ uint32_max ∧ 0 < uint32_max ∧
  requested (log scenario_A (initial 0 0 3 50)) = [].
Proof.
  assert (0 ≤ uint32_max) as H0 by (vm_compute; discriminate).
  assert (0 < uint32_max) as H1 by (vm_compute; reflexivity).
  assert (0 ≤ 0) as H2 by (vm_compute; discriminate).
  split_and!; [exact H0|exact H1|].
  exact (proj1 (proj2 (limit_reached_requests_nothing 0 0 3 50 scenario_A H0 H1 H2))).
Defined.
